(** * N-Queens bitmask backtracking: a shallow embedding of the three solver files

    The repository holds three near-duplicate programs:
      - [src/solver.cpp]        (module [Solver]),
      - [src/unnamed/part_000]  (module [Part000]),
      - [src/unnamed/part_001]  (module [Part001]).

    Each is embedded function by function.  The C++ globals that the search
    mutates (solution counter, stop flag, the shared placement vector, the
    temporary file) are fields of one [state] record that is threaded through
    every call; the globals that are written once in [main] (board size and
    full mask) are parameters.  64-bit unsigned arithmetic is written over [Z]
    with the wrap-around spelled out.  Recursion is bounded by fuel, and
    undefined behaviour of the C++ program (an over-wide shift, an
    out-of-bounds vector read) is a result of its own. *)

From Stdlib Require Import ZArith List Bool Lia Sorted.
Import ListNotations.
Local Open Scope Z_scope.

(** ** Results of running fuel-bounded, possibly undefined code *)

Inductive result (A : Type) : Type :=
| Ok (a : A)
| OutOfFuel
| Undefined.

Arguments Ok {A} a.
Arguments OutOfFuel {A}.
Arguments Undefined {A}.

Definition bind {A B : Type} (m : result A) (k : A -> result B) : result B :=
  match m with
  | Ok a => k a
  | OutOfFuel => OutOfFuel
  | Undefined => Undefined
  end.

Notation "x <- m ;; k" := (bind m (fun x => k))
  (at level 61, m at next level, right associativity).

(** ** 64-bit unsigned words over [Z] *)

Definition wordsize : Z := 64.
Definition modulus : Z := 2 ^ wordsize.

(** [~x] on a [uint64_t]. *)
Definition not64 (x : Z) : Z := Z.lnot x mod modulus.

(** Unary minus on a [uint64_t]. *)
Definition neg64 (x : Z) : Z := (- x) mod modulus.

(** [x << 1] on a [uint64_t]: the top bit falls off. *)
Definition shl1 (x : Z) : Z := Z.shiftl x 1 mod modulus.

(** [x >> 1] on a [uint64_t]. *)
Definition shr1 (x : Z) : Z := Z.shiftr x 1.

(** [1ULL << n]; the C++ shift is undefined unless [0 <= n < 64]. *)
Definition shl_one (n : Z) : result Z :=
  if (0 <=? n) && (n <? wordsize) then Ok (Z.shiftl 1 n) else Undefined.

(** [__builtin_ctzll]: number of trailing zero bits (unspecified at 0). *)
Fixpoint ctz_pos (p : positive) : Z :=
  match p with
  | xO q => 1 + ctz_pos q
  | _ => 0
  end.

Definition ctzll (x : Z) : Z :=
  match x with
  | Zpos p => ctz_pos p
  | _ => 0
  end.

(** Number of set bits among the 64 bits of a word. *)
Definition popcount (x : Z) : nat :=
  length (filter (fun i => Z.testbit x (Z.of_nat i)) (seq 0 64)).

(** ** Program state *)

(** Ghost events: what the placement vector and the occupied-columns mask were
    on entry to a recursive call, and after the [pop_back] that follows one. *)
Inductive event : Type :=
| Enter (cols : Z) (path : list Z)
| Undone (cols : Z) (path : list Z).

Record state : Type := mkState {
  solutionCount : Z;            (* long long solutionCount *)
  stopSearch : bool;            (* bool stopSearch *)
  path : list Z;                (* the one shared vector<int> *)
  tempFile : list (list Z);     (* records written so far, oldest first *)
  trace : list event            (* ghost, newest first *)
}.

Definition init_state : state := mkState 0 false [] [] [].

Definition set_count (n : Z) (st : state) : state :=
  mkState n (stopSearch st) (path st) (tempFile st) (trace st).
Definition set_stop (b : bool) (st : state) : state :=
  mkState (solutionCount st) b (path st) (tempFile st) (trace st).
Definition set_path (p : list Z) (st : state) : state :=
  mkState (solutionCount st) (stopSearch st) p (tempFile st) (trace st).
Definition emit (r : list Z) (st : state) : state :=
  mkState (solutionCount st) (stopSearch st) (path st) (tempFile st ++ [r]) (trace st).
Definition log (e : event) (st : state) : state :=
  mkState (solutionCount st) (stopSearch st) (path st) (tempFile st) (e :: trace st).

Definition push_back (x : Z) (st : state) : state := set_path (path st ++ [x]) st.
Definition pop_back (st : state) : state := set_path (removelast (path st)) st.

(** The line a printing routine writes: [p[0] .. p[n-1]]; reading past the end
    of the vector is undefined. *)
Definition read_row (n : Z) (p : list Z) : result (list Z) :=
  if Z.of_nat (length p) <? n then Undefined else Ok (firstn (Z.to_nat n) p).

(** What [main] can be started with. *)
Inductive input : Type :=
| NoArgument                    (* argc < 2 *)
| Unreadable                    (* file missing, or no integer in it *)
| Parsed (n : Z).               (* the integer read into the board size *)

(** What [main] leaves behind. *)
Inductive outcome : Type :=
| UsageError
| InvalidInput
| NoSolution
| TempFileError
| Summary (n count : Z) (records : list (list Z)).

Definition exit_code (o : outcome) : Z :=
  match o with
  | UsageError | InvalidInput | TempFileError => 1
  | NoSolution | Summary _ _ _ => 0
  end.

(** Mirror image of a placement on a board of size [n]. *)
Definition mirror (n : Z) (p : list Z) : list Z := map (fun x => n + 1 - x) p.

(** ** src/solver.cpp *)

Module Solver.

Definition FIND_ALL_LIMIT : Z := 21.
Definition MAX_SOLUTIONS_LARGE_N : Z := 1000.

Section Engine.

Variable N : Z.
Variable LIMIT : Z.

Definition printSolution (p : list Z) (st : state) : result state :=
  r <- read_row N p ;; Ok (emit r st).

Definition printMirrorSolution (p : list Z) (st : state) : result state :=
  r <- read_row N p ;; Ok (emit (mirror N r) st).

Fixpoint solve (fuel : nat) (cols diagLeft diagRight : Z) (st : state)
  {struct fuel} : result state :=
  match fuel with
  | O => OutOfFuel
  | S fuel' =>
    let st := log (Enter cols (path st)) st in
    if stopSearch st then Ok st
    else if cols =? LIMIT then
      let st := set_count (solutionCount st + 1) st in
      st <- printSolution (path st) st ;;
      if (N >=? FIND_ALL_LIMIT) && (solutionCount st >=? MAX_SOLUTIONS_LARGE_N)
      then Ok (set_stop true st)
      else Ok st
    else
      let possible := Z.land (not64 (Z.lor (Z.lor cols diagLeft) diagRight)) LIMIT in
      solve_while fuel' possible cols diagLeft diagRight st
  end
with solve_while (fuel : nat) (possible cols diagLeft diagRight : Z) (st : state)
  {struct fuel} : result state :=
  match fuel with
  | O => OutOfFuel
  | S fuel' =>
    if possible =? 0 then Ok st
    else if stopSearch st then Ok st
    else
      let bit := Z.land possible (neg64 possible) in
      let possible := possible - bit in
      let column := ctzll bit in
      let st := push_back (column + 1) st in
      st <- solve fuel' (Z.lor cols bit)
                  (shl1 (Z.lor diagLeft bit))
                  (shr1 (Z.lor diagRight bit)) st ;;
      let st := pop_back st in
      let st := log (Undone cols (path st)) st in
      solve_while fuel' possible cols diagLeft diagRight st
  end.

Fixpoint symmetricSolve (fuel : nat) (c l r : Z) (st : state)
  {struct fuel} : result state :=
  match fuel with
  | O => OutOfFuel
  | S fuel' =>
    let st := log (Enter c (path st)) st in
    if c =? LIMIT then
      let st := set_count (solutionCount st + 1) st in
      st <- printSolution (path st) st ;;
      let st := set_count (solutionCount st + 1) st in
      printMirrorSolution (path st) st
    else
      let p := Z.land (not64 (Z.lor (Z.lor c l) r)) LIMIT in
      symmetricSolve_while fuel' p c l r st
  end
with symmetricSolve_while (fuel : nat) (p c l r : Z) (st : state)
  {struct fuel} : result state :=
  match fuel with
  | O => OutOfFuel
  | S fuel' =>
    if p =? 0 then Ok st
    else
      let b := Z.land p (neg64 p) in
      let p := p - b in
      let st := push_back (ctzll b + 1) st in
      st <- symmetricSolve fuel' (Z.lor c b) (shl1 (Z.lor l b)) (shr1 (Z.lor r b)) st ;;
      let st := pop_back st in
      let st := log (Undone c (path st)) st in
      symmetricSolve_while fuel' p c l r st
  end.

(** [for (int col = ...; col < half; col++)], with [todo] iterations left. *)
Fixpoint firstHalf (fuel : nat) (todo : nat) (col : Z) (st : state)
  {struct todo} : result state :=
  match todo with
  | O => Ok st
  | S todo' =>
    bit <- shl_one col ;;
    let st := push_back (col + 1) st in
    st <- symmetricSolve fuel bit (shl1 bit) (shr1 bit) st ;;
    let st := pop_back st in
    let st := log (Undone 0 (path st)) st in
    firstHalf fuel todo' (col + 1) st
  end.

Definition solveWithSymmetry (fuel : nat) (st : state) : result state :=
  if N >=? FIND_ALL_LIMIT then
    solve fuel 0 0 0 (set_path [] st)
  else
    let st := set_path [] st in
    let half := Z.quot N 2 in
    st <- firstHalf fuel (Z.to_nat half) 0 st ;;
    if Z.rem N 2 =? 1 then
      let mid := Z.quot N 2 in
      bit <- shl_one mid ;;
      let st := push_back (mid + 1) st in
      st <- solve fuel bit (shl1 bit) (shr1 bit) st ;;
      let st := pop_back st in
      Ok (log (Undone 0 (path st)) st)
    else Ok st.

End Engine.

Definition main (fuel : nat) (tmp_ok : bool) (i : input) : result (outcome * state) :=
  match i with
  | NoArgument => Ok (UsageError, init_state)
  | Unreadable => Ok (InvalidInput, init_state)
  | Parsed N =>
    if (N <? 4) && negb (N =? 1) then Ok (NoSolution, init_state)
    else
      one <- shl_one N ;;
      let LIMIT := (one - 1) mod modulus in
      if negb tmp_ok then Ok (TempFileError, init_state)
      else
        st <- solveWithSymmetry N LIMIT fuel init_state ;;
        Ok (Summary N (solutionCount st) (tempFile st), st)
  end.

End Solver.

(** ** src/unnamed/part_000

    Same engine; the stop flag ([terminateSearch], here the [stopSearch] field)
    is tested but no statement ever sets it, and [main] short-circuits only on
    board sizes 2 and 3. *)

Module Part000.

Definition ENUMERATION_LIMIT : Z := 21.

Section Engine.

Variable boardSize : Z.
Variable fullMask : Z.

Definition writeSolution (placement : list Z) (st : state) : result state :=
  r <- read_row boardSize placement ;; Ok (emit r st).

Definition writeMirroredSolution (placement : list Z) (st : state) : result state :=
  r <- read_row boardSize placement ;; Ok (emit (mirror boardSize r) st).

Fixpoint backtrack (fuel : nat) (columns diagLeft diagRight : Z) (st : state)
  {struct fuel} : result state :=
  match fuel with
  | O => OutOfFuel
  | S fuel' =>
    let st := log (Enter columns (path st)) st in
    if stopSearch st then Ok st
    else if columns =? fullMask then
      let st := set_count (solutionCount st + 1) st in
      writeSolution (path st) st
    else
      let available :=
        Z.land (not64 (Z.lor (Z.lor columns diagLeft) diagRight)) fullMask in
      backtrack_while fuel' available columns diagLeft diagRight st
  end
with backtrack_while (fuel : nat) (available columns diagLeft diagRight : Z)
  (st : state) {struct fuel} : result state :=
  match fuel with
  | O => OutOfFuel
  | S fuel' =>
    if available =? 0 then Ok st
    else if stopSearch st then Ok st
    else
      let bit := Z.land available (neg64 available) in
      let available := available - bit in
      let colIndex := ctzll bit in
      let st := push_back (colIndex + 1) st in
      st <- backtrack fuel' (Z.lor columns bit)
                      (shl1 (Z.lor diagLeft bit))
                      (shr1 (Z.lor diagRight bit)) st ;;
      let st := pop_back st in
      let st := log (Undone columns (path st)) st in
      backtrack_while fuel' available columns diagLeft diagRight st
  end.

Fixpoint symmetricDFS (fuel : nat) (c l r : Z) (st : state)
  {struct fuel} : result state :=
  match fuel with
  | O => OutOfFuel
  | S fuel' =>
    let st := log (Enter c (path st)) st in
    if c =? fullMask then
      let st := set_count (solutionCount st + 1) st in
      st <- writeSolution (path st) st ;;
      let st := set_count (solutionCount st + 1) st in
      writeMirroredSolution (path st) st
    else
      let possible := Z.land (not64 (Z.lor (Z.lor c l) r)) fullMask in
      symmetricDFS_while fuel' possible c l r st
  end
with symmetricDFS_while (fuel : nat) (possible c l r : Z) (st : state)
  {struct fuel} : result state :=
  match fuel with
  | O => OutOfFuel
  | S fuel' =>
    if possible =? 0 then Ok st
    else
      let b := Z.land possible (neg64 possible) in
      let possible := possible - b in
      let st := push_back (ctzll b + 1) st in
      st <- symmetricDFS fuel' (Z.lor c b) (shl1 (Z.lor l b)) (shr1 (Z.lor r b)) st ;;
      let st := pop_back st in
      let st := log (Undone c (path st)) st in
      symmetricDFS_while fuel' possible c l r st
  end.

Fixpoint firstHalf (fuel : nat) (todo : nat) (col : Z) (st : state)
  {struct todo} : result state :=
  match todo with
  | O => Ok st
  | S todo' =>
    bit <- shl_one col ;;
    let st := push_back (col + 1) st in
    st <- symmetricDFS fuel bit (shl1 bit) (shr1 bit) st ;;
    let st := pop_back st in
    let st := log (Undone 0 (path st)) st in
    firstHalf fuel todo' (col + 1) st
  end.

Definition solveWithSymmetry (fuel : nat) (st : state) : result state :=
  if boardSize >=? ENUMERATION_LIMIT then
    backtrack fuel 0 0 0 (set_path [] st)
  else
    let st := set_path [] st in
    let halfColumns := Z.quot boardSize 2 in
    st <- firstHalf fuel (Z.to_nat halfColumns) 0 st ;;
    if Z.rem boardSize 2 =? 1 then
      let mid := Z.quot boardSize 2 in
      bit <- shl_one mid ;;
      let st := push_back (mid + 1) st in
      st <- backtrack fuel bit (shl1 bit) (shr1 bit) st ;;
      let st := pop_back st in
      Ok (log (Undone 0 (path st)) st)
    else Ok st.

End Engine.

Definition main (fuel : nat) (tmp_ok : bool) (i : input) : result (outcome * state) :=
  match i with
  | NoArgument => Ok (UsageError, init_state)
  | Unreadable => Ok (InvalidInput, init_state)
  | Parsed boardSize =>
    if (boardSize =? 2) || (boardSize =? 3) then Ok (NoSolution, init_state)
    else
      one <- shl_one boardSize ;;
      let fullMask := (one - 1) mod modulus in
      if negb tmp_ok then Ok (TempFileError, init_state)
      else
        st <- solveWithSymmetry boardSize fullMask fuel init_state ;;
        Ok (Summary boardSize (solutionCount st) (tempFile st), st)
  end.

End Part000.

(** ** src/unnamed/part_001

    No stop flag at all; the mirror line is printed from a mirrored copy of the
    whole vector; sizes up to 1 go to the plain search. *)

Module Part001.

Section Engine.

Variable boardSize : Z.
Variable fullBoardMask : Z.

Definition printSolution (queenPositions : list Z) (st : state) : result state :=
  r <- read_row boardSize queenPositions ;; Ok (emit r st).

Fixpoint solve (fuel : nat)
  (occupiedColumns occupiedLeftDiagonals occupiedRightDiagonals : Z) (st : state)
  {struct fuel} : result state :=
  match fuel with
  | O => OutOfFuel
  | S fuel' =>
    let st := log (Enter occupiedColumns (path st)) st in
    if occupiedColumns =? fullBoardMask then
      let st := set_count (solutionCount st + 1) st in
      printSolution (path st) st
    else
      let availablePositions :=
        Z.land (not64 (Z.lor (Z.lor occupiedColumns occupiedLeftDiagonals)
                             occupiedRightDiagonals)) fullBoardMask in
      solve_while fuel' availablePositions occupiedColumns
                  occupiedLeftDiagonals occupiedRightDiagonals st
  end
with solve_while (fuel : nat)
  (availablePositions occupiedColumns occupiedLeftDiagonals occupiedRightDiagonals : Z)
  (st : state) {struct fuel} : result state :=
  match fuel with
  | O => OutOfFuel
  | S fuel' =>
    if availablePositions =? 0 then Ok st
    else
      let selectedPosition := Z.land availablePositions (neg64 availablePositions) in
      let availablePositions := availablePositions - selectedPosition in
      let columnIndex := ctzll selectedPosition in
      let st := push_back (columnIndex + 1) st in
      st <- solve fuel' (Z.lor occupiedColumns selectedPosition)
                  (shl1 (Z.lor occupiedLeftDiagonals selectedPosition))
                  (shr1 (Z.lor occupiedRightDiagonals selectedPosition)) st ;;
      let st := pop_back st in
      let st := log (Undone occupiedColumns (path st)) st in
      solve_while fuel' availablePositions occupiedColumns
                  occupiedLeftDiagonals occupiedRightDiagonals st
  end.

Fixpoint recursiveSolver (fuel : nat) (cols leftDiag rightDiag : Z) (st : state)
  {struct fuel} : result state :=
  match fuel with
  | O => OutOfFuel
  | S fuel' =>
    let st := log (Enter cols (path st)) st in
    if cols =? fullBoardMask then
      let st := set_count (solutionCount st + 1) st in
      st <- printSolution (path st) st ;;
      let st := set_count (solutionCount st + 1) st in
      let mirrored := mirror boardSize (path st) in
      printSolution mirrored st
    else
      let available := Z.land (not64 (Z.lor (Z.lor cols leftDiag) rightDiag)) fullBoardMask in
      recursiveSolver_while fuel' available cols leftDiag rightDiag st
  end
with recursiveSolver_while (fuel : nat) (available cols leftDiag rightDiag : Z)
  (st : state) {struct fuel} : result state :=
  match fuel with
  | O => OutOfFuel
  | S fuel' =>
    if available =? 0 then Ok st
    else
      let pos := Z.land available (neg64 available) in
      let available := available - pos in
      let st := push_back (ctzll pos + 1) st in
      st <- recursiveSolver fuel' (Z.lor cols pos) (shl1 (Z.lor leftDiag pos))
                            (shr1 (Z.lor rightDiag pos)) st ;;
      let st := pop_back st in
      let st := log (Undone cols (path st)) st in
      recursiveSolver_while fuel' available cols leftDiag rightDiag st
  end.

Fixpoint firstHalf (fuel : nat) (todo : nat) (column : Z) (st : state)
  {struct todo} : result state :=
  match todo with
  | O => Ok st
  | S todo' =>
    selected <- shl_one column ;;
    let st := push_back (column + 1) st in
    st <- recursiveSolver fuel selected (shl1 selected) (shr1 selected) st ;;
    let st := pop_back st in
    let st := log (Undone 0 (path st)) st in
    firstHalf fuel todo' (column + 1) st
  end.

Definition solveWithSymmetry (fuel : nat) (st : state) : result state :=
  if (boardSize <=? 1) || (boardSize >=? 21) then
    solve fuel 0 0 0 (set_path [] st)
  else
    let st := set_path [] st in
    let halfBoard := Z.quot boardSize 2 in
    st <- firstHalf fuel (Z.to_nat halfBoard) 0 st ;;
    if Z.rem boardSize 2 =? 1 then
      let middle := Z.quot boardSize 2 in
      pos <- shl_one middle ;;
      let st := push_back (middle + 1) st in
      st <- solve fuel pos (shl1 pos) (shr1 pos) st ;;
      let st := pop_back st in
      Ok (log (Undone 0 (path st)) st)
    else Ok st.

End Engine.

Definition main (fuel : nat) (tmp_ok : bool) (i : input) : result (outcome * state) :=
  match i with
  | NoArgument => Ok (UsageError, init_state)
  | Unreadable => Ok (InvalidInput, init_state)
  | Parsed boardSize =>
    if (boardSize <? 4) && negb (boardSize =? 1) then Ok (NoSolution, init_state)
    else
      one <- shl_one boardSize ;;
      let fullBoardMask := (one - 1) mod modulus in
      if negb tmp_ok then Ok (TempFileError, init_state)
      else
        st <- solveWithSymmetry boardSize fullBoardMask fuel init_state ;;
        Ok (Summary boardSize (solutionCount st) (tempFile st), st)
  end.

End Part001.

(** ** The buffered output of src/solver.cpp, byte by byte

    The search above keeps the temporary file as a list of records.  Here the
    printing routines are embedded down to the bytes: [outBuffer] with its
    fill level [bufferPos], [flushBuffer] moving it to the temporary file, and
    the digit loop of [writeInt] with its 16-byte scratch array.  A byte is its
    character code.  Storing past the end of either array is undefined. *)

Module Sink.

Definition BUFFER_SIZE : Z := 65536.
Definition TEMP_SIZE : nat := 16.

Record buffer : Type := mkBuffer {
  written : list Z;             (* bytes handed to fwrite so far *)
  outBuffer : list Z            (* outBuffer[0 .. bufferPos) *)
}.

Definition bufferPos (b : buffer) : Z := Z.of_nat (length (outBuffer b)).

Definition flushBuffer (b : buffer) : buffer :=
  if 0 <? bufferPos b then mkBuffer (written b ++ outBuffer b) [] else b.

(** [outBuffer[bufferPos++] = c]. *)
Definition store (c : Z) (b : buffer) : result buffer :=
  if bufferPos b <? BUFFER_SIZE
  then Ok (mkBuffer (written b) (outBuffer b ++ [c]))
  else Undefined.

Fixpoint store_all (cs : list Z) (b : buffer) : result buffer :=
  match cs with
  | [] => Ok b
  | c :: cs' => b <- store c b ;; store_all cs' b
  end.

(** [do { temp[len++] = char('0' + x % 10); x /= 10; } while (x);] with
    [room] free slots left in [temp]; the digits come out lowest first. *)
Fixpoint fill_temp (room : nat) (x : Z) (temp : list Z) : result (list Z) :=
  match room with
  | O => Undefined
  | S room' =>
    let temp := temp ++ [48 + Z.rem x 10] in
    let x := Z.quot x 10 in
    if x =? 0 then Ok temp else fill_temp room' x temp
  end.

Definition writeInt (x : Z) (b : buffer) : result buffer :=
  temp <- fill_temp TEMP_SIZE x [] ;;
  let len := Z.of_nat (length temp) in
  let b := if bufferPos b + len + 1 >=? BUFFER_SIZE then flushBuffer b else b in
  store_all (rev temp) b.

Definition writeSpace (b : buffer) : result buffer :=
  let b := if bufferPos b >=? BUFFER_SIZE then flushBuffer b else b in
  store 32 b.

Definition writeNewLine (b : buffer) : result buffer :=
  let b := if bufferPos b >=? BUFFER_SIZE then flushBuffer b else b in
  store 10 b.

Section Printing.

Variable N : Z.

(** [for (int i = ...; i < N; i++)] of [printSolution], [todo] turns left. *)
Fixpoint printSolution_for (todo : nat) (i : Z) (p : list Z) (b : buffer)
  {struct todo} : result buffer :=
  match todo with
  | O => Ok b
  | S todo' =>
    match nth_error p (Z.to_nat i) with
    | None => Undefined
    | Some x =>
      b <- writeInt x b ;;
      b <- (if i <? N - 1 then writeSpace b else Ok b) ;;
      printSolution_for todo' (i + 1) p b
    end
  end.

Definition printSolution (p : list Z) (b : buffer) : result buffer :=
  b <- printSolution_for (Z.to_nat N) 0 p b ;;
  writeNewLine b.

Fixpoint printMirrorSolution_for (todo : nat) (i : Z) (p : list Z) (b : buffer)
  {struct todo} : result buffer :=
  match todo with
  | O => Ok b
  | S todo' =>
    match nth_error p (Z.to_nat i) with
    | None => Undefined
    | Some x =>
      b <- writeInt ((N + 1) - x) b ;;
      b <- (if i <? N - 1 then writeSpace b else Ok b) ;;
      printMirrorSolution_for todo' (i + 1) p b
    end
  end.

Definition printMirrorSolution (p : list Z) (b : buffer) : result buffer :=
  b <- printMirrorSolution_for (Z.to_nat N) 0 p b ;;
  writeNewLine b.

End Printing.

(** Everything written so far, flushed or not. *)
Definition contents (b : buffer) : list Z := written b ++ outBuffer b.

(** Reading a decimal number back, and a line of numbers separated by single
    spaces and closed by a newline. *)
Definition decode_digits (ds : list Z) : Z :=
  fold_left (fun a d => 10 * a + (d - 48)) ds 0.

Fixpoint decode_row (bs : list Z) (cur : Z) : list Z * list Z :=
  match bs with
  | [] => ([cur], [])
  | c :: bs' =>
    if c =? 10 then ([cur], bs')
    else if c =? 32 then
      let (row, rest) := decode_row bs' 0 in (cur :: row, rest)
    else decode_row bs' (10 * cur + (c - 48))
  end.

(** The decimal digits of a non-negative number, highest first. *)
Fixpoint digits (fuel : nat) (x : Z) : list Z :=
  match fuel with
  | O => []
  | S fuel' =>
    (if Z.quot x 10 =? 0 then [] else digits fuel' (Z.quot x 10))
    ++ [48 + Z.rem x 10]
  end.

(** The line of a row: numbers separated by spaces, then a newline. *)
Fixpoint row_bytes (row : list Z) : list Z :=
  match row with
  | [] => [10]
  | [x] => digits TEMP_SIZE x ++ [10]
  | x :: rest => digits TEMP_SIZE x ++ [32] ++ row_bytes rest
  end.

End Sink.

(** ** What the claims speak about *)

(** A full non-attacking placement on an [n] by [n] board: [n] columns, each in
    [1..n], no two rows sharing a column or a diagonal. *)
Definition valid_solution (n : Z) (s : list Z) : Prop :=
  length s = Z.to_nat n /\
  Forall (fun x => 1 <= x <= n) s /\
  forall i j : nat, (i < length s)%nat -> (j < length s)%nat -> i <> j ->
    nth i s 0 <> nth j s 0 /\
    Z.abs (nth i s 0 - nth j s 0) <> Z.abs (Z.of_nat i - Z.of_nat j).

(** The same for a prefix of rows, earlier row first. *)
Definition safe (p : list Z) : Prop :=
  forall i j : nat, (i < j < length p)%nat ->
    nth i p 0 <> nth j p 0 /\
    Z.abs (nth i p 0 - nth j p 0) <> Z.of_nat j - Z.of_nat i.

(** What the three masks mean for the rows placed so far. *)
Record Inv (n c l r : Z) (p : list Z) : Prop := mkInv {
  inv_range : Forall (fun x => 1 <= x <= n) p;
  inv_safe : safe p;
  inv_pop : length p = popcount c;
  inv_cols : forall j, 0 <= j -> (Z.testbit c j = true <-> In (j + 1) p);
  inv_left : forall j, 0 <= j < n ->
    (Z.testbit l j = true <->
     exists i : nat, (i < length p)%nat /\
       nth i p 0 - 1 + (Z.of_nat (length p) - Z.of_nat i) = j);
  inv_right : forall j, 0 <= j ->
    (Z.testbit r j = true <->
     exists i : nat, (i < length p)%nat /\
       nth i p 0 - 1 - (Z.of_nat (length p) - Z.of_nat i) = j)
}.

Arguments inv_range {n c l r p}.
Arguments inv_safe {n c l r p}.
Arguments inv_pop {n c l r p}.
Arguments inv_cols {n c l r p}.
Arguments inv_left {n c l r p}.
Arguments inv_right {n c l r p}.

(** Candidate columns still to be tried in a row: all of them free. *)
Definition avail (n c l r q : Z) : Prop :=
  0 <= q /\
  forall j, 0 <= j -> Z.testbit q j = true ->
    j < n /\ Z.testbit c j = false /\ Z.testbit l j = false /\ Z.testbit r j = false.

Definition good_event (e : event) : Prop :=
  match e with
  | Enter c p => length p = popcount c
  | Undone c p => length p = popcount c
  end.

(** One found placement as written by the plain search, and as written by the
    symmetric search (the placement, then its mirror image). *)
Definition single (s : list Z) : list (list Z) := [s].
Definition twin (n : Z) (s : list Z) : list (list Z) := [s; mirror n s].

(** [st'] continues [st]: records [flat_map g sols] appended, the counter
    advanced by their number, events added. *)
Definition grows (g : list Z -> list (list Z)) (P : list Z -> Prop)
  (st st' : state) : Prop :=
  exists (sols : list (list Z)) (evs : list event),
    tempFile st' = tempFile st ++ flat_map g sols /\
    Forall P sols /\
    solutionCount st' = solutionCount st + Z.of_nat (length (flat_map g sols)) /\
    trace st' = evs ++ trace st /\
    Forall good_event evs.

(** ... and the placement vector is back to what it was. *)
Definition extends (g : list Z -> list (list Z)) (P : list Z -> Prop)
  (st st' : state) : Prop :=
  path st' = path st /\ grows g P st st'.

(** A placement of a board of size [n] that starts with the rows [p]. *)
Definition completes (n : Z) (p s : list Z) : Prop :=
  valid_solution n s /\ exists t, s = p ++ t.

(** The bound policy of src/solver.cpp on large boards. *)
Definition capped (st : state) : Prop :=
  solutionCount st <= Solver.MAX_SOLUTIONS_LARGE_N /\
  (stopSearch st = false -> solutionCount st < Solver.MAX_SOLUTIONS_LARGE_N).

(** What the symmetric entry point leaves in the temporary file on a small
    board: the placements whose first queen is in the left half, each followed
    by its mirror image, then the placements whose first queen is in the middle
    column. *)
Definition left_half (n : Z) (s : list Z) : Prop :=
  valid_solution n s /\ 1 <= hd 0 s <= Z.quot n 2.

Definition middle (n : Z) (s : list Z) : Prop :=
  valid_solution n s /\ hd 0 s = Z.quot n 2 + 1.

Definition twinned (n : Z) (out : list (list Z)) : Prop :=
  exists sols mids,
    out = flat_map (twin n) sols ++ mids /\
    Forall (left_half n) sols /\ Forall (middle n) mids.

(** What holds of the state a finished run leaves. *)
Record run_ok (n : Z) (st : state) : Prop := mkRunOk {
  run_valid : Forall (valid_solution n) (tempFile st);
  run_count : solutionCount st = Z.of_nat (length (tempFile st));
  run_trace : Forall good_event (trace st);
  run_path : path st = []
}.

Arguments run_valid {n st}.
Arguments run_count {n st}.
Arguments run_trace {n st}.
Arguments run_path {n st}.

(** Lexicographic order on placements, first row first. *)
Fixpoint lex_lt (a b : list Z) : Prop :=
  match a, b with
  | x :: a', y :: b' => x < y \/ (x = y /\ lex_lt a' b')
  | [], _ :: _ => True
  | _, [] => False
  end.

(** The placement vectors with which the recursive calls were entered, in
    the order of the calls, oldest first. *)
Definition entered (t : list event) : list (list Z) :=
  rev (flat_map (fun e => match e with
                          | Enter _ p => [p]
                          | Undone _ _ => []
                          end) t).

(** [s] extends the placement [p] by a column that is a candidate in [q]. *)
Definition below (q : Z) (p s : list Z) : Prop :=
  exists y t, s = p ++ y :: t /\ Z.testbit q (y - 1) = true.

(** ** The three programs side by side *)

Inductive variant : Type :=
| solver_cpp          (* src/solver.cpp *)
| part_000            (* src/unnamed/part_000 *)
| part_001.           (* src/unnamed/part_001 *)

Definition run_main (v : variant) :
  nat -> bool -> input -> result (outcome * state) :=
  match v with
  | solver_cpp => Solver.main
  | part_000 => Part000.main
  | part_001 => Part001.main
  end.

Definition plain_search (v : variant) :
  Z -> Z -> nat -> Z -> Z -> Z -> state -> result state :=
  match v with
  | solver_cpp => Solver.solve
  | part_000 => Part000.backtrack
  | part_001 => Part001.solve
  end.

Definition symmetric_search (v : variant) :
  Z -> Z -> nat -> Z -> Z -> Z -> state -> result state :=
  match v with
  | solver_cpp => Solver.symmetricSolve
  | part_000 => Part000.symmetricDFS
  | part_001 => Part001.recursiveSolver
  end.

(** The cap on reported solutions a program is built with, if any. *)
Definition configured_cap (v : variant) : option Z :=
  match v with
  | solver_cpp => Some Solver.MAX_SOLUTIONS_LARGE_N
  | part_000 | part_001 => None
  end.

Definition outcome_of (r : result (outcome * state)) : outcome :=
  match r with
  | Ok (o, _) => o
  | _ => UsageError
  end.

Definition final (r : result (outcome * state)) : state :=
  match r with
  | Ok (_, st) => st
  | _ => init_state
  end.

(** ** Bit-level facts *)

Lemma modulus_eq : modulus = 2 ^ 64.
Proof. reflexivity. Qed.

Lemma testbit_small (x n j : Z) :
  0 <= x < 2 ^ n -> n <= j -> Z.testbit x j = false.
Proof.
  intros Hx Hj.
  destruct (Z.ltb_spec n 0) as [Hn|Hn].
  - rewrite Z.pow_neg_r in Hx by lia. lia.
  - rewrite <- (Z.mod_small x (2 ^ n)) by lia.
    apply Z.mod_pow2_bits_high. lia.
Qed.

Lemma not64_spec (x j : Z) :
  0 <= j < 64 -> Z.testbit (not64 x) j = negb (Z.testbit x j).
Proof.
  intros Hj. unfold not64. rewrite modulus_eq.
  rewrite Z.mod_pow2_bits_low by lia. apply Z.lnot_spec. lia.
Qed.

Lemma shl1_spec (x j : Z) :
  0 <= j < 64 -> Z.testbit (shl1 x) j = Z.testbit x (j - 1).
Proof.
  intros Hj. unfold shl1. rewrite modulus_eq.
  rewrite Z.mod_pow2_bits_low by lia. apply Z.shiftl_spec. lia.
Qed.

Lemma shr1_spec (x j : Z) :
  0 <= j -> Z.testbit (shr1 x) j = Z.testbit x (j + 1).
Proof. intros Hj. unfold shr1. apply Z.shiftr_spec. lia. Qed.

Lemma lor_pow2_spec (x k j : Z) :
  0 <= k -> Z.testbit (Z.lor x (2 ^ k)) j = Z.testbit x j || (k =? j).
Proof.
  intros Hk. rewrite Z.lor_spec, Z.pow2_bits_eqb by lia. reflexivity.
Qed.

(** The lowest set bit of an odd number, then of any positive number. *)
Lemma land_neg_odd (a : Z) : Z.land (2 * a + 1) (- (2 * a + 1)) = 1.
Proof.
  apply Z.bits_inj'. intros n Hn.
  rewrite Z.land_spec.
  replace (- (2 * a + 1)) with (2 * Z.lnot a + 1)
    by (rewrite Z.lnot_eq_pred_opp; lia).
  destruct (Z.eq_dec n 0) as [->|Hne].
  - rewrite !Z.testbit_odd_0. reflexivity.
  - replace n with (Z.succ (n - 1)) by lia.
    rewrite !Z.testbit_odd_succ by lia.
    rewrite Z.lnot_spec by lia.
    change 1 with (2 * 0 + 1). rewrite Z.testbit_odd_succ by lia.
    rewrite Z.testbit_0_l. apply andb_negb_r.
Qed.

Lemma land_neg_even (a : Z) :
  Z.land (2 * a) (- (2 * a)) = 2 * Z.land a (- a).
Proof.
  apply Z.bits_inj'. intros n Hn.
  rewrite Z.land_spec.
  replace (- (2 * a)) with (2 * (- a)) by lia.
  destruct (Z.eq_dec n 0) as [->|Hne].
  - rewrite !Z.testbit_even_0. reflexivity.
  - replace n with (Z.succ (n - 1)) by lia.
    rewrite !Z.testbit_even_succ by lia.
    apply eq_sym, Z.land_spec.
Qed.

Lemma ctz_pos_nonneg (p : positive) : 0 <= ctz_pos p.
Proof. induction p; cbn [ctz_pos]; lia. Qed.

Lemma lowbit_pos (p : positive) :
  Z.land (Zpos p) (- Zpos p) = 2 ^ ctz_pos p /\
  Z.testbit (Zpos p) (ctz_pos p) = true.
Proof.
  induction p as [q IH|q IH|].
  - split.
    + change (Zpos q~1) with (2 * Zpos q + 1). apply land_neg_odd.
    + reflexivity.
  - destruct IH as [IH1 IH2]. split.
    + change (Zpos q~0) with (2 * Zpos q). rewrite land_neg_even, IH1.
      cbn [ctz_pos]. rewrite Z.pow_add_r by (pose proof (ctz_pos_nonneg q); lia).
      reflexivity.
    + cbn [ctz_pos]. change (Zpos q~0) with (2 * Zpos q).
      replace (1 + ctz_pos q) with (Z.succ (ctz_pos q)) by lia.
      rewrite Z.testbit_even_succ by apply ctz_pos_nonneg. exact IH2.
  - split; reflexivity.
Qed.

Lemma ctzll_pow2 (k : Z) : 0 <= k -> ctzll (2 ^ k) = k.
Proof.
  intros Hk. pattern k. apply natlike_ind; [reflexivity| |exact Hk].
  clear k Hk. intros k Hk IH.
  rewrite Z.pow_succ_r by lia.
  assert (Hp : 0 < 2 ^ k) by (apply Z.pow_pos_nonneg; lia).
  destruct (2 ^ k) as [|p|p] eqn:E; try lia.
  change (2 * Z.pos p) with (Z.pos p~0).
  cbn [ctzll ctz_pos] in *. lia.
Qed.

Lemma land_neg64 (q : Z) :
  0 <= q < 2 ^ 64 -> Z.land q (neg64 q) = Z.land q (- q).
Proof.
  intros Hq. apply Z.bits_inj'. intros n Hn.
  rewrite !Z.land_spec. unfold neg64. rewrite modulus_eq.
  destruct (Z.ltb_spec n 64).
  - rewrite Z.mod_pow2_bits_low by lia. reflexivity.
  - rewrite (testbit_small q 64) by lia. reflexivity.
Qed.

(** [q & -q] is the single bit [2 ^ k] at the least index [k] set in [q], and
    [__builtin_ctzll] returns that index. *)
Lemma lowbit (q : Z) :
  0 < q < 2 ^ 64 ->
  exists k, 0 <= k /\
    Z.land q (neg64 q) = 2 ^ k /\
    ctzll (Z.land q (neg64 q)) = k /\
    Z.testbit q k = true /\
    (forall j, 0 <= j < k -> Z.testbit q j = false).
Proof.
  intros Hq. rewrite land_neg64 by lia.
  destruct q as [|p|p]; try lia.
  destruct (lowbit_pos p) as [H1 H2].
  exists (ctz_pos p). pose proof (ctz_pos_nonneg p) as H0.
  rewrite H1. repeat split; auto using ctzll_pow2.
  intros j Hj.
  assert (Hb : Z.testbit (Z.land (Zpos p) (- Zpos p)) j = false).
  { rewrite H1, Z.pow2_bits_eqb by lia. apply Z.eqb_neq. lia. }
  clear H1 H2 Hq H0. revert j Hj Hb.
  induction p as [q IH|q IH|]; intros j Hj Hb; cbn [ctz_pos] in Hj; try lia.
  destruct (Z.eq_dec j 0) as [->|Hne]; [reflexivity|].
  change (Zpos q~0) with (2 * Zpos q) in *.
  rewrite land_neg_even in Hb.
  replace j with (Z.succ (j - 1)) in * by lia.
  rewrite Z.testbit_even_succ in * by lia.
  apply IH; [lia|exact Hb].
Qed.

Lemma sub_pow2_spec (q k j : Z) :
  0 <= k -> Z.testbit q k = true ->
  Z.testbit (q - 2 ^ k) j = Z.testbit q j && negb (k =? j).
Proof.
  intros Hk Hb.
  rewrite Z.sub_nocarry_ldiff.
  - rewrite Z.ldiff_spec.
    destruct (Z.ltb_spec j 0).
    + rewrite !Z.testbit_neg_r by lia. reflexivity.
    + rewrite Z.pow2_bits_eqb by lia. reflexivity.
  - apply Z.bits_inj'. intros n Hn.
    rewrite Z.ldiff_spec, Z.pow2_bits_eqb, Z.bits_0 by lia.
    destruct (Z.eqb_spec k n); subst; [rewrite Hb|]; reflexivity.
Qed.

Lemma sub_pow2_nonneg (q k : Z) :
  0 <= q -> 0 <= k -> Z.testbit q k = true -> 0 <= q - 2 ^ k < q.
Proof.
  intros Hq Hk Hb. split.
  - rewrite Z.sub_nocarry_ldiff.
    + apply Z.ldiff_nonneg. lia.
    + apply Z.bits_inj'. intros n Hn.
      rewrite Z.ldiff_spec, Z.pow2_bits_eqb, Z.bits_0 by lia.
      destruct (Z.eqb_spec k n); subst; [rewrite Hb|]; reflexivity.
  - assert (0 < 2 ^ k) by (apply Z.pow_pos_nonneg; lia). lia.
Qed.

Lemma bits_below (q n : Z) :
  0 <= q -> 0 <= n ->
  (forall j, 0 <= j -> Z.testbit q j = true -> j < n) -> q < 2 ^ n.
Proof.
  intros Hq Hn Hb.
  destruct (Z.eq_dec q 0) as [->|Hne].
  - apply Z.pow_pos_nonneg; lia.
  - apply Z.log2_lt_pow2; [lia|].
    apply Hb; [apply Z.log2_nonneg|apply Z.bit_log2; lia].
Qed.

Lemma limit_ones (n one : Z) :
  shl_one n = Ok one -> 0 <= n < 64 /\ (one - 1) mod modulus = Z.ones n.
Proof.
  unfold shl_one, wordsize. intros H.
  destruct (Z.leb_spec 0 n); destruct (Z.ltb_spec n 64);
    cbn [andb] in H; try discriminate.
  injection H as <-. split; [lia|].
  rewrite Z.ones_equiv, Z.shiftl_mul_pow2, Z.mul_1_l by lia.
  rewrite modulus_eq. apply Z.mod_small.
  assert (0 < 2 ^ n) by (apply Z.pow_pos_nonneg; lia).
  assert (2 ^ n < 2 ^ 64) by (apply Z.pow_lt_mono_r; lia).
  lia.
Qed.

Lemma shl_one_ok (n : Z) : 0 <= n < 64 -> shl_one n = Ok (2 ^ n).
Proof.
  intros H. unfold shl_one, wordsize.
  destruct (Z.leb_spec 0 n); destruct (Z.ltb_spec n 64); try lia.
  cbn [andb]. rewrite Z.shiftl_mul_pow2, Z.mul_1_l by lia. reflexivity.
Qed.

(** ** Counting set bits *)

Lemma count_flip (f g : nat -> bool) (k : nat) (l : list nat) :
  NoDup l -> In k l -> f k = false -> g k = true ->
  (forall i, i <> k -> g i = f i) ->
  length (filter g l) = S (length (filter f l)).
Proof.
  intros ND Hin Hf Hg Hfg.
  induction l as [|a l IH]; [destruct Hin|].
  inversion ND as [|? ? Hnotin ND']; subst.
  destruct Hin as [->|Hin].
  - cbn [filter]. rewrite Hf, Hg. cbn [length]. f_equal. f_equal.
    apply filter_ext_in. intros i Hi. apply Hfg. intros ->. contradiction.
  - assert (a <> k) by (intros ->; contradiction).
    cbn [filter]. rewrite (Hfg a) by assumption.
    destruct (f a); cbn [length]; rewrite IH; auto.
Qed.

Lemma count_le (f g : nat -> bool) (l : list nat) :
  (forall i, f i = true -> g i = true) ->
  (length (filter f l) <= length (filter g l))%nat.
Proof.
  intros Hfg. induction l as [|a l IH]; [apply le_n|].
  cbn [filter]. destruct (f a) eqn:Ef.
  - rewrite (Hfg a Ef). cbn [length]. lia.
  - destruct (g a); cbn [length]; lia.
Qed.

Lemma popcount_set (c k : Z) :
  0 <= k < 64 -> Z.testbit c k = false ->
  popcount (Z.lor c (2 ^ k)) = S (popcount c).
Proof.
  intros Hk Hb. unfold popcount.
  apply count_flip with (k := Z.to_nat k).
  - apply seq_NoDup.
  - apply in_seq. lia.
  - rewrite Z2Nat.id by lia. exact Hb.
  - rewrite Z2Nat.id, lor_pow2_spec, Z.eqb_refl by lia. apply orb_true_r.
  - intros i Hi. rewrite lor_pow2_spec by lia.
    destruct (Z.eqb_spec k (Z.of_nat i)); [lia|apply orb_false_r].
Qed.

Lemma popcount_ones (n : Z) : 0 <= n < 64 -> popcount (Z.ones n) = Z.to_nat n.
Proof.
  intros Hn.
  assert (H : exists m : nat, (m < 64)%nat /\ n = Z.of_nat m)
    by (exists (Z.to_nat n); lia).
  destruct H as (m & Hm & ->). rewrite Nat2Z.id.
  do 64 (destruct m as [|m]; [vm_compute; reflexivity|]). lia.
Qed.

Lemma popcount_0 : popcount 0 = 0%nat.
Proof. reflexivity. Qed.

(** ** The masks describe the placement *)

Lemma avail_start (n c l r : Z) :
  0 <= n < 64 ->
  avail n c l r (Z.land (not64 (Z.lor (Z.lor c l) r)) (Z.ones n)).
Proof.
  intros Hn. split.
  - apply Z.land_nonneg. right. rewrite Z.ones_equiv.
    assert (0 < 2 ^ n) by (apply Z.pow_pos_nonneg; lia). lia.
  - intros j Hj Hb. rewrite Z.land_spec in Hb.
    apply andb_true_iff in Hb. destruct Hb as [Hb1 Hb2].
    apply Z.ones_spec_iff in Hb2; [|lia].
    rewrite not64_spec, !Z.lor_spec in Hb1 by lia.
    apply negb_true_iff in Hb1.
    apply orb_false_iff in Hb1. destruct Hb1 as [Hb1 Hr].
    apply orb_false_iff in Hb1. destruct Hb1 as [Hc Hl].
    repeat split; auto; lia.
Qed.

Lemma avail_lt (n c l r q : Z) :
  0 <= n <= 64 -> avail n c l r q -> q < 2 ^ 64.
Proof.
  intros Hn [Hq Hb]. apply bits_below; [lia|lia|].
  intros j Hj Hj'. destruct (Hb j Hj Hj'). lia.
Qed.

Lemma avail_next (n c l r q k : Z) :
  avail n c l r q -> 0 <= k -> Z.testbit q k = true ->
  avail n c l r (q - 2 ^ k).
Proof.
  intros [Hq Hb] Hk Hqk. split.
  - apply sub_pow2_nonneg; auto.
  - intros j Hj Hj'. rewrite sub_pow2_spec in Hj' by auto.
    apply andb_true_iff in Hj'. destruct Hj' as [Hj' _]. auto.
Qed.

Lemma Inv_empty (n : Z) : Inv n 0 0 0 [].
Proof.
  constructor.
  - constructor.
  - intros i j Hij. cbn [length] in Hij. lia.
  - reflexivity.
  - intros j Hj. rewrite Z.bits_0. split; [discriminate|intros []].
  - intros j Hj. rewrite Z.bits_0. split; [discriminate|].
    intros (i & Hi & _). cbn [length] in Hi. lia.
  - intros j Hj. rewrite Z.bits_0. split; [discriminate|].
    intros (i & Hi & _). cbn [length] in Hi. lia.
Qed.

Lemma nth_snoc_old (p : list Z) (x : Z) (i : nat) :
  (i < length p)%nat -> nth i (p ++ [x]) 0 = nth i p 0.
Proof. intros H. apply app_nth1. exact H. Qed.

Lemma nth_snoc_new (p : list Z) (x : Z) : nth (length p) (p ++ [x]) 0 = x.
Proof. rewrite app_nth2, Nat.sub_diag by lia. reflexivity. Qed.

Lemma nth_range (n : Z) (p : list Z) (i : nat) :
  Forall (fun x => 1 <= x <= n) p -> (i < length p)%nat -> 1 <= nth i p 0 <= n.
Proof.
  intros HF Hi. rewrite Forall_forall in HF. apply HF. apply nth_In. exact Hi.
Qed.

Lemma Inv_step (n c l r : Z) (p : list Z) (k : Z) :
  0 <= n < 64 -> Inv n c l r p -> 0 <= k < n ->
  Z.testbit c k = false -> Z.testbit l k = false -> Z.testbit r k = false ->
  Inv n (Z.lor c (2 ^ k)) (shl1 (Z.lor l (2 ^ k))) (shr1 (Z.lor r (2 ^ k)))
      (p ++ [k + 1]).
Proof.
  intros Hn [Hrange Hsafe Hpop Hc Hl Hr] Hk Hck Hlk Hrk.
  assert (Hrange' : Forall (fun x => 1 <= x <= n) (p ++ [k + 1])).
  { apply Forall_app. split; [exact Hrange|]. constructor; [lia|constructor]. }
  constructor.
  - exact Hrange'.
  - intros i j Hij. rewrite length_app in Hij. cbn [length] in Hij.
    destruct (Nat.eq_dec j (length p)) as [->|Hj].
    + rewrite nth_snoc_new, nth_snoc_old by lia.
      pose proof (nth_range n p i Hrange) as Hi.
      split.
      * intros E.
        assert (Hin : In (k + 1) p) by (rewrite <- E; apply nth_In; lia).
        apply Hc in Hin; [congruence|lia].
      * intros E.
        destruct (Z.abs_spec (nth i p 0 - (k + 1))) as [[_ Ha]|[_ Ha]];
          rewrite Ha in E.
        -- assert (Z.testbit r k = true); [|congruence].
           apply Hr; [lia|]. exists i. split; [lia|lia].
        -- assert (Z.testbit l k = true); [|congruence].
           apply Hl; [lia|]. exists i. split; [lia|lia].
    + rewrite !nth_snoc_old by lia. apply Hsafe. lia.
  - rewrite length_app, popcount_set, Hpop by (auto; lia).
    cbn [length]. lia.
  - intros j Hj. rewrite lor_pow2_spec, in_app_iff by lia. split.
    + intros H. apply orb_true_iff in H. destruct H as [H|H].
      * left. apply Hc; auto.
      * right. left. apply Z.eqb_eq in H. lia.
    + intros [H|[H|[]]]; apply orb_true_iff.
      * left. apply Hc; auto.
      * right. apply Z.eqb_eq. lia.
  - intros j Hj. rewrite shl1_spec, length_app by lia. cbn [length].
    destruct (Z.eq_dec j 0) as [->|Hj0].
    + rewrite Z.testbit_neg_r by lia. split; [discriminate|].
      intros (i & Hi & E). exfalso.
      rewrite ?length_app in Hi; cbn [length] in Hi.
      pose proof (nth_range n _ i Hrange') as Hx.
      rewrite ?length_app in Hx; cbn [length] in Hx. lia.
    + rewrite lor_pow2_spec by lia. split.
      * intros H. apply orb_true_iff in H. destruct H as [H|H].
        -- apply Hl in H; [|lia]. destruct H as (i & Hi & E).
           exists i. rewrite ?length_app, nth_snoc_old by lia.
           cbn [length]. split; lia.
        -- apply Z.eqb_eq in H. exists (length p).
           rewrite ?length_app, nth_snoc_new. cbn [length]. split; lia.
      * intros (i & Hi & E). rewrite ?length_app in Hi; cbn [length] in Hi.
        apply orb_true_iff.
        destruct (Nat.eq_dec i (length p)) as [->|Hi'].
        -- right. rewrite nth_snoc_new in E. apply Z.eqb_eq. lia.
        -- left. rewrite nth_snoc_old in E by lia.
           apply Hl; [lia|]. exists i. split; lia.
  - intros j Hj. rewrite shr1_spec, lor_pow2_spec, length_app by lia.
    cbn [length]. split.
    + intros H. apply orb_true_iff in H. destruct H as [H|H].
      * apply Hr in H; [|lia]. destruct H as (i & Hi & E).
        exists i. rewrite ?length_app, nth_snoc_old by lia.
        cbn [length]. split; lia.
      * apply Z.eqb_eq in H. exists (length p).
        rewrite ?length_app, nth_snoc_new. cbn [length]. split; lia.
    + intros (i & Hi & E). rewrite ?length_app in Hi; cbn [length] in Hi.
      apply orb_true_iff.
      destruct (Nat.eq_dec i (length p)) as [->|Hi'].
      * right. rewrite nth_snoc_new in E. apply Z.eqb_eq. lia.
      * left. rewrite nth_snoc_old in E by lia.
        apply Hr; [lia|]. exists i. split; lia.
Qed.

(** One turn of the [while] loop: the bit picked is a free column, the masks
    passed down describe the longer placement, and the candidates left are
    fewer and still free. *)
Lemma loop_step (n c l r q : Z) (p : list Z) :
  0 <= n < 64 -> Inv n c l r p -> avail n c l r q -> q <> 0 ->
  let bit := Z.land q (neg64 q) in
  Inv n (Z.lor c bit) (shl1 (Z.lor l bit)) (shr1 (Z.lor r bit))
      (p ++ [ctzll bit + 1]) /\
  avail n c l r (q - bit) /\
  0 <= q - bit < q.
Proof.
  intros Hn HI Ha Hq bit.
  assert (Hlt : q < 2 ^ 64) by (apply (avail_lt n c l r); [lia|exact Ha]).
  destruct (lowbit q) as (k & Hk & Hbit & Hctz & Hqk & _).
  { destruct Ha as [H0 _]. lia. }
  subst bit. rewrite Hctz, Hbit.
  destruct (proj2 Ha k Hk Hqk) as (Hkn & Hc & Hl & Hr).
  split; [|split].
  - apply Inv_step; auto; lia.
  - apply avail_next; auto.
  - apply sub_pow2_nonneg; auto. apply Ha.
Qed.

Lemma Inv_length_le (n c l r : Z) (p : list Z) :
  0 <= n < 64 -> Inv n c l r p -> (length p <= Z.to_nat n)%nat.
Proof.
  intros Hn HI. rewrite (inv_pop HI), <- (popcount_ones n) by exact Hn.
  apply count_le. intros i Hi.
  apply Z.ones_spec_iff; [lia|].
  apply (inv_cols HI) in Hi; [|lia].
  pose proof (inv_range HI) as HF. rewrite Forall_forall in HF.
  apply HF in Hi. lia.
Qed.

Lemma safe_valid (n : Z) (p : list Z) :
  length p = Z.to_nat n -> Forall (fun x => 1 <= x <= n) p -> safe p ->
  valid_solution n p.
Proof.
  intros Hlen HF Hs. split; [exact Hlen|]. split; [exact HF|].
  intros i j Hi Hj Hij.
  destruct (Nat.lt_ge_cases i j) as [H|H].
  - destruct (Hs i j) as [H1 H2]; [lia|]. split; [exact H1|lia].
  - destruct (Hs j i) as [H1 H2]; [lia|]. split; [congruence|lia].
Qed.

Lemma Inv_full (n l r : Z) (p : list Z) :
  0 <= n < 64 -> Inv n (Z.ones n) l r p ->
  read_row n p = Ok p /\ valid_solution n p.
Proof.
  intros Hn HI.
  assert (Hlen : length p = Z.to_nat n)
    by (rewrite (inv_pop HI); apply popcount_ones; exact Hn).
  split.
  - unfold read_row. destruct (Z.ltb_spec (Z.of_nat (length p)) n); [lia|].
    rewrite <- Hlen, firstn_all. reflexivity.
  - apply safe_valid; [exact Hlen|apply (inv_range HI)|apply (inv_safe HI)].
Qed.

Lemma nth_mirror (n : Z) (s : list Z) (i : nat) :
  (i < length s)%nat -> nth i (mirror n s) 0 = n + 1 - nth i s 0.
Proof.
  intros Hi. unfold mirror.
  rewrite (nth_indep _ 0 (n + 1 - 0)) by (rewrite length_map; exact Hi).
  apply (map_nth (fun x => n + 1 - x)).
Qed.

Lemma mirror_valid (n : Z) (s : list Z) :
  valid_solution n s -> valid_solution n (mirror n s).
Proof.
  intros (Hlen & HF & Hs). unfold valid_solution.
  assert (Hl : length (mirror n s) = length s) by apply length_map.
  rewrite Hl. split; [exact Hlen|]. split.
  - unfold mirror. apply Forall_map. revert HF. apply Forall_impl.
    intros x Hx. lia.
  - intros i j Hi Hj Hij. rewrite !nth_mirror by assumption.
    destruct (Hs i j Hi Hj Hij) as [H1 H2]. split; lia.
Qed.

Lemma read_row_mirror (n : Z) (p r : list Z) :
  read_row n p = Ok r -> read_row n (mirror n p) = Ok (mirror n r).
Proof.
  unfold read_row, mirror. rewrite length_map.
  destruct (Z.of_nat (length p) <? n); [discriminate|].
  intros H. injection H as <-. rewrite firstn_map. reflexivity.
Qed.

(** ** Bookkeeping on states *)

Lemma extends_grows g P st st' :
  extends g P st st' <-> path st' = path st /\ grows g P st st'.
Proof. reflexivity. Qed.

Lemma grows_refl g P st : grows g P st st.
Proof.
  exists [], []. cbn [flat_map length app].
  rewrite app_nil_r, Z.add_0_r. repeat split; constructor.
Qed.

Lemma grows_trans g P st1 st2 st3 :
  grows g P st1 st2 -> grows g P st2 st3 -> grows g P st1 st3.
Proof.
  intros (s1 & e1 & Ht1 & HP1 & Hc1 & He1 & Hg1)
         (s2 & e2 & Ht2 & HP2 & Hc2 & He2 & Hg2).
  exists (s1 ++ s2), (e2 ++ e1).
  rewrite flat_map_app, length_app, Ht2, Ht1, Hc2, Hc1, He2, He1, !app_assoc.
  repeat split; try (apply Forall_app; split; assumption). lia.
Qed.

Lemma grows_weaken g (P P' : list Z -> Prop) st st' :
  (forall s, P s -> P' s) -> grows g P st st' -> grows g P' st st'.
Proof.
  intros HPP (s & e & Ht & HP & Hc & He & Hg).
  exists s, e. repeat split; auto. revert HP. apply Forall_impl. exact HPP.
Qed.

Lemma grows_path_l g P p st st' :
  grows g P (set_path p st) st' <-> grows g P st st'.
Proof. reflexivity. Qed.

Lemma grows_path_r g P p st st' :
  grows g P st (set_path p st') <-> grows g P st st'.
Proof. reflexivity. Qed.

Lemma grows_stop_r g P b st st' :
  grows g P st (set_stop b st') <-> grows g P st st'.
Proof. reflexivity. Qed.

Lemma grows_log g P e st st' :
  good_event e -> grows g P st st' -> grows g P st (log e st').
Proof.
  intros He (s & evs & Ht & HP & Hc & Htr & Hg).
  exists s, (e :: evs). cbn [log tempFile solutionCount trace].
  rewrite Htr. repeat split; auto.
Qed.

Lemma grows_log_l g P e st st' :
  good_event e -> grows g P (log e st) st' -> grows g P st st'.
Proof.
  intros He (s & evs & Ht & HP & Hc & Htr & Hg).
  exists s, (evs ++ [e]). cbn [log tempFile solutionCount trace] in *.
  rewrite <- app_assoc. repeat split; auto.
  apply Forall_app. split; [exact Hg|constructor; [exact He|constructor]].
Qed.

Lemma grows_emit1 (P : list Z -> Prop) s st :
  P s -> grows single P st (emit s (set_count (solutionCount st + 1) st)).
Proof.
  intros HP. exists [s], []. cbn. repeat split; auto.
Qed.

Lemma grows_emit2 n (P : list Z -> Prop) s st :
  P s ->
  let st1 := emit s (set_count (solutionCount st + 1) st) in
  grows (twin n) P st
        (emit (mirror n s) (set_count (solutionCount st1 + 1) st1)).
Proof.
  intros HP. exists [s], []. cbn. rewrite <- app_assoc.
  repeat split; auto. lia.
Qed.

Lemma completes_snoc n p x s : completes n (p ++ [x]) s -> completes n p s.
Proof.
  intros [Hv [t ->]]. split; [exact Hv|].
  exists ([x] ++ t). apply eq_sym, app_assoc.
Qed.

Lemma completes_self n p : valid_solution n p -> completes n p p.
Proof. intros H. split; [exact H|]. exists []. apply eq_sym, app_nil_r. Qed.

(** ** src/solver.cpp: the search *)

Module SolverFacts.
Import Solver.

Section Engine.

Variables n LIMIT : Z.

Lemma solve_S fuel cols diagLeft diagRight st :
  solve n LIMIT (S fuel) cols diagLeft diagRight st =
  let st := log (Enter cols (path st)) st in
  if stopSearch st then Ok st
  else if cols =? LIMIT then
    let st := set_count (solutionCount st + 1) st in
    st <- printSolution n (path st) st ;;
    if (n >=? FIND_ALL_LIMIT) && (solutionCount st >=? MAX_SOLUTIONS_LARGE_N)
    then Ok (set_stop true st)
    else Ok st
  else
    let possible := Z.land (not64 (Z.lor (Z.lor cols diagLeft) diagRight)) LIMIT in
    solve_while n LIMIT fuel possible cols diagLeft diagRight st.
Proof. reflexivity. Qed.

Lemma solve_while_S fuel possible cols diagLeft diagRight st :
  solve_while n LIMIT (S fuel) possible cols diagLeft diagRight st =
  if possible =? 0 then Ok st
  else if stopSearch st then Ok st
  else
    let bit := Z.land possible (neg64 possible) in
    let possible := possible - bit in
    let column := ctzll bit in
    let st := push_back (column + 1) st in
    st <- solve n LIMIT fuel (Z.lor cols bit)
                (shl1 (Z.lor diagLeft bit))
                (shr1 (Z.lor diagRight bit)) st ;;
    let st := pop_back st in
    let st := log (Undone cols (path st)) st in
    solve_while n LIMIT fuel possible cols diagLeft diagRight st.
Proof. reflexivity. Qed.

Lemma symmetricSolve_S fuel c l r st :
  symmetricSolve n LIMIT (S fuel) c l r st =
  let st := log (Enter c (path st)) st in
  if c =? LIMIT then
    let st := set_count (solutionCount st + 1) st in
    st <- printSolution n (path st) st ;;
    let st := set_count (solutionCount st + 1) st in
    printMirrorSolution n (path st) st
  else
    let p := Z.land (not64 (Z.lor (Z.lor c l) r)) LIMIT in
    symmetricSolve_while n LIMIT fuel p c l r st.
Proof. reflexivity. Qed.

Lemma symmetricSolve_while_S fuel p c l r st :
  symmetricSolve_while n LIMIT (S fuel) p c l r st =
  if p =? 0 then Ok st
  else
    let b := Z.land p (neg64 p) in
    let p := p - b in
    let st := push_back (ctzll b + 1) st in
    st <- symmetricSolve n LIMIT fuel (Z.lor c b) (shl1 (Z.lor l b))
                         (shr1 (Z.lor r b)) st ;;
    let st := pop_back st in
    let st := log (Undone c (path st)) st in
    symmetricSolve_while n LIMIT fuel p c l r st.
Proof. reflexivity. Qed.

(** More fuel never changes a result. *)
Lemma solve_mono fuel :
  (forall c l r st st',
      solve n LIMIT fuel c l r st = Ok st' ->
      forall fuel', (fuel <= fuel')%nat -> solve n LIMIT fuel' c l r st = Ok st') /\
  (forall q c l r st st',
      solve_while n LIMIT fuel q c l r st = Ok st' ->
      forall fuel', (fuel <= fuel')%nat ->
        solve_while n LIMIT fuel' q c l r st = Ok st').
Proof.
  induction fuel as [|fuel [IHs IHw]]; split; try discriminate.
  - intros c l r st st' H [|fuel'] Hle; [lia|].
    rewrite solve_S in *. cbv zeta in *.
    destruct (stopSearch _); [exact H|].
    destruct (c =? LIMIT); [exact H|].
    apply IHw with (1 := H). lia.
  - intros q c l r st st' H [|fuel'] Hle; [lia|].
    rewrite solve_while_S in *. cbv zeta in *.
    destruct (q =? 0); [exact H|].
    destruct (stopSearch st); [exact H|].
    destruct (solve n LIMIT fuel _ _ _ _) as [st1| |] eqn:E1; try discriminate.
    rewrite (IHs _ _ _ _ _ E1 fuel') by lia.
    cbn [bind] in *. apply IHw with (1 := H). lia.
Qed.

Lemma symmetricSolve_mono fuel :
  (forall c l r st st',
      symmetricSolve n LIMIT fuel c l r st = Ok st' ->
      forall fuel', (fuel <= fuel')%nat ->
        symmetricSolve n LIMIT fuel' c l r st = Ok st') /\
  (forall q c l r st st',
      symmetricSolve_while n LIMIT fuel q c l r st = Ok st' ->
      forall fuel', (fuel <= fuel')%nat ->
        symmetricSolve_while n LIMIT fuel' q c l r st = Ok st').
Proof.
  induction fuel as [|fuel [IHs IHw]]; split; try discriminate.
  - intros c l r st st' H [|fuel'] Hle; [lia|].
    rewrite symmetricSolve_S in *. cbv zeta in *.
    destruct (c =? LIMIT); [exact H|].
    apply IHw with (1 := H). lia.
  - intros q c l r st st' H [|fuel'] Hle; [lia|].
    rewrite symmetricSolve_while_S in *. cbv zeta in *.
    destruct (q =? 0); [exact H|].
    destruct (symmetricSolve n LIMIT fuel _ _ _ _) as [st1| |] eqn:E1;
      try discriminate.
    rewrite (IHs _ _ _ _ _ E1 fuel') by lia.
    cbn [bind] in *. apply IHw with (1 := H). lia.
Qed.

(** The bound policy: on a large board the counter never passes the cap, and
    it reaches the cap only with the stop flag raised. *)
Lemma solve_capped fuel :
  n >= FIND_ALL_LIMIT ->
  (forall c l r st st',
      capped st -> solve n LIMIT fuel c l r st = Ok st' -> capped st') /\
  (forall q c l r st st',
      capped st -> solve_while n LIMIT fuel q c l r st = Ok st' -> capped st').
Proof.
  intros Hbig.
  induction fuel as [|fuel [IHs IHw]]; split; try discriminate.
  - intros c l r st st' Hcap H. rewrite solve_S in H. cbv zeta in H.
    cbn [log stopSearch] in H.
    destruct (stopSearch st) eqn:Es; [injection H as <-; exact Hcap|].
    destruct (c =? LIMIT).
    + unfold printSolution in H.
      destruct (read_row n _) as [row| |]; try discriminate.
      cbn [bind emit set_count log solutionCount] in H.
      destruct Hcap as [Hc1 Hc2]. specialize (Hc2 Es).
      unfold capped, MAX_SOLUTIONS_LARGE_N, FIND_ALL_LIMIT in *.
      destruct (Z.geb_spec n 21); [|lia].
      destruct (Z.geb_spec (solutionCount st + 1) 1000);
        cbn [andb] in H; injection H as <-;
        cbn [set_stop emit set_count log solutionCount stopSearch];
        (split; [lia|intros E; try discriminate E; lia]).
    + apply (IHw _ _ _ _ (log (Enter c (path st)) st) _ Hcap H).
  - intros q c l r st st' Hcap H. rewrite solve_while_S in H. cbv zeta in H.
    destruct (q =? 0); [injection H as <-; exact Hcap|].
    destruct (stopSearch st); [injection H as <-; exact Hcap|].
    destruct (solve n LIMIT fuel _ _ _ _) as [st1| |] eqn:E1; try discriminate.
    cbn [bind] in H.
    apply (IHs _ _ _ (push_back _ st)) in E1; [|exact Hcap].
    apply (IHw _ _ _ _ (log _ (pop_back st1)) _ E1 H).
Qed.

Hypothesis Hn : 0 <= n < 64.
Hypothesis HL : LIMIT = Z.ones n.

(** Every record the plain search writes completes the placement it was called
    with, and the placement vector is handed back unchanged. *)
Lemma solve_sound fuel :
  (forall c l r st st',
      Inv n c l r (path st) ->
      solve n LIMIT fuel c l r st = Ok st' ->
      extends single (completes n (path st)) st st') /\
  (forall q c l r st st',
      Inv n c l r (path st) -> avail n c l r q ->
      solve_while n LIMIT fuel q c l r st = Ok st' ->
      extends single (completes n (path st)) st st').
Proof.
  induction fuel as [|fuel [IHs IHw]]; split; try discriminate.
  - intros c l r st st' HI H. rewrite solve_S in H. cbv zeta in H.
    assert (Hev : good_event (Enter c (path st))) by apply (inv_pop HI).
    cbn [log stopSearch path solutionCount] in H.
    destruct (stopSearch st) eqn:Es.
    { injection H as <-. split; [reflexivity|].
      apply grows_log; [exact Hev|apply grows_refl]. }
    destruct (Z.eqb_spec c LIMIT) as [->|Hc].
    + rewrite HL in HI.
      destruct (Inv_full n l r (path st) Hn HI) as [Hrow Hval].
      unfold printSolution in H. cbn [set_count log path] in H.
      rewrite Hrow in H. cbn [bind] in H.
      assert (G : grows single (completes n (path st)) st
                    (emit (path st) (set_count (solutionCount st + 1)
                                       (log (Enter LIMIT (path st)) st)))).
      { apply grows_trans with (log (Enter LIMIT (path st)) st).
        - apply grows_log; [exact Hev|apply grows_refl].
        - apply (grows_emit1 (completes n (path st)) (path st)
                             (log (Enter LIMIT (path st)) st)).
          apply completes_self, Hval. }
      destruct (_ && _); injection H as <-; (split; [reflexivity|exact G]).
    + assert (Ha : avail n c l r
                (Z.land (not64 (Z.lor (Z.lor c l) r)) LIMIT))
        by (rewrite HL; apply avail_start; exact Hn).
      destruct (IHw _ c l r (log (Enter c (path st)) st) st' HI Ha H)
        as [Hp G].
      split; [exact Hp|].
      apply grows_trans with (log (Enter c (path st)) st); [|exact G].
      apply grows_log; [exact Hev|apply grows_refl].
  - intros q c l r st st' HI Ha H. rewrite solve_while_S in H. cbv zeta in H.
    destruct (Z.eqb_spec q 0) as [->|Hq].
    { injection H as <-. split; [reflexivity|apply grows_refl]. }
    destruct (stopSearch st) eqn:Es.
    { injection H as <-. split; [reflexivity|apply grows_refl]. }
    destruct (loop_step n c l r q (path st) Hn HI Ha Hq) as (HI' & Ha' & _).
    cbv zeta in HI', Ha'.
    destruct (solve n LIMIT fuel _ _ _ _) as [st1| |] eqn:E1; try discriminate.
    cbn [bind] in H.
    destruct (IHs _ _ _ (push_back _ st) st1 HI' E1) as [Hp1 G1].
    cbn [push_back set_path path] in Hp1, G1.
    assert (Hp2 : path (pop_back st1) = path st).
    { cbn [pop_back set_path path]. rewrite Hp1. apply removelast_last. }
    cbn [log path] in H. rewrite Hp2 in H.
    assert (HI2 : Inv n c l r (path (log (Undone c (path st)) (pop_back st1))))
      by (cbn [log path]; rewrite Hp2; exact HI).
    destruct (IHw _ c l r _ st' HI2 Ha' H) as [Hp3 G3].
    cbn [log path] in Hp3, G3. rewrite Hp2 in Hp3, G3.
    split; [exact Hp3|].
    apply grows_trans with (log (Undone c (path st)) (pop_back st1));
      [|exact G3].
    apply grows_log; [apply (inv_pop HI)|].
    exact (grows_weaken single _ _ st st1 (completes_snoc n (path st) _) G1).
Qed.

(** The symmetric search writes each placement it completes, then its mirror
    image. *)
Lemma symmetricSolve_sound fuel :
  (forall c l r st st',
      Inv n c l r (path st) ->
      symmetricSolve n LIMIT fuel c l r st = Ok st' ->
      extends (twin n) (completes n (path st)) st st') /\
  (forall q c l r st st',
      Inv n c l r (path st) -> avail n c l r q ->
      symmetricSolve_while n LIMIT fuel q c l r st = Ok st' ->
      extends (twin n) (completes n (path st)) st st').
Proof.
  induction fuel as [|fuel [IHs IHw]]; split; try discriminate.
  - intros c l r st st' HI H. rewrite symmetricSolve_S in H. cbv zeta in H.
    assert (Hev : good_event (Enter c (path st))) by apply (inv_pop HI).
    destruct (Z.eqb_spec c LIMIT) as [->|Hc].
    + rewrite HL in HI.
      destruct (Inv_full n l r (path st) Hn HI) as [Hrow Hval].
      unfold printSolution, printMirrorSolution in H.
      cbn [set_count log path] in H.
      rewrite Hrow in H. cbn [bind emit set_count log path] in H.
      rewrite Hrow in H. cbn [bind] in H.
      injection H as <-. split; [reflexivity|].
      apply grows_trans with (log (Enter LIMIT (path st)) st).
      * apply grows_log; [exact Hev|apply grows_refl].
      * apply (grows_emit2 n (completes n (path st)) (path st)
                           (log (Enter LIMIT (path st)) st)).
        apply completes_self, Hval.
    + assert (Ha : avail n c l r
                (Z.land (not64 (Z.lor (Z.lor c l) r)) LIMIT))
        by (rewrite HL; apply avail_start; exact Hn).
      destruct (IHw _ c l r (log (Enter c (path st)) st) st' HI Ha H)
        as [Hp G].
      split; [exact Hp|].
      apply grows_trans with (log (Enter c (path st)) st); [|exact G].
      apply grows_log; [exact Hev|apply grows_refl].
  - intros q c l r st st' HI Ha H.
    rewrite symmetricSolve_while_S in H. cbv zeta in H.
    destruct (Z.eqb_spec q 0) as [->|Hq].
    { injection H as <-. split; [reflexivity|apply grows_refl]. }
    destruct (loop_step n c l r q (path st) Hn HI Ha Hq) as (HI' & Ha' & _).
    cbv zeta in HI', Ha'.
    destruct (symmetricSolve n LIMIT fuel _ _ _ _) as [st1| |] eqn:E1;
      try discriminate.
    cbn [bind] in H.
    destruct (IHs _ _ _ (push_back _ st) st1 HI' E1) as [Hp1 G1].
    cbn [push_back set_path path] in Hp1, G1.
    assert (Hp2 : path (pop_back st1) = path st).
    { cbn [pop_back set_path path]. rewrite Hp1. apply removelast_last. }
    cbn [log path] in H. rewrite Hp2 in H.
    assert (HI2 : Inv n c l r (path (log (Undone c (path st)) (pop_back st1))))
      by (cbn [log path]; rewrite Hp2; exact HI).
    destruct (IHw _ c l r _ st' HI2 Ha' H) as [Hp3 G3].
    cbn [log path] in Hp3, G3. rewrite Hp2 in Hp3, G3.
    split; [exact Hp3|].
    apply grows_trans with (log (Undone c (path st)) (pop_back st1));
      [|exact G3].
    apply grows_log; [apply (inv_pop HI)|].
    exact (grows_weaken (twin n) _ _ st st1 (completes_snoc n (path st) _) G1).
Qed.

(** The search returns: the loop over the candidate columns of one row, given
    that the calls for the next row do. *)
Lemma solve_while_total (c l r : Z) (p : list Z) :
  Inv n c l r p ->
  (forall c' l' r' st1,
      Inv n c' l' r' (path st1) -> length (path st1) = S (length p) ->
      exists fuel st', solve n LIMIT fuel c' l' r' st1 = Ok st') ->
  forall q, 0 <= q -> forall st,
      path st = p -> avail n c l r q ->
      exists fuel st', solve_while n LIMIT fuel q c l r st = Ok st'.
Proof.
  intros HI Hrec q Hq0. pattern q. apply Zlt_0_ind; [|exact Hq0].
  clear q Hq0. intros q IH _ st Hp Ha. subst p.
  destruct (Z.eqb_spec q 0) as [->|Hq].
  { exists 1%nat, st. reflexivity. }
  destruct (stopSearch st) eqn:Es.
  { exists 1%nat, st. rewrite solve_while_S.
    apply Z.eqb_neq in Hq. rewrite Hq, Es. reflexivity. }
  destruct (loop_step n c l r q (path st) Hn HI Ha Hq) as (HI' & Ha' & Hlt).
  cbv zeta in HI', Ha', Hlt.
  destruct (Hrec _ _ _ (push_back (ctzll (Z.land q (neg64 q)) + 1) st) HI')
    as (f1 & st1 & E1).
  { cbn [push_back set_path path]. rewrite length_app. cbn [length]. lia. }
  destruct (proj1 (solve_sound f1) _ _ _ (push_back _ st) st1 HI' E1)
    as [Hp1 _].
  cbn [push_back set_path path] in Hp1.
  assert (Hp2 : path (pop_back st1) = path st).
  { cbn [pop_back set_path path]. rewrite Hp1. apply removelast_last. }
  destruct (IH (q - Z.land q (neg64 q)) Hlt
               (log (Undone c (path (pop_back st1))) (pop_back st1)))
    as (f2 & st' & E2); [exact Hp2|exact Ha'|].
  exists (S (Nat.max f1 f2)), st'.
  rewrite solve_while_S. cbv zeta.
  apply Z.eqb_neq in Hq. rewrite Hq, Es.
  rewrite (proj1 (solve_mono f1) _ _ _ _ _ E1 (Nat.max f1 f2)) by lia.
  cbn [bind].
  apply (proj2 (solve_mono f2) _ _ _ _ _ _ E2). lia.
Qed.

Lemma solve_total (d : nat) :
  forall c l r st,
    Inv n c l r (path st) ->
    (Z.to_nat n - length (path st) <= d)%nat ->
    exists fuel st', solve n LIMIT fuel c l r st = Ok st'.
Proof.
  assert (Hbody : forall c l r st,
    Inv n c l r (path st) ->
    (forall c' l' r' st1,
        Inv n c' l' r' (path st1) -> length (path st1) = S (length (path st)) ->
        exists fuel st', solve n LIMIT fuel c' l' r' st1 = Ok st') ->
    exists fuel st', solve n LIMIT fuel c l r st = Ok st').
  { intros c l r st HI Hrec.
    destruct (stopSearch st) eqn:Es.
    { exists 1%nat. eexists. rewrite solve_S. cbv zeta.
      cbn [log stopSearch]. rewrite Es. reflexivity. }
    destruct (Z.eqb_spec c LIMIT) as [Hc|Hc].
    - exists 1%nat. rewrite solve_S. cbv zeta.
      cbn [log stopSearch]. rewrite Es.
      apply Z.eqb_eq in Hc. rewrite Hc. apply Z.eqb_eq in Hc. subst c.
      rewrite HL in HI.
      destruct (Inv_full n l r (path st) Hn HI) as [Hrow _].
      unfold printSolution. cbn [set_count log path].
      rewrite Hrow. cbn [bind].
      destruct (_ && _); eexists; reflexivity.
    - destruct (solve_while_total c l r (path st) HI Hrec
                  (Z.land (not64 (Z.lor (Z.lor c l) r)) LIMIT))
        with (st := log (Enter c (path st)) st) as (f & st' & E).
      + rewrite HL. apply (avail_start n c l r Hn).
      + reflexivity.
      + rewrite HL. apply (avail_start n c l r Hn).
      + exists (S f), st'. rewrite solve_S. cbv zeta.
        cbn [log stopSearch]. rewrite Es.
        apply Z.eqb_neq in Hc. rewrite Hc. exact E. }
  induction d as [|d IH]; intros c l r st HI Hd; apply Hbody; auto;
    intros c' l' r' st1 HI1 Hlen;
    pose proof (Inv_length_le n c' l' r' (path st1) Hn HI1) as Hle.
  - lia.
  - apply IH; [exact HI1|lia].
Qed.

Lemma symmetricSolve_while_total (c l r : Z) (p : list Z) :
  Inv n c l r p ->
  (forall c' l' r' st1,
      Inv n c' l' r' (path st1) -> length (path st1) = S (length p) ->
      exists fuel st', symmetricSolve n LIMIT fuel c' l' r' st1 = Ok st') ->
  forall q, 0 <= q -> forall st,
      path st = p -> avail n c l r q ->
      exists fuel st', symmetricSolve_while n LIMIT fuel q c l r st = Ok st'.
Proof.
  intros HI Hrec q Hq0. pattern q. apply Zlt_0_ind; [|exact Hq0].
  clear q Hq0. intros q IH _ st Hp Ha. subst p.
  destruct (Z.eqb_spec q 0) as [->|Hq].
  { exists 1%nat, st. reflexivity. }
  destruct (loop_step n c l r q (path st) Hn HI Ha Hq) as (HI' & Ha' & Hlt).
  cbv zeta in HI', Ha', Hlt.
  destruct (Hrec _ _ _ (push_back (ctzll (Z.land q (neg64 q)) + 1) st) HI')
    as (f1 & st1 & E1).
  { cbn [push_back set_path path]. rewrite length_app. cbn [length]. lia. }
  destruct (proj1 (symmetricSolve_sound f1) _ _ _ (push_back _ st) st1 HI' E1)
    as [Hp1 _].
  cbn [push_back set_path path] in Hp1.
  assert (Hp2 : path (pop_back st1) = path st).
  { cbn [pop_back set_path path]. rewrite Hp1. apply removelast_last. }
  destruct (IH (q - Z.land q (neg64 q)) Hlt
               (log (Undone c (path (pop_back st1))) (pop_back st1)))
    as (f2 & st' & E2); [exact Hp2|exact Ha'|].
  exists (S (Nat.max f1 f2)), st'.
  rewrite symmetricSolve_while_S. cbv zeta.
  apply Z.eqb_neq in Hq. rewrite Hq.
  rewrite (proj1 (symmetricSolve_mono f1) _ _ _ _ _ E1 (Nat.max f1 f2)) by lia.
  cbn [bind].
  apply (proj2 (symmetricSolve_mono f2) _ _ _ _ _ _ E2). lia.
Qed.

Lemma symmetricSolve_total (d : nat) :
  forall c l r st,
    Inv n c l r (path st) ->
    (Z.to_nat n - length (path st) <= d)%nat ->
    exists fuel st', symmetricSolve n LIMIT fuel c l r st = Ok st'.
Proof.
  assert (Hbody : forall c l r st,
    Inv n c l r (path st) ->
    (forall c' l' r' st1,
        Inv n c' l' r' (path st1) -> length (path st1) = S (length (path st)) ->
        exists fuel st', symmetricSolve n LIMIT fuel c' l' r' st1 = Ok st') ->
    exists fuel st', symmetricSolve n LIMIT fuel c l r st = Ok st').
  { intros c l r st HI Hrec.
    destruct (Z.eqb_spec c LIMIT) as [Hc|Hc].
    - exists 1%nat. eexists. rewrite symmetricSolve_S. cbv zeta.
      apply Z.eqb_eq in Hc. rewrite Hc. apply Z.eqb_eq in Hc. subst c.
      rewrite HL in HI.
      destruct (Inv_full n l r (path st) Hn HI) as [Hrow _].
      unfold printSolution, printMirrorSolution. cbn [set_count log path].
      rewrite Hrow. cbn [bind emit set_count log path].
      rewrite Hrow. reflexivity.
    - destruct (symmetricSolve_while_total c l r (path st) HI Hrec
                  (Z.land (not64 (Z.lor (Z.lor c l) r)) LIMIT))
        with (st := log (Enter c (path st)) st) as (f & st' & E).
      + rewrite HL. apply (avail_start n c l r Hn).
      + reflexivity.
      + rewrite HL. apply (avail_start n c l r Hn).
      + exists (S f), st'. rewrite symmetricSolve_S. cbv zeta.
        apply Z.eqb_neq in Hc. rewrite Hc. exact E. }
  induction d as [|d IH]; intros c l r st HI Hd; apply Hbody; auto;
    intros c' l' r' st1 HI1 Hlen;
    pose proof (Inv_length_le n c' l' r' (path st1) Hn HI1) as Hle.
  - lia.
  - apply IH; [exact HI1|lia].
Qed.

Lemma firstHalf_mono fuel todo :
  forall col st st',
    firstHalf n LIMIT fuel todo col st = Ok st' ->
    forall fuel', (fuel <= fuel')%nat ->
      firstHalf n LIMIT fuel' todo col st = Ok st'.
Proof.
  induction todo as [|todo IH]; intros col st st' H fuel' Hle; [exact H|].
  cbn [firstHalf] in *.
  destruct (shl_one col) as [bit| |]; try discriminate. cbn [bind] in *.
  destruct (symmetricSolve n LIMIT fuel _ _ _ _) as [st1| |] eqn:E1;
    try discriminate.
  rewrite (proj1 (symmetricSolve_mono fuel) _ _ _ _ _ E1 fuel' Hle).
  cbn [bind] in *. apply IH with (1 := H). exact Hle.
Qed.

Lemma Inv_first (k : Z) :
  0 <= k < n -> Inv n (2 ^ k) (shl1 (2 ^ k)) (shr1 (2 ^ k)) [k + 1].
Proof.
  intros Hk.
  pose proof (Inv_step n 0 0 0 [] k Hn (Inv_empty n) Hk
                (Z.bits_0 k) (Z.bits_0 k) (Z.bits_0 k)) as H.
  rewrite Z.lor_0_l in H. exact H.
Qed.

Lemma completes_hd (k : Z) (s : list Z) :
  completes n [k] s -> valid_solution n s /\ hd 0 s = k.
Proof. intros [Hv [t ->]]. split; [exact Hv|reflexivity]. Qed.

Lemma firstHalf_sound fuel todo :
  forall col st st',
    0 <= col -> col + Z.of_nat todo <= Z.quot n 2 -> path st = [] ->
    firstHalf n LIMIT fuel todo col st = Ok st' ->
    path st' = [] /\ grows (twin n) (left_half n) st st'.
Proof.
  assert (Hq : 2 * Z.quot n 2 <= n)
    by (rewrite Z.quot_div_nonneg by lia; apply Z.mul_div_le; lia).
  induction todo as [|todo IH]; intros col st st' Hcol Hhalf Hp H.
  { injection H as <-. split; [exact Hp|apply grows_refl]. }
  cbn [firstHalf] in H.
  rewrite shl_one_ok in H by lia. cbn [bind] in H.
  destruct (symmetricSolve n LIMIT fuel _ _ _ _) as [st1| |] eqn:E1;
    try discriminate.
  cbn [bind] in H.
  assert (HI : Inv n (2 ^ col) (shl1 (2 ^ col)) (shr1 (2 ^ col))
                 (path (push_back (col + 1) st))).
  { cbn [push_back set_path path]. rewrite Hp. apply Inv_first. lia. }
  destruct (proj1 (symmetricSolve_sound fuel) _ _ _ _ st1 HI E1) as [Hp1 G1].
  cbn [push_back set_path path] in Hp1, G1. rewrite Hp in Hp1, G1.
  assert (Hp2 : path (pop_back st1) = []).
  { cbn [pop_back set_path path]. rewrite Hp1. reflexivity. }
  destruct (IH (col + 1) (log (Undone 0 (path (pop_back st1))) (pop_back st1))
               st') as [Hp3 G3]; [lia|lia|exact Hp2|exact H|].
  split; [exact Hp3|].
  apply grows_trans with (log (Undone 0 (path (pop_back st1))) (pop_back st1));
    [|exact G3].
  apply grows_log; [rewrite Hp2; reflexivity|].
  refine (grows_weaken (twin n) _ _ st st1 _ G1).
  intros s Hs. apply completes_hd in Hs. destruct Hs as [Hv Hh].
  split; [exact Hv|lia].
Qed.

Lemma firstHalf_total todo :
  forall col st,
    0 <= col -> col + Z.of_nat todo <= Z.quot n 2 -> path st = [] ->
    exists fuel st', firstHalf n LIMIT fuel todo col st = Ok st'.
Proof.
  assert (Hq : 2 * Z.quot n 2 <= n)
    by (rewrite Z.quot_div_nonneg by lia; apply Z.mul_div_le; lia).
  induction todo as [|todo IH]; intros col st Hcol Hhalf Hp.
  { exists 0%nat, st. reflexivity. }
  assert (HI : Inv n (2 ^ col) (shl1 (2 ^ col)) (shr1 (2 ^ col))
                 (path (push_back (col + 1) st))).
  { cbn [push_back set_path path]. rewrite Hp. apply Inv_first. lia. }
  destruct (symmetricSolve_total (Z.to_nat n) _ _ _ _ HI) as (f1 & st1 & E1);
    [lia|].
  destruct (proj1 (symmetricSolve_sound f1) _ _ _ _ st1 HI E1) as [Hp1 _].
  cbn [push_back set_path path] in Hp1. rewrite Hp in Hp1.
  assert (Hp2 : path (pop_back st1) = []).
  { cbn [pop_back set_path path]. rewrite Hp1. reflexivity. }
  destruct (IH (col + 1) (log (Undone 0 (path (pop_back st1))) (pop_back st1)))
    as (f2 & st' & E2); [lia|lia|exact Hp2|].
  exists (Nat.max f1 f2), st'.
  cbn [firstHalf]. rewrite shl_one_ok by lia. cbn [bind].
  rewrite (proj1 (symmetricSolve_mono f1) _ _ _ _ _ E1 (Nat.max f1 f2)) by lia.
  cbn [bind]. apply firstHalf_mono with (1 := E2). lia.
Qed.

Lemma half_facts :
  0 <= Z.quot n 2 /\ 2 * Z.quot n 2 <= n /\
  (Z.rem n 2 = 1 -> Z.quot n 2 < n).
Proof.
  rewrite Z.quot_div_nonneg, Z.rem_mod_nonneg by lia.
  pose proof (Z.div_mod n 2). pose proof (Z.mod_pos_bound n 2). lia.
Qed.

Lemma solveWithSymmetry_small fuel st st' :
  n < FIND_ALL_LIMIT ->
  solveWithSymmetry n LIMIT fuel st = Ok st' ->
  path st' = [] /\
  exists st1, grows (twin n) (left_half n) st st1 /\
              grows single (middle n) st1 st'.
Proof.
  intros Hsmall H. unfold solveWithSymmetry in H.
  destruct (Z.geb_spec n FIND_ALL_LIMIT); [lia|]. cbv zeta in H.
  destruct half_facts as (Hh0 & Hh1 & Hh2).
  destruct (firstHalf n LIMIT fuel _ _ _) as [st1| |] eqn:E1; try discriminate.
  cbn [bind] in H.
  destruct (firstHalf_sound fuel (Z.to_nat (Z.quot n 2)) 0 (set_path [] st) st1)
    as [Hp1 G1];
    [lia|lia|reflexivity|exact E1|].
  destruct (Z.eqb_spec (Z.rem n 2) 1) as [Hodd|Heven].
  - rewrite shl_one_ok in H by lia. cbn [bind] in H.
    destruct (solve n LIMIT fuel _ _ _ _) as [st2| |] eqn:E2; try discriminate.
    cbn [bind] in H. injection H as <-.
    assert (HI : Inv n (2 ^ Z.quot n 2) (shl1 (2 ^ Z.quot n 2))
                   (shr1 (2 ^ Z.quot n 2))
                   (path (push_back (Z.quot n 2 + 1) st1))).
    { cbn [push_back set_path path]. rewrite Hp1. apply Inv_first. lia. }
    destruct (proj1 (solve_sound fuel) _ _ _ _ st2 HI E2) as [Hp2 G2].
    cbn [push_back set_path path] in Hp2, G2. rewrite Hp1 in Hp2, G2.
    assert (Hp3 : path (pop_back st2) = []).
    { cbn [pop_back set_path path]. rewrite Hp2. reflexivity. }
    split; [exact Hp3|]. exists st1. split; [exact G1|].
    apply grows_log;
      [change (length (path (pop_back st2)) = popcount 0);
       rewrite Hp3; reflexivity|].
    refine (grows_weaken single _ _ st1 st2 _ G2).
    intros s Hs. apply completes_hd in Hs. exact Hs.
  - injection H as <-. split; [exact Hp1|].
    exists st1. split; [exact G1|apply grows_refl].
Qed.

Lemma solveWithSymmetry_large fuel st st' :
  n >= FIND_ALL_LIMIT ->
  solveWithSymmetry n LIMIT fuel st = Ok st' ->
  path st' = [] /\
  grows single (valid_solution n) st st' /\
  (capped st -> capped st').
Proof.
  intros Hbig H. unfold solveWithSymmetry in H.
  destruct (Z.geb_spec n FIND_ALL_LIMIT); [|lia].
  assert (HI : Inv n 0 0 0 (path (set_path [] st))) by apply Inv_empty.
  destruct (proj1 (solve_sound fuel) _ _ _ _ st' HI H) as [Hp G].
  split; [exact Hp|]. split.
  - refine (grows_weaken single _ _ st st' _ G). intros s [Hs _]. exact Hs.
  - intros Hcap.
    exact (proj1 (solve_capped fuel Hbig) _ _ _ (set_path [] st) st' Hcap H).
Qed.

Lemma solveWithSymmetry_mono fuel st st' :
  solveWithSymmetry n LIMIT fuel st = Ok st' ->
  forall fuel', (fuel <= fuel')%nat ->
    solveWithSymmetry n LIMIT fuel' st = Ok st'.
Proof.
  intros H fuel' Hle. unfold solveWithSymmetry in *.
  destruct (n >=? FIND_ALL_LIMIT).
  { apply (proj1 (solve_mono fuel) _ _ _ _ _ H). exact Hle. }
  cbv zeta in *.
  destruct (firstHalf n LIMIT fuel _ _ _) as [st1| |] eqn:E1; try discriminate.
  rewrite (firstHalf_mono _ _ _ _ _ E1 fuel' Hle). cbn [bind] in *.
  destruct (Z.rem n 2 =? 1); [|exact H].
  destruct (shl_one _) as [bit| |]; try discriminate. cbn [bind] in *.
  destruct (solve n LIMIT fuel _ _ _ _) as [st2| |] eqn:E2; try discriminate.
  rewrite (proj1 (solve_mono fuel) _ _ _ _ _ E2 fuel' Hle). exact H.
Qed.

Lemma solveWithSymmetry_total st :
  exists fuel st', solveWithSymmetry n LIMIT fuel st = Ok st'.
Proof.
  unfold solveWithSymmetry.
  destruct (n >=? FIND_ALL_LIMIT).
  { apply (solve_total (Z.to_nat n)); [apply Inv_empty|lia]. }
  cbv zeta. destruct half_facts as (Hh0 & Hh1 & Hh2).
  destruct (firstHalf_total (Z.to_nat (Z.quot n 2)) 0 (set_path [] st))
    as (f1 & st1 & E1); [lia|lia|reflexivity|].
  destruct (firstHalf_sound f1 (Z.to_nat (Z.quot n 2)) 0 (set_path [] st) st1)
    as [Hp1 _];
    [lia|lia|reflexivity|exact E1|].
  destruct (Z.eqb_spec (Z.rem n 2) 1) as [Hodd|Heven].
  - assert (HI : Inv n (2 ^ Z.quot n 2) (shl1 (2 ^ Z.quot n 2))
                   (shr1 (2 ^ Z.quot n 2))
                   (path (push_back (Z.quot n 2 + 1) st1))).
    { cbn [push_back set_path path]. rewrite Hp1. apply Inv_first. lia. }
    destruct (solve_total (Z.to_nat n) _ _ _ _ HI) as (f2 & st2 & E2); [lia|].
    exists (Nat.max f1 f2). eexists.
    rewrite (firstHalf_mono _ _ _ _ _ E1 (Nat.max f1 f2)) by lia.
    cbn [bind]. rewrite shl_one_ok by lia. cbn [bind].
    rewrite (proj1 (solve_mono f2) _ _ _ _ _ E2 (Nat.max f1 f2)) by lia.
    reflexivity.
  - exists f1, st1. rewrite E1. reflexivity.
Qed.

End Engine.

Lemma flat_map_single (l : list (list Z)) : flat_map single l = l.
Proof.
  induction l as [|a l IH]; [reflexivity|].
  cbn [flat_map single app]. rewrite IH. reflexivity.
Qed.

Lemma twin_valid n s : left_half n s -> Forall (valid_solution n) (twin n s).
Proof.
  intros [Hv _]. unfold twin.
  constructor; [exact Hv|]. constructor; [apply mirror_valid, Hv|constructor].
Qed.

Lemma flat_map_Forall {A B} (P : A -> Prop) (Q : B -> Prop) (g : A -> list B) l :
  (forall a, P a -> Forall Q (g a)) -> Forall P l -> Forall Q (flat_map g l).
Proof.
  intros Hg. induction 1 as [|a l Ha _ IH]; [constructor|].
  cbn [flat_map]. apply Forall_app. split; [apply Hg, Ha|exact IH].
Qed.

Lemma grows2_run n st1 st :
  grows (twin n) (left_half n) init_state st1 ->
  grows single (middle n) st1 st ->
  Forall (valid_solution n) (tempFile st) /\
  solutionCount st = Z.of_nat (length (tempFile st)) /\
  Forall good_event (trace st) /\
  twinned n (tempFile st).
Proof.
  intros (s1 & e1 & Ht1 & HP1 & Hc1 & He1 & Hg1)
         (s2 & e2 & Ht2 & HP2 & Hc2 & He2 & Hg2).
  cbn [init_state tempFile solutionCount trace app] in *.
  rewrite app_nil_r in He1. rewrite flat_map_single in *.
  rewrite Ht2, Ht1, Hc2, Hc1, He2, He1, length_app.
  repeat split.
  - apply Forall_app. split.
    + revert HP1. apply flat_map_Forall. apply twin_valid.
    + revert HP2. apply Forall_impl. intros s [Hv _]. exact Hv.
  - lia.
  - apply Forall_app. split; assumption.
  - exists s1, s2. repeat split; assumption.
Qed.

Lemma grows1_run n st :
  grows single (valid_solution n) init_state st ->
  Forall (valid_solution n) (tempFile st) /\
  solutionCount st = Z.of_nat (length (tempFile st)) /\
  Forall good_event (trace st).
Proof.
  intros (s1 & e1 & Ht1 & HP1 & Hc1 & He1 & Hg1).
  cbn [init_state tempFile solutionCount trace app] in *.
  rewrite app_nil_r in He1. rewrite flat_map_single in *.
  rewrite Ht1, Hc1, He1. repeat split; assumption.
Qed.

Lemma run_ok_init n : run_ok n init_state.
Proof. constructor; try constructor; reflexivity. Qed.

Lemma capped_init : capped init_state.
Proof. split; [|intros _]; cbn; unfold MAX_SOLUTIONS_LARGE_N; lia. Qed.

(** What a finished run of [main] leaves behind. *)
Lemma main_sound fuel tmp k o st :
  main fuel tmp (Parsed k) = Ok (o, st) ->
  run_ok k st /\
  (k < FIND_ALL_LIMIT -> twinned k (tempFile st)) /\
  (k >= FIND_ALL_LIMIT -> capped st) /\
  (o = NoSolution \/ o = TempFileError \/
   o = Summary k (solutionCount st) (tempFile st)).
Proof.
  unfold main. intros H.
  assert (Hinit : run_ok k init_state /\
    (k < FIND_ALL_LIMIT -> twinned k (tempFile init_state)) /\
    (k >= FIND_ALL_LIMIT -> capped init_state)).
  { split; [apply run_ok_init|]. split; intros _; [|apply capped_init].
    exists [], []. repeat split; constructor. }
  destruct ((k <? 4) && negb (k =? 1)).
  { injection H as <- <-. intuition. }
  destruct (shl_one k) as [one| |] eqn:E1; try discriminate.
  apply limit_ones in E1. destruct E1 as [Hk HL]. cbn [bind] in H.
  destruct tmp; cbn [negb] in H; [|injection H as <- <-; intuition].
  destruct (solveWithSymmetry k _ fuel init_state) as [st'| |] eqn:E;
    try discriminate.
  cbn [bind] in H. injection H as <- <-.
  destruct (Z.lt_ge_cases k FIND_ALL_LIMIT) as [Hs|Hb].
  - destruct (solveWithSymmetry_small k _ Hk HL fuel init_state st' Hs E)
      as (Hp & st1 & G1 & G2).
    destruct (grows2_run k st1 st' G1 G2) as (Hv & Hc & Ht & Htw).
    split; [constructor; assumption|]. split; [intros _; exact Htw|].
    split; [lia|]. right. right. reflexivity.
  - destruct (solveWithSymmetry_large k _ Hk HL fuel init_state st')
      as (Hp & G & Hcap); [lia|exact E|].
    destruct (grows1_run k st' G) as (Hv & Hc & Ht).
    split; [constructor; assumption|]. split; [lia|].
    split; [intros _; apply Hcap, capped_init|]. right. right. reflexivity.
Qed.

Lemma main_mono fuel tmp i res :
  main fuel tmp i = Ok res ->
  forall fuel', (fuel <= fuel')%nat -> main fuel' tmp i = Ok res.
Proof.
  intros H fuel' Hle. destruct i as [| |k]; try exact H.
  unfold main in *.
  destruct ((k <? 4) && negb (k =? 1)); [exact H|].
  destruct (shl_one k) as [one| |]; try discriminate. cbn [bind] in *.
  destruct (negb tmp); [exact H|].
  destruct (solveWithSymmetry k _ fuel init_state) as [st'| |] eqn:E;
    try discriminate.
  rewrite (solveWithSymmetry_mono k _ fuel _ _ E fuel' Hle). exact H.
Qed.

(** [main] returns on every board size the 64-bit masks can hold. *)
Lemma main_total tmp k :
  k < 64 -> exists fuel res, main fuel tmp (Parsed k) = Ok res.
Proof.
  intros Hk. unfold main.
  destruct ((k <? 4) && negb (k =? 1)) eqn:Egate.
  { exists 0%nat. eexists. reflexivity. }
  assert (Hk0 : 0 <= k < 64).
  { destruct (Z.ltb_spec k 4); destruct (Z.eqb_spec k 1);
      cbn [andb negb] in Egate; try discriminate; lia. }
  rewrite shl_one_ok by exact Hk0. cbn [bind].
  destruct tmp; cbn [negb]; [|exists 0%nat; eexists; reflexivity].
  destruct (solveWithSymmetry_total k ((2 ^ k - 1) mod modulus) Hk0)
    with (st := init_state) as (f & st' & E).
  { apply (limit_ones k (2 ^ k)). apply shl_one_ok. exact Hk0. }
  exists f. eexists. rewrite E. reflexivity.
Qed.

End SolverFacts.

(** ** src/unnamed/part_001: the search *)

Module Part001Facts.
Import Part001.

Section Engine.

Variables n LIMIT : Z.

Lemma p1_solve_S fuel c l r st :
  solve n LIMIT (S fuel) c l r st =
  let st := log (Enter c (path st)) st in
  if c =? LIMIT then
    let st := set_count (solutionCount st + 1) st in
    printSolution n (path st) st
  else
    let availablePositions := Z.land (not64 (Z.lor (Z.lor c l) r)) LIMIT in
    solve_while n LIMIT fuel availablePositions c l r st.
Proof. reflexivity. Qed.

Lemma p1_solve_while_S fuel q c l r st :
  solve_while n LIMIT (S fuel) q c l r st =
  if q =? 0 then Ok st
  else
    let selectedPosition := Z.land q (neg64 q) in
    let q := q - selectedPosition in
    let columnIndex := ctzll selectedPosition in
    let st := push_back (columnIndex + 1) st in
    st <- solve n LIMIT fuel (Z.lor c selectedPosition)
                (shl1 (Z.lor l selectedPosition))
                (shr1 (Z.lor r selectedPosition)) st ;;
    let st := pop_back st in
    let st := log (Undone c (path st)) st in
    solve_while n LIMIT fuel q c l r st.
Proof. reflexivity. Qed.

Lemma recursiveSolver_S fuel c l r st :
  recursiveSolver n LIMIT (S fuel) c l r st =
  let st := log (Enter c (path st)) st in
  if c =? LIMIT then
    let st := set_count (solutionCount st + 1) st in
    st <- printSolution n (path st) st ;;
    let st := set_count (solutionCount st + 1) st in
    let mirrored := mirror n (path st) in
    printSolution n mirrored st
  else
    let available := Z.land (not64 (Z.lor (Z.lor c l) r)) LIMIT in
    recursiveSolver_while n LIMIT fuel available c l r st.
Proof. reflexivity. Qed.

Lemma recursiveSolver_while_S fuel q c l r st :
  recursiveSolver_while n LIMIT (S fuel) q c l r st =
  if q =? 0 then Ok st
  else
    let pos := Z.land q (neg64 q) in
    let q := q - pos in
    let st := push_back (ctzll pos + 1) st in
    st <- recursiveSolver n LIMIT fuel (Z.lor c pos) (shl1 (Z.lor l pos))
                          (shr1 (Z.lor r pos)) st ;;
    let st := pop_back st in
    let st := log (Undone c (path st)) st in
    recursiveSolver_while n LIMIT fuel q c l r st.
Proof. reflexivity. Qed.

Lemma p1_solve_mono fuel :
  (forall c l r st st',
      solve n LIMIT fuel c l r st = Ok st' ->
      forall fuel', (fuel <= fuel')%nat -> solve n LIMIT fuel' c l r st = Ok st') /\
  (forall q c l r st st',
      solve_while n LIMIT fuel q c l r st = Ok st' ->
      forall fuel', (fuel <= fuel')%nat ->
        solve_while n LIMIT fuel' q c l r st = Ok st').
Proof.
  induction fuel as [|fuel [IHs IHw]]; split; try discriminate.
  - intros c l r st st' H [|fuel'] Hle; [lia|].
    rewrite p1_solve_S in *. cbv zeta in *.
    destruct (c =? LIMIT); [exact H|].
    apply IHw with (1 := H). lia.
  - intros q c l r st st' H [|fuel'] Hle; [lia|].
    rewrite p1_solve_while_S in *. cbv zeta in *.
    destruct (q =? 0); [exact H|].
    destruct (solve n LIMIT fuel _ _ _ _) as [st1| |] eqn:E1; try discriminate.
    rewrite (IHs _ _ _ _ _ E1 fuel') by lia.
    cbn [bind] in *. apply IHw with (1 := H). lia.
Qed.

(** The plain search of this file never touches the stop flag. *)
Lemma solve_flag fuel :
  (forall c l r st st',
      solve n LIMIT fuel c l r st = Ok st' -> stopSearch st' = stopSearch st) /\
  (forall q c l r st st',
      solve_while n LIMIT fuel q c l r st = Ok st' ->
      stopSearch st' = stopSearch st).
Proof.
  induction fuel as [|fuel [IHs IHw]]; split; try discriminate.
  - intros c l r st st' H. rewrite p1_solve_S in H. cbv zeta in H.
    destruct (c =? LIMIT).
    + unfold printSolution in H.
      destruct (read_row n _) as [row| |]; try discriminate.
      injection H as <-. reflexivity.
    + apply (IHw _ _ _ _ (log (Enter c (path st)) st) _ H).
  - intros q c l r st st' H. rewrite p1_solve_while_S in H. cbv zeta in H.
    destruct (q =? 0); [injection H as <-; reflexivity|].
    destruct (solve n LIMIT fuel _ _ _ _) as [st1| |] eqn:E1; try discriminate.
    cbn [bind] in H.
    apply (IHs _ _ _ (push_back _ st)) in E1.
    apply (IHw _ _ _ _ (log _ (pop_back st1))) in H.
    rewrite H. exact E1.
Qed.

(** The symmetric search of this file is that of src/solver.cpp: printing the
    mirrored copy of the vector writes the line [printMirrorSolution] writes. *)
Lemma print_mirrored (p : list Z) (st : state) :
  printSolution n (mirror n p) st = Solver.printMirrorSolution n p st.
Proof.
  unfold printSolution, Solver.printMirrorSolution, read_row, mirror.
  rewrite length_map.
  destruct (Z.of_nat (length p) <? n); [reflexivity|].
  cbn [bind]. rewrite firstn_map. reflexivity.
Qed.

Lemma recursiveSolver_eq fuel :
  (forall c l r st,
      recursiveSolver n LIMIT fuel c l r st =
      Solver.symmetricSolve n LIMIT fuel c l r st) /\
  (forall q c l r st,
      recursiveSolver_while n LIMIT fuel q c l r st =
      Solver.symmetricSolve_while n LIMIT fuel q c l r st).
Proof.
  induction fuel as [|fuel [IHs IHw]]; split; try reflexivity.
  - intros c l r st.
    rewrite recursiveSolver_S, SolverFacts.symmetricSolve_S. cbv zeta.
    destruct (c =? LIMIT); [|apply IHw].
    change (printSolution n) with (Solver.printSolution n).
    destruct (Solver.printSolution n _ _) as [st1| |]; try reflexivity.
    cbn [bind]. apply print_mirrored.
  - intros q c l r st.
    rewrite recursiveSolver_while_S, SolverFacts.symmetricSolve_while_S.
    cbv zeta. destruct (q =? 0); [reflexivity|].
    rewrite IHs.
    destruct (Solver.symmetricSolve n LIMIT fuel _ _ _ _) as [st1| |];
      try reflexivity.
    cbn [bind]. apply IHw.
Qed.

Lemma p1_firstHalf_eq fuel todo :
  forall col st,
    firstHalf n LIMIT fuel todo col st = Solver.firstHalf n LIMIT fuel todo col st.
Proof.
  induction todo as [|todo IH]; intros col st; [reflexivity|].
  cbn [firstHalf Solver.firstHalf].
  destruct (shl_one col) as [bit| |]; try reflexivity. cbn [bind].
  rewrite (proj1 (recursiveSolver_eq fuel)).
  destruct (Solver.symmetricSolve n LIMIT fuel _ _ _ _) as [st1| |];
    try reflexivity.
  cbn [bind]. apply IH.
Qed.

Hypothesis Hn : 0 <= n < 64.
Hypothesis HL : LIMIT = Z.ones n.

Lemma p1_solve_sound fuel :
  (forall c l r st st',
      Inv n c l r (path st) ->
      solve n LIMIT fuel c l r st = Ok st' ->
      extends single (completes n (path st)) st st') /\
  (forall q c l r st st',
      Inv n c l r (path st) -> avail n c l r q ->
      solve_while n LIMIT fuel q c l r st = Ok st' ->
      extends single (completes n (path st)) st st').
Proof.
  induction fuel as [|fuel [IHs IHw]]; split; try discriminate.
  - intros c l r st st' HI H. rewrite p1_solve_S in H. cbv zeta in H.
    assert (Hev : good_event (Enter c (path st))) by apply (inv_pop HI).
    destruct (Z.eqb_spec c LIMIT) as [->|Hc].
    + rewrite HL in HI.
      destruct (Inv_full n l r (path st) Hn HI) as [Hrow Hval].
      unfold printSolution in H. cbn [set_count log path] in H.
      rewrite Hrow in H. cbn [bind] in H. injection H as <-.
      split; [reflexivity|].
      apply grows_trans with (log (Enter LIMIT (path st)) st).
      * apply grows_log; [exact Hev|apply grows_refl].
      * apply (grows_emit1 (completes n (path st)) (path st)
                           (log (Enter LIMIT (path st)) st)).
        apply completes_self, Hval.
    + assert (Ha : avail n c l r
                (Z.land (not64 (Z.lor (Z.lor c l) r)) LIMIT))
        by (rewrite HL; apply avail_start; exact Hn).
      destruct (IHw _ c l r (log (Enter c (path st)) st) st' HI Ha H)
        as [Hp G].
      split; [exact Hp|].
      apply grows_trans with (log (Enter c (path st)) st); [|exact G].
      apply grows_log; [exact Hev|apply grows_refl].
  - intros q c l r st st' HI Ha H. rewrite p1_solve_while_S in H. cbv zeta in H.
    destruct (Z.eqb_spec q 0) as [->|Hq].
    { injection H as <-. split; [reflexivity|apply grows_refl]. }
    destruct (loop_step n c l r q (path st) Hn HI Ha Hq) as (HI' & Ha' & _).
    cbv zeta in HI', Ha'.
    destruct (solve n LIMIT fuel _ _ _ _) as [st1| |] eqn:E1; try discriminate.
    cbn [bind] in H.
    destruct (IHs _ _ _ (push_back _ st) st1 HI' E1) as [Hp1 G1].
    cbn [push_back set_path path] in Hp1, G1.
    assert (Hp2 : path (pop_back st1) = path st).
    { cbn [pop_back set_path path]. rewrite Hp1. apply removelast_last. }
    cbn [log path] in H. rewrite Hp2 in H.
    assert (HI2 : Inv n c l r (path (log (Undone c (path st)) (pop_back st1))))
      by (cbn [log path]; rewrite Hp2; exact HI).
    destruct (IHw _ c l r _ st' HI2 Ha' H) as [Hp3 G3].
    cbn [log path] in Hp3, G3. rewrite Hp2 in Hp3, G3.
    split; [exact Hp3|].
    apply grows_trans with (log (Undone c (path st)) (pop_back st1));
      [|exact G3].
    apply grows_log; [apply (inv_pop HI)|].
    exact (grows_weaken single _ _ st st1 (completes_snoc n (path st) _) G1).
Qed.

Lemma p1_solve_while_total (c l r : Z) (p : list Z) :
  Inv n c l r p ->
  (forall c' l' r' st1,
      Inv n c' l' r' (path st1) -> length (path st1) = S (length p) ->
      exists fuel st', solve n LIMIT fuel c' l' r' st1 = Ok st') ->
  forall q, 0 <= q -> forall st,
      path st = p -> avail n c l r q ->
      exists fuel st', solve_while n LIMIT fuel q c l r st = Ok st'.
Proof.
  intros HI Hrec q Hq0. pattern q. apply Zlt_0_ind; [|exact Hq0].
  clear q Hq0. intros q IH _ st Hp Ha. subst p.
  destruct (Z.eqb_spec q 0) as [->|Hq].
  { exists 1%nat, st. reflexivity. }
  destruct (loop_step n c l r q (path st) Hn HI Ha Hq) as (HI' & Ha' & Hlt).
  cbv zeta in HI', Ha', Hlt.
  destruct (Hrec _ _ _ (push_back (ctzll (Z.land q (neg64 q)) + 1) st) HI')
    as (f1 & st1 & E1).
  { cbn [push_back set_path path]. rewrite length_app. cbn [length]. lia. }
  destruct (proj1 (p1_solve_sound f1) _ _ _ (push_back _ st) st1 HI' E1)
    as [Hp1 _].
  cbn [push_back set_path path] in Hp1.
  assert (Hp2 : path (pop_back st1) = path st).
  { cbn [pop_back set_path path]. rewrite Hp1. apply removelast_last. }
  destruct (IH (q - Z.land q (neg64 q)) Hlt
               (log (Undone c (path (pop_back st1))) (pop_back st1)))
    as (f2 & st' & E2); [exact Hp2|exact Ha'|].
  exists (S (Nat.max f1 f2)), st'.
  rewrite p1_solve_while_S. cbv zeta.
  apply Z.eqb_neq in Hq. rewrite Hq.
  rewrite (proj1 (p1_solve_mono f1) _ _ _ _ _ E1 (Nat.max f1 f2)) by lia.
  cbn [bind].
  apply (proj2 (p1_solve_mono f2) _ _ _ _ _ _ E2). lia.
Qed.

Lemma p1_solve_total (d : nat) :
  forall c l r st,
    Inv n c l r (path st) ->
    (Z.to_nat n - length (path st) <= d)%nat ->
    exists fuel st', solve n LIMIT fuel c l r st = Ok st'.
Proof.
  assert (Hbody : forall c l r st,
    Inv n c l r (path st) ->
    (forall c' l' r' st1,
        Inv n c' l' r' (path st1) -> length (path st1) = S (length (path st)) ->
        exists fuel st', solve n LIMIT fuel c' l' r' st1 = Ok st') ->
    exists fuel st', solve n LIMIT fuel c l r st = Ok st').
  { intros c l r st HI Hrec.
    destruct (Z.eqb_spec c LIMIT) as [Hc|Hc].
    - exists 1%nat. rewrite p1_solve_S. cbv zeta.
      apply Z.eqb_eq in Hc. rewrite Hc. apply Z.eqb_eq in Hc. subst c.
      rewrite HL in HI.
      destruct (Inv_full n l r (path st) Hn HI) as [Hrow _].
      unfold printSolution. cbn [set_count log path].
      rewrite Hrow. cbn [bind]. eexists; reflexivity.
    - destruct (p1_solve_while_total c l r (path st) HI Hrec
                  (Z.land (not64 (Z.lor (Z.lor c l) r)) LIMIT))
        with (st := log (Enter c (path st)) st) as (f & st' & E).
      + rewrite HL. apply (avail_start n c l r Hn).
      + reflexivity.
      + rewrite HL. apply (avail_start n c l r Hn).
      + exists (S f), st'. rewrite p1_solve_S. cbv zeta.
        apply Z.eqb_neq in Hc. rewrite Hc. exact E. }
  induction d as [|d IH]; intros c l r st HI Hd; apply Hbody; auto;
    intros c' l' r' st1 HI1 Hlen;
    pose proof (Inv_length_le n c' l' r' (path st1) Hn HI1) as Hle.
  - lia.
  - apply IH; [exact HI1|lia].
Qed.

Lemma solveWithSymmetry_plain fuel st st' :
  n <= 1 \/ n >= 21 ->
  solveWithSymmetry n LIMIT fuel st = Ok st' ->
  path st' = [] /\ grows single (valid_solution n) st st'.
Proof.
  intros Hcase H. unfold solveWithSymmetry in H.
  destruct (Z.leb_spec n 1); destruct (Z.geb_spec n 21);
    cbn [orb] in H; try lia.
  all: assert (HI : Inv n 0 0 0 (path (set_path [] st))) by apply Inv_empty.
  all: destruct (proj1 (p1_solve_sound fuel) _ _ _ _ st' HI H) as [Hp G].
  all: split; [exact Hp|].
  all: refine (grows_weaken single _ _ st st' _ G); intros s [Hs _]; exact Hs.
Qed.

Lemma p1_solveWithSymmetry_small fuel st st' :
  1 < n < 21 ->
  solveWithSymmetry n LIMIT fuel st = Ok st' ->
  path st' = [] /\
  exists st1, grows (twin n) (left_half n) st st1 /\
              grows single (middle n) st1 st'.
Proof.
  intros Hsmall H. unfold solveWithSymmetry in H.
  destruct (Z.leb_spec n 1); [lia|]. destruct (Z.geb_spec n 21); [lia|].
  cbn [orb] in H. cbv zeta in H. rewrite p1_firstHalf_eq in H.
  destruct (SolverFacts.half_facts n Hn) as (Hh0 & Hh1 & Hh2).
  destruct (Solver.firstHalf n LIMIT fuel _ _ _) as [st1| |] eqn:E1;
    try discriminate.
  cbn [bind] in H.
  destruct (SolverFacts.firstHalf_sound n LIMIT Hn HL fuel
              (Z.to_nat (Z.quot n 2)) 0 (set_path [] st) st1) as [Hp1 G1];
    [lia|lia|reflexivity|exact E1|].
  destruct (Z.eqb_spec (Z.rem n 2) 1) as [Hodd|Heven].
  - rewrite shl_one_ok in H by lia. cbn [bind] in H.
    destruct (solve n LIMIT fuel _ _ _ _) as [st2| |] eqn:E2; try discriminate.
    cbn [bind] in H. injection H as <-.
    assert (HI : Inv n (2 ^ Z.quot n 2) (shl1 (2 ^ Z.quot n 2))
                   (shr1 (2 ^ Z.quot n 2))
                   (path (push_back (Z.quot n 2 + 1) st1))).
    { cbn [push_back set_path path]. rewrite Hp1.
      apply SolverFacts.Inv_first; [exact Hn|lia]. }
    destruct (proj1 (p1_solve_sound fuel) _ _ _ _ st2 HI E2) as [Hp2 G2].
    cbn [push_back set_path path] in Hp2, G2. rewrite Hp1 in Hp2, G2.
    assert (Hp3 : path (pop_back st2) = []).
    { cbn [pop_back set_path path]. rewrite Hp2. reflexivity. }
    split; [exact Hp3|]. exists st1. split; [exact G1|].
    apply grows_log;
      [change (length (path (pop_back st2)) = popcount 0);
       rewrite Hp3; reflexivity|].
    refine (grows_weaken single _ _ st1 st2 _ G2).
    intros s Hs. apply SolverFacts.completes_hd in Hs. exact Hs.
  - injection H as <-. split; [exact Hp1|].
    exists st1. split; [exact G1|apply grows_refl].
Qed.

Lemma p1_solveWithSymmetry_mono fuel st st' :
  solveWithSymmetry n LIMIT fuel st = Ok st' ->
  forall fuel', (fuel <= fuel')%nat ->
    solveWithSymmetry n LIMIT fuel' st = Ok st'.
Proof.
  intros H fuel' Hle. unfold solveWithSymmetry in *.
  destruct ((n <=? 1) || (n >=? 21)).
  { apply (proj1 (p1_solve_mono fuel) _ _ _ _ _ H). exact Hle. }
  cbv zeta in *. rewrite p1_firstHalf_eq in *.
  destruct (Solver.firstHalf n LIMIT fuel _ _ _) as [st1| |] eqn:E1;
    try discriminate.
  rewrite (SolverFacts.firstHalf_mono _ _ _ _ _ _ _ E1 fuel' Hle).
  cbn [bind] in *.
  destruct (Z.rem n 2 =? 1); [|exact H].
  destruct (shl_one _) as [bit| |]; try discriminate. cbn [bind] in *.
  destruct (solve n LIMIT fuel _ _ _ _) as [st2| |] eqn:E2; try discriminate.
  rewrite (proj1 (p1_solve_mono fuel) _ _ _ _ _ E2 fuel' Hle). exact H.
Qed.

Lemma p1_solveWithSymmetry_total st :
  exists fuel st', solveWithSymmetry n LIMIT fuel st = Ok st'.
Proof.
  unfold solveWithSymmetry.
  destruct ((n <=? 1) || (n >=? 21)).
  { apply (p1_solve_total (Z.to_nat n)); [apply Inv_empty|lia]. }
  cbv zeta. destruct (SolverFacts.half_facts n Hn) as (Hh0 & Hh1 & Hh2).
  destruct (SolverFacts.firstHalf_total n LIMIT Hn HL
              (Z.to_nat (Z.quot n 2)) 0 (set_path [] st))
    as (f1 & st1 & E1); [lia|lia|reflexivity|].
  destruct (SolverFacts.firstHalf_sound n LIMIT Hn HL f1
              (Z.to_nat (Z.quot n 2)) 0 (set_path [] st) st1) as [Hp1 _];
    [lia|lia|reflexivity|exact E1|].
  destruct (Z.eqb_spec (Z.rem n 2) 1) as [Hodd|Heven].
  - assert (HI : Inv n (2 ^ Z.quot n 2) (shl1 (2 ^ Z.quot n 2))
                   (shr1 (2 ^ Z.quot n 2))
                   (path (push_back (Z.quot n 2 + 1) st1))).
    { cbn [push_back set_path path]. rewrite Hp1.
      apply SolverFacts.Inv_first; [exact Hn|lia]. }
    destruct (p1_solve_total (Z.to_nat n) _ _ _ _ HI) as (f2 & st2 & E2); [lia|].
    exists (Nat.max f1 f2). eexists. rewrite p1_firstHalf_eq.
    rewrite (SolverFacts.firstHalf_mono _ _ _ _ _ _ _ E1 (Nat.max f1 f2))
      by lia.
    cbn [bind]. rewrite shl_one_ok by lia. cbn [bind].
    rewrite (proj1 (p1_solve_mono f2) _ _ _ _ _ E2 (Nat.max f1 f2)) by lia.
    reflexivity.
  - exists f1, st1. rewrite p1_firstHalf_eq, E1. reflexivity.
Qed.

End Engine.

(** On the one-square board every placement is the single queen, which sits in
    the middle column. *)
Lemma valid_one_middle (s : list Z) : valid_solution 1 s -> middle 1 s.
Proof.
  intros Hv. split; [exact Hv|].
  destruct Hv as (Hlen & HF & _).
  destruct s as [|x [|y s]]; try discriminate.
  inversion HF as [|? ? Hx _]; subst. cbn. lia.
Qed.

Lemma p1_main_sound fuel tmp k o st :
  main fuel tmp (Parsed k) = Ok (o, st) ->
  run_ok k st /\
  (k < 21 -> twinned k (tempFile st)) /\
  (o = NoSolution \/ o = TempFileError \/
   o = Summary k (solutionCount st) (tempFile st)).
Proof.
  unfold main. intros H.
  assert (Hinit : run_ok k init_state /\
    (k < 21 -> twinned k (tempFile init_state))).
  { split; [apply SolverFacts.run_ok_init|]. intros _.
    exists [], []. repeat split; constructor. }
  destruct ((k <? 4) && negb (k =? 1)) eqn:Egate.
  { injection H as <- <-. intuition. }
  assert (Hgate : k = 1 \/ 4 <= k).
  { destruct (Z.ltb_spec k 4); destruct (Z.eqb_spec k 1);
      cbn [andb negb] in Egate; try discriminate; lia. }
  destruct (shl_one k) as [one| |] eqn:E1; try discriminate.
  apply limit_ones in E1. destruct E1 as [Hk HL]. cbn [bind] in H.
  destruct tmp; cbn [negb] in H; [|injection H as <- <-; intuition].
  destruct (solveWithSymmetry k _ fuel init_state) as [st'| |] eqn:E;
    try discriminate.
  cbn [bind] in H. injection H as <- <-.
  assert (Hcase : 1 < k < 21 \/ (k <= 1 \/ k >= 21)) by lia.
  destruct Hcase as [Hs|Hb].
  - destruct (p1_solveWithSymmetry_small k _ Hk HL fuel init_state st' Hs E)
      as (Hp & st1 & G1 & G2).
    destruct (SolverFacts.grows2_run k st1 st' G1 G2) as (Hv & Hc & Ht & Htw).
    split; [constructor; assumption|]. split; [intros _; exact Htw|].
    right. right. reflexivity.
  - destruct (solveWithSymmetry_plain k _ Hk HL fuel init_state st' Hb E)
      as (Hp & G).
    destruct (SolverFacts.grows1_run k st' G) as (Hv & Hc & Ht).
    split; [constructor; assumption|]. split; [|right; right; reflexivity].
    intros Hlt. exists [], (tempFile st'). split; [reflexivity|].
    split; [constructor|].
    assert (k = 1) by lia. subst k.
    revert Hv. apply Forall_impl. apply valid_one_middle.
Qed.

Lemma p1_main_mono fuel tmp i res :
  main fuel tmp i = Ok res ->
  forall fuel', (fuel <= fuel')%nat -> main fuel' tmp i = Ok res.
Proof.
  intros H fuel' Hle. destruct i as [| |k]; try exact H.
  unfold main in *.
  destruct ((k <? 4) && negb (k =? 1)); [exact H|].
  destruct (shl_one k) as [one| |]; try discriminate. cbn [bind] in *.
  destruct (negb tmp); [exact H|].
  destruct (solveWithSymmetry k _ fuel init_state) as [st'| |] eqn:E;
    try discriminate.
  rewrite (p1_solveWithSymmetry_mono k _ fuel _ _ E fuel' Hle). exact H.
Qed.

Lemma p1_main_total tmp k :
  k < 64 -> exists fuel res, main fuel tmp (Parsed k) = Ok res.
Proof.
  intros Hk. unfold main.
  destruct ((k <? 4) && negb (k =? 1)) eqn:Egate.
  { exists 0%nat. eexists. reflexivity. }
  assert (Hk0 : 0 <= k < 64).
  { destruct (Z.ltb_spec k 4); destruct (Z.eqb_spec k 1);
      cbn [andb negb] in Egate; try discriminate; lia. }
  rewrite shl_one_ok by exact Hk0. cbn [bind].
  destruct tmp; cbn [negb]; [|exists 0%nat; eexists; reflexivity].
  destruct (p1_solveWithSymmetry_total k ((2 ^ k - 1) mod modulus) Hk0)
    with (st := init_state) as (f & st' & E).
  { apply (limit_ones k (2 ^ k)). apply shl_one_ok. exact Hk0. }
  exists f. eexists. rewrite E. reflexivity.
Qed.

End Part001Facts.

(** ** src/unnamed/part_000: the search

    Its symmetric search is that of src/solver.cpp word for word; its plain
    search is that of src/solver.cpp without the cap, which below the
    threshold is the same function, and from the threshold on is the plain
    search of src/unnamed/part_001 as long as the stop flag is down. *)

Module Part000Facts.
Import Part000.

Section Engine.

Variables n LIMIT : Z.

Lemma backtrack_S fuel c l r st :
  backtrack n LIMIT (S fuel) c l r st =
  let st := log (Enter c (path st)) st in
  if stopSearch st then Ok st
  else if c =? LIMIT then
    let st := set_count (solutionCount st + 1) st in
    writeSolution n (path st) st
  else
    let available := Z.land (not64 (Z.lor (Z.lor c l) r)) LIMIT in
    backtrack_while n LIMIT fuel available c l r st.
Proof. reflexivity. Qed.

Lemma backtrack_while_S fuel q c l r st :
  backtrack_while n LIMIT (S fuel) q c l r st =
  if q =? 0 then Ok st
  else if stopSearch st then Ok st
  else
    let bit := Z.land q (neg64 q) in
    let q := q - bit in
    let colIndex := ctzll bit in
    let st := push_back (colIndex + 1) st in
    st <- backtrack n LIMIT fuel (Z.lor c bit)
                    (shl1 (Z.lor l bit))
                    (shr1 (Z.lor r bit)) st ;;
    let st := pop_back st in
    let st := log (Undone c (path st)) st in
    backtrack_while n LIMIT fuel q c l r st.
Proof. reflexivity. Qed.

Lemma symmetricDFS_eq : symmetricDFS n LIMIT = Solver.symmetricSolve n LIMIT.
Proof. reflexivity. Qed.

Lemma p0_firstHalf_eq : firstHalf n LIMIT = Solver.firstHalf n LIMIT.
Proof. reflexivity. Qed.

Lemma backtrack_small fuel :
  n < ENUMERATION_LIMIT ->
  (forall c l r st,
      backtrack n LIMIT fuel c l r st = Solver.solve n LIMIT fuel c l r st) /\
  (forall q c l r st,
      backtrack_while n LIMIT fuel q c l r st =
      Solver.solve_while n LIMIT fuel q c l r st).
Proof.
  intros Hsmall.
  induction fuel as [|fuel [IHs IHw]]; split; try reflexivity.
  - intros c l r st.
    rewrite backtrack_S, SolverFacts.solve_S. cbv zeta.
    destruct (stopSearch _); [reflexivity|].
    destruct (c =? LIMIT); [|apply IHw].
    change (writeSolution n) with (Solver.printSolution n).
    destruct (Solver.printSolution n _ _) as [st1| |]; try reflexivity.
    cbn [bind].
    destruct (Z.geb_spec n Solver.FIND_ALL_LIMIT) as [Hge|_];
      [unfold Solver.FIND_ALL_LIMIT, ENUMERATION_LIMIT in *; lia|].
    reflexivity.
  - intros q c l r st.
    rewrite backtrack_while_S, SolverFacts.solve_while_S. cbv zeta.
    destruct (q =? 0); [reflexivity|].
    destruct (stopSearch st); [reflexivity|].
    rewrite IHs.
    destruct (Solver.solve n LIMIT fuel _ _ _ _) as [st1| |]; try reflexivity.
    cbn [bind]. apply IHw.
Qed.

Lemma backtrack_unflagged fuel :
  (forall c l r st,
      stopSearch st = false ->
      backtrack n LIMIT fuel c l r st = Part001.solve n LIMIT fuel c l r st) /\
  (forall q c l r st,
      stopSearch st = false ->
      backtrack_while n LIMIT fuel q c l r st =
      Part001.solve_while n LIMIT fuel q c l r st).
Proof.
  induction fuel as [|fuel [IHs IHw]]; split; try reflexivity.
  - intros c l r st Hf.
    rewrite backtrack_S, Part001Facts.p1_solve_S. cbv zeta.
    cbn [log stopSearch]. rewrite Hf.
    destruct (c =? LIMIT); [reflexivity|].
    apply IHw. exact Hf.
  - intros q c l r st Hf.
    rewrite backtrack_while_S, Part001Facts.p1_solve_while_S. cbv zeta.
    rewrite Hf. destruct (q =? 0); [reflexivity|].
    rewrite IHs by exact Hf.
    destruct (Part001.solve n LIMIT fuel _ _ _ _) as [st1| |] eqn:E1;
      try reflexivity.
    cbn [bind]. apply IHw.
    apply (proj1 (Part001Facts.solve_flag n LIMIT fuel)) in E1.
    cbn [log pop_back set_path stopSearch]. rewrite E1. exact Hf.
Qed.

Lemma p0_solveWithSymmetry_small fuel st :
  n < ENUMERATION_LIMIT ->
  solveWithSymmetry n LIMIT fuel st = Solver.solveWithSymmetry n LIMIT fuel st.
Proof.
  intros Hsmall. unfold solveWithSymmetry, Solver.solveWithSymmetry.
  unfold ENUMERATION_LIMIT, Solver.FIND_ALL_LIMIT in *.
  destruct (Z.geb_spec n 21); [lia|]. cbv zeta.
  rewrite p0_firstHalf_eq.
  destruct (Solver.firstHalf n LIMIT fuel _ _ _) as [st1| |]; try reflexivity.
  cbn [bind]. destruct (Z.rem n 2 =? 1); [|reflexivity].
  destruct (shl_one _) as [bit| |]; try reflexivity. cbn [bind].
  rewrite (proj1 (backtrack_small fuel Hsmall)). reflexivity.
Qed.

Lemma p0_solveWithSymmetry_large fuel st :
  n >= ENUMERATION_LIMIT -> stopSearch st = false ->
  solveWithSymmetry n LIMIT fuel st = Part001.solveWithSymmetry n LIMIT fuel st.
Proof.
  intros Hbig Hf. unfold solveWithSymmetry, Part001.solveWithSymmetry.
  unfold ENUMERATION_LIMIT in *.
  destruct (Z.geb_spec n 21); [|lia]. rewrite orb_true_r.
  apply (proj1 (backtrack_unflagged fuel)). exact Hf.
Qed.

End Engine.

Lemma p0_main_sound fuel tmp k o st :
  main fuel tmp (Parsed k) = Ok (o, st) ->
  run_ok k st /\
  (k < 21 -> twinned k (tempFile st)) /\
  (o = NoSolution \/ o = TempFileError \/
   o = Summary k (solutionCount st) (tempFile st)).
Proof.
  unfold main. intros H.
  assert (Hinit : run_ok k init_state /\
    (k < 21 -> twinned k (tempFile init_state))).
  { split; [apply SolverFacts.run_ok_init|]. intros _.
    exists [], []. repeat split; constructor. }
  destruct ((k =? 2) || (k =? 3)).
  { injection H as <- <-. intuition. }
  destruct (shl_one k) as [one| |] eqn:E1; try discriminate.
  apply limit_ones in E1. destruct E1 as [Hk HL]. cbn [bind] in H.
  destruct tmp; cbn [negb] in H; [|injection H as <- <-; intuition].
  destruct (solveWithSymmetry k _ fuel init_state) as [st'| |] eqn:E;
    try discriminate.
  cbn [bind] in H. injection H as <- <-.
  destruct (Z.lt_ge_cases k 21) as [Hs|Hb].
  - rewrite p0_solveWithSymmetry_small in E by exact Hs.
    destruct (SolverFacts.solveWithSymmetry_small k _ Hk HL fuel
                init_state st' Hs E) as (Hp & st1 & G1 & G2).
    destruct (SolverFacts.grows2_run k st1 st' G1 G2) as (Hv & Hc & Ht & Htw).
    split; [constructor; assumption|]. split; [intros _; exact Htw|].
    right. right. reflexivity.
  - rewrite p0_solveWithSymmetry_large in E
      by (unfold ENUMERATION_LIMIT; try reflexivity; lia).
    destruct (Part001Facts.solveWithSymmetry_plain k _ Hk HL fuel
                init_state st') as (Hp & G); [lia|exact E|].
    destruct (SolverFacts.grows1_run k st' G) as (Hv & Hc & Ht).
    split; [constructor; assumption|]. split; [lia|].
    right. right. reflexivity.
Qed.

Lemma p0_main_mono fuel tmp i res :
  main fuel tmp i = Ok res ->
  forall fuel', (fuel <= fuel')%nat -> main fuel' tmp i = Ok res.
Proof.
  intros H fuel' Hle. destruct i as [| |k]; try exact H.
  unfold main in *.
  destruct ((k =? 2) || (k =? 3)); [exact H|].
  destruct (shl_one k) as [one| |]; try discriminate. cbn [bind] in *.
  destruct (negb tmp); [exact H|].
  destruct (solveWithSymmetry k _ fuel init_state) as [st'| |] eqn:E;
    try discriminate.
  destruct (Z.lt_ge_cases k 21) as [Hs|Hb].
  - rewrite p0_solveWithSymmetry_small in * by exact Hs.
    rewrite (SolverFacts.solveWithSymmetry_mono k _ fuel _ _ E fuel' Hle).
    exact H.
  - rewrite p0_solveWithSymmetry_large in *
      by (unfold ENUMERATION_LIMIT; try reflexivity; lia).
    rewrite (Part001Facts.p1_solveWithSymmetry_mono k _ fuel _ _ E fuel' Hle).
    exact H.
Qed.

Lemma p0_main_total tmp k :
  0 <= k < 64 -> exists fuel res, main fuel tmp (Parsed k) = Ok res.
Proof.
  intros Hk0. unfold main.
  destruct ((k =? 2) || (k =? 3)).
  { exists 0%nat. eexists. reflexivity. }
  rewrite shl_one_ok by exact Hk0. cbn [bind].
  destruct tmp; cbn [negb]; [|exists 0%nat; eexists; reflexivity].
  assert (HL : (2 ^ k - 1) mod modulus = Z.ones k).
  { apply (limit_ones k (2 ^ k)). apply shl_one_ok. exact Hk0. }
  destruct (Z.lt_ge_cases k 21) as [Hs|Hb].
  - destruct (SolverFacts.solveWithSymmetry_total k _ Hk0 HL init_state)
      as (f & st' & E).
    exists f. eexists.
    rewrite p0_solveWithSymmetry_small, E by exact Hs. reflexivity.
  - destruct (Part001Facts.p1_solveWithSymmetry_total k _ Hk0 HL init_state)
      as (f & st' & E).
    exists f. eexists.
    rewrite p0_solveWithSymmetry_large, E
      by (unfold ENUMERATION_LIMIT; try reflexivity; lia).
    reflexivity.
Qed.

End Part000Facts.

(** ** Push before the call, pop after it

    Whatever the masks are, a call that returns hands the placement vector back
    as it received it. *)

Lemma pop_after_push (st st1 : state) (x : Z) :
  path st1 = path (push_back x st) -> path (pop_back st1) = path st.
Proof.
  cbn [push_back pop_back set_path path]. intros ->. apply removelast_last.
Qed.

Lemma solver_solve_path n LIMIT fuel :
  (forall c l r st st',
      Solver.solve n LIMIT fuel c l r st = Ok st' -> path st' = path st) /\
  (forall q c l r st st',
      Solver.solve_while n LIMIT fuel q c l r st = Ok st' -> path st' = path st).
Proof.
  induction fuel as [|fuel [IHs IHw]]; split; try discriminate.
  - intros c l r st st' H. rewrite SolverFacts.solve_S in H. cbv zeta in H.
    destruct (stopSearch _); [injection H as <-; reflexivity|].
    destruct (c =? LIMIT).
    + unfold Solver.printSolution in H.
      destruct (read_row n _) as [row| |]; try discriminate. cbn [bind] in H.
      destruct (_ && _); injection H as <-; reflexivity.
    + apply (IHw _ _ _ _ (log (Enter c (path st)) st) _ H).
  - intros q c l r st st' H. rewrite SolverFacts.solve_while_S in H.
    cbv zeta in H.
    destruct (q =? 0); [injection H as <-; reflexivity|].
    destruct (stopSearch st); [injection H as <-; reflexivity|].
    destruct (Solver.solve n LIMIT fuel _ _ _ _) as [st1| |] eqn:E1;
      try discriminate.
    cbn [bind] in H.
    apply (IHs _ _ _ (push_back _ st)) in E1. apply pop_after_push in E1.
    apply (IHw _ _ _ _ (log _ (pop_back st1))) in H.
    rewrite H. exact E1.
Qed.

Lemma solver_symmetricSolve_path n LIMIT fuel :
  (forall c l r st st',
      Solver.symmetricSolve n LIMIT fuel c l r st = Ok st' ->
      path st' = path st) /\
  (forall q c l r st st',
      Solver.symmetricSolve_while n LIMIT fuel q c l r st = Ok st' ->
      path st' = path st).
Proof.
  induction fuel as [|fuel [IHs IHw]]; split; try discriminate.
  - intros c l r st st' H. rewrite SolverFacts.symmetricSolve_S in H.
    cbv zeta in H.
    destruct (c =? LIMIT).
    + unfold Solver.printSolution, Solver.printMirrorSolution in H.
      destruct (read_row n _) as [row| |]; try discriminate. cbn [bind] in H.
      destruct (read_row n _) as [row'| |]; try discriminate. cbn [bind] in H.
      injection H as <-. reflexivity.
    + apply (IHw _ _ _ _ (log (Enter c (path st)) st) _ H).
  - intros q c l r st st' H. rewrite SolverFacts.symmetricSolve_while_S in H.
    cbv zeta in H.
    destruct (q =? 0); [injection H as <-; reflexivity|].
    destruct (Solver.symmetricSolve n LIMIT fuel _ _ _ _) as [st1| |] eqn:E1;
      try discriminate.
    cbn [bind] in H.
    apply (IHs _ _ _ (push_back _ st)) in E1. apply pop_after_push in E1.
    apply (IHw _ _ _ _ (log _ (pop_back st1))) in H.
    rewrite H. exact E1.
Qed.

Lemma part000_backtrack_path n LIMIT fuel :
  (forall c l r st st',
      Part000.backtrack n LIMIT fuel c l r st = Ok st' -> path st' = path st) /\
  (forall q c l r st st',
      Part000.backtrack_while n LIMIT fuel q c l r st = Ok st' ->
      path st' = path st).
Proof.
  induction fuel as [|fuel [IHs IHw]]; split; try discriminate.
  - intros c l r st st' H. rewrite Part000Facts.backtrack_S in H.
    cbv zeta in H.
    destruct (stopSearch _); [injection H as <-; reflexivity|].
    destruct (c =? LIMIT).
    + unfold Part000.writeSolution in H.
      destruct (read_row n _) as [row| |]; try discriminate. cbn [bind] in H.
      injection H as <-. reflexivity.
    + apply (IHw _ _ _ _ (log (Enter c (path st)) st) _ H).
  - intros q c l r st st' H. rewrite Part000Facts.backtrack_while_S in H.
    cbv zeta in H.
    destruct (q =? 0); [injection H as <-; reflexivity|].
    destruct (stopSearch st); [injection H as <-; reflexivity|].
    destruct (Part000.backtrack n LIMIT fuel _ _ _ _) as [st1| |] eqn:E1;
      try discriminate.
    cbn [bind] in H.
    apply (IHs _ _ _ (push_back _ st)) in E1. apply pop_after_push in E1.
    apply (IHw _ _ _ _ (log _ (pop_back st1))) in H.
    rewrite H. exact E1.
Qed.

Lemma part001_solve_path n LIMIT fuel :
  (forall c l r st st',
      Part001.solve n LIMIT fuel c l r st = Ok st' -> path st' = path st) /\
  (forall q c l r st st',
      Part001.solve_while n LIMIT fuel q c l r st = Ok st' ->
      path st' = path st).
Proof.
  induction fuel as [|fuel [IHs IHw]]; split; try discriminate.
  - intros c l r st st' H. rewrite Part001Facts.p1_solve_S in H. cbv zeta in H.
    destruct (c =? LIMIT).
    + unfold Part001.printSolution in H.
      destruct (read_row n _) as [row| |]; try discriminate. cbn [bind] in H.
      injection H as <-. reflexivity.
    + apply (IHw _ _ _ _ (log (Enter c (path st)) st) _ H).
  - intros q c l r st st' H. rewrite Part001Facts.p1_solve_while_S in H.
    cbv zeta in H.
    destruct (q =? 0); [injection H as <-; reflexivity|].
    destruct (Part001.solve n LIMIT fuel _ _ _ _) as [st1| |] eqn:E1;
      try discriminate.
    cbn [bind] in H.
    apply (IHs _ _ _ (push_back _ st)) in E1. apply pop_after_push in E1.
    apply (IHw _ _ _ _ (log _ (pop_back st1))) in H.
    rewrite H. exact E1.
Qed.

Lemma plain_search_path v n LIMIT fuel c l r st st' :
  plain_search v n LIMIT fuel c l r st = Ok st' -> path st' = path st.
Proof.
  destruct v; cbn [plain_search].
  - apply (proj1 (solver_solve_path n LIMIT fuel)).
  - apply (proj1 (part000_backtrack_path n LIMIT fuel)).
  - apply (proj1 (part001_solve_path n LIMIT fuel)).
Qed.

Lemma symmetric_search_path v n LIMIT fuel c l r st st' :
  symmetric_search v n LIMIT fuel c l r st = Ok st' -> path st' = path st.
Proof.
  destruct v; cbn [symmetric_search].
  - apply (proj1 (solver_symmetricSolve_path n LIMIT fuel)).
  - rewrite Part000Facts.symmetricDFS_eq.
    apply (proj1 (solver_symmetricSolve_path n LIMIT fuel)).
  - rewrite (proj1 (Part001Facts.recursiveSolver_eq n LIMIT fuel)).
    apply (proj1 (solver_symmetricSolve_path n LIMIT fuel)).
Qed.

(** ** All three programs *)

Lemma run_main_sound v fuel tmp k o st :
  run_main v fuel tmp (Parsed k) = Ok (o, st) ->
  run_ok k st /\
  (k < 21 -> twinned k (tempFile st)) /\
  (o = NoSolution \/ o = TempFileError \/
   o = Summary k (solutionCount st) (tempFile st)).
Proof.
  destruct v; cbn [run_main]; intros H.
  - destruct (SolverFacts.main_sound fuel tmp k o st H) as (H1 & H2 & _ & H4).
    auto.
  - apply Part000Facts.p0_main_sound with (1 := H).
  - apply Part001Facts.p1_main_sound with (1 := H).
Qed.

Lemma run_main_mono v fuel tmp i res :
  run_main v fuel tmp i = Ok res ->
  forall fuel', (fuel <= fuel')%nat -> run_main v fuel' tmp i = Ok res.
Proof.
  destruct v; cbn [run_main].
  - apply SolverFacts.main_mono.
  - apply Part000Facts.p0_main_mono.
  - apply Part001Facts.p1_main_mono.
Qed.

Lemma run_main_total v tmp k :
  0 <= k < 64 -> exists fuel res, run_main v fuel tmp (Parsed k) = Ok res.
Proof.
  intros Hk. destruct v; cbn [run_main].
  - apply SolverFacts.main_total. lia.
  - apply Part000Facts.p0_main_total. exact Hk.
  - apply Part001Facts.p1_main_total. lia.
Qed.

Lemma run_main_agree v fuel1 fuel2 tmp i r1 r2 :
  run_main v fuel1 tmp i = Ok r1 -> run_main v fuel2 tmp i = Ok r2 -> r1 = r2.
Proof.
  intros H1 H2.
  apply run_main_mono with (fuel' := Nat.max fuel1 fuel2) in H1; [|lia].
  apply run_main_mono with (fuel' := Nat.max fuel1 fuel2) in H2; [|lia].
  congruence.
Qed.

(** Where a left-half placement stands in the file, its mirror image stands
    next. *)
Lemma twinned_next n (out : list (list Z)) :
  0 <= n -> twinned n out ->
  forall (i : nat) (s : list Z),
    nth_error out i = Some s -> hd 0 s <= Z.quot n 2 ->
    nth_error out (S i) = Some (mirror n s) /\ valid_solution n (mirror n s).
Proof.
  intros Hn (sols & mids & -> & Hs & Hm).
  assert (Hq : 2 * Z.quot n 2 <= n)
    by (rewrite Z.quot_div_nonneg by lia; apply Z.mul_div_le; lia).
  induction Hs as [|a sols [Hva Hha] Hs IH]; intros i s Hi Hh.
  - cbn [flat_map app] in Hi. apply nth_error_In in Hi.
    rewrite Forall_forall in Hm. destruct (Hm s Hi) as [_ Hmid]. lia.
  - cbn [flat_map twin app] in *.
    destruct i as [|[|i]]; cbn [nth_error] in *.
    + injection Hi as <-. split; [reflexivity|apply mirror_valid, Hva].
    + injection Hi as <-. exfalso.
      destruct a as [|x a]; cbn [hd mirror map] in *; lia.
    + apply IH; assumption.
Qed.

Lemma part000_zero fuel :
  run_main part_000 fuel true (Parsed 0) = Ok (Summary 0 0 [], init_state).
Proof. reflexivity. Qed.

(** ** The claims *)

(** C1.  Every record a run writes to the temporary file is a full placement
    for the board size read: exactly [n] columns, each in [1..n], pairwise
    distinct, and no two rows [i <> j] with column distance [|i - j|].  This
    holds of the three programs, whatever fuel the run was given. *)
Theorem emitted_solutions_valid v fuel tmp n o st :
  run_main v fuel tmp (Parsed n) = Ok (o, st) ->
  Forall (valid_solution n) (tempFile st).
Proof.
  intros H. destruct (run_main_sound v fuel tmp n o st H) as (Hok & _).
  apply (run_valid Hok).
Qed.

Lemma emitted_solutions_valid_witness :
  Forall (valid_solution 5)
         (tempFile (final (run_main solver_cpp 400 true (Parsed 5)))).
Proof.
  apply (emitted_solutions_valid solver_cpp 400 true 5
           (outcome_of (run_main solver_cpp 400 true (Parsed 5)))
           (final (run_main solver_cpp 400 true (Parsed 5)))).
  vm_compute. reflexivity.
Defined.

(** C2.  Mirror law.  On a board below the threshold of 21, a record whose
    first-row queen stands in the left half (1-indexed column at most
    [n / 2]) is followed, at the very next position of the file, by its
    mirror image [n + 1 - x], and that mirror image is a full non-attacking
    placement. *)
Theorem mirror_law v fuel tmp n o st (i : nat) (s : list Z) :
  run_main v fuel tmp (Parsed n) = Ok (o, st) ->
  n < 21 ->
  nth_error (tempFile st) i = Some s ->
  hd 0 s <= Z.quot n 2 ->
  nth_error (tempFile st) (S i) = Some (mirror n s) /\
  valid_solution n (mirror n s).
Proof.
  intros H Hn Hi Hh.
  destruct (run_main_sound v fuel tmp n o st H) as (Hok & Htw & _).
  destruct (Z.lt_ge_cases n 0) as [Hneg|Hpos].
  - exfalso. clear - H Hneg Hi. destruct v; cbn [run_main] in H.
    + unfold Solver.main in H.
      destruct (Z.ltb_spec n 4); [|lia].
      destruct (Z.eqb_spec n 1); [lia|]. cbn [andb negb] in H.
      injection H as <- <-. destruct i; discriminate Hi.
    + unfold Part000.main in H.
      destruct (Z.eqb_spec n 2); [lia|]. destruct (Z.eqb_spec n 3); [lia|].
      cbn [orb] in H. unfold shl_one in H.
      destruct (Z.leb_spec 0 n); [lia|]. discriminate.
    + unfold Part001.main in H.
      destruct (Z.ltb_spec n 4); [|lia].
      destruct (Z.eqb_spec n 1); [lia|]. cbn [andb negb] in H.
      injection H as <- <-. destruct i; discriminate Hi.
  - apply twinned_next with (out := tempFile st) (i := i); auto.
Qed.

Lemma mirror_law_witness :
  nth_error (tempFile (final (run_main solver_cpp 400 true (Parsed 4)))) 1
  = Some (mirror 4 [2; 4; 1; 3]) /\
  valid_solution 4 (mirror 4 [2; 4; 1; 3]).
Proof.
  apply (mirror_law solver_cpp 400 true 4
           (outcome_of (run_main solver_cpp 400 true (Parsed 4)))
           (final (run_main solver_cpp 400 true (Parsed 4))) 0 [2; 4; 1; 3]).
  - vm_compute. reflexivity.
  - lia.
  - vm_compute. reflexivity.
  - vm_compute. discriminate.
Defined.

(** C3.  On the 8 by 8 board each program reports 92 solutions and writes 92
    records. *)
Theorem eight_queens (v : variant) :
  exists fuel st,
    run_main v fuel true (Parsed 8) = Ok (Summary 8 92 (tempFile st), st) /\
    solutionCount st = 92 /\
    length (tempFile st) = 92%nat.
Proof.
  exists 600%nat, (final (run_main v 600 true (Parsed 8))).
  destruct v; vm_compute; repeat split; reflexivity.
Qed.

(** C4.  On the 4 by 4 board each program reports 2 solutions; the records
    are [2 4 1 3] and [3 1 4 2], and both are full non-attacking placements. *)
Theorem four_queens (v : variant) :
  exists fuel st,
    run_main v fuel true (Parsed 4) =
      Ok (Summary 4 2 [[2; 4; 1; 3]; [3; 1; 4; 2]], st) /\
    tempFile st = [[2; 4; 1; 3]; [3; 1; 4; 2]] /\
    valid_solution 4 [2; 4; 1; 3] /\
    valid_solution 4 [3; 1; 4; 2].
Proof.
  exists 400%nat, (final (run_main v 400 true (Parsed 4))).
  assert (H : run_main v 400 true (Parsed 4) =
              Ok (Summary 4 2 [[2; 4; 1; 3]; [3; 1; 4; 2]],
                  final (run_main v 400 true (Parsed 4))))
    by (destruct v; vm_compute; reflexivity).
  assert (Ht : tempFile (final (run_main v 400 true (Parsed 4))) =
               [[2; 4; 1; 3]; [3; 1; 4; 2]])
    by (destruct v; vm_compute; reflexivity).
  split; [exact H|]. split; [exact Ht|].
  destruct (run_main_sound v 400 true 4 _ _ H) as (Hok & _).
  pose proof (run_valid Hok) as Hv. rewrite Ht in Hv.
  inversion Hv as [|? ? H1 Hv']; subst.
  inversion Hv' as [|? ? H2 _]; subst.
  split; assumption.
Qed.

(** C5, as amended.  On every board size from the threshold 21 up to 63, the
    widest the shift [1ULL << boardSize] is defined for, each program's run
    returns, and where a cap is configured (src/solver.cpp, 1000) neither the
    reported count nor the number of records exceeds it. *)
Theorem large_board_bounded v tmp n :
  21 <= n < 64 ->
  exists fuel o st,
    run_main v fuel tmp (Parsed n) = Ok (o, st) /\
    forall cap, configured_cap v = Some cap ->
      solutionCount st <= cap /\ Z.of_nat (length (tempFile st)) <= cap.
Proof.
  intros Hn.
  destruct (run_main_total v tmp n) as (fuel & [o st] & H); [lia|].
  exists fuel, o, st. split; [exact H|].
  intros cap Hcap. destruct v; try discriminate.
  injection Hcap as <-. cbn [run_main] in H.
  destruct (SolverFacts.main_sound fuel tmp n o st H) as (Hok & _ & Hc & _).
  destruct Hc as [Hc _]; [unfold Solver.FIND_ALL_LIMIT; lia|].
  rewrite <- (run_count Hok). split; exact Hc.
Qed.

Lemma large_board_bounded_witness :
  exists fuel o st,
    run_main solver_cpp fuel true (Parsed 21) = Ok (o, st) /\
    forall cap, configured_cap solver_cpp = Some cap ->
      solutionCount st <= cap /\ Z.of_nat (length (tempFile st)) <= cap.
Proof.
  apply (large_board_bounded solver_cpp true 21). lia.
Defined.

(** C5 as stated fails at board size 64: the program shifts [1ULL] by 64,
    which C++ leaves undefined, so no run is promised to return. *)
Lemma large_board_64_undefined :
  ~ exists fuel o st, run_main solver_cpp fuel true (Parsed 64) = Ok (o, st).
Proof.
  intros (fuel & o & st & H). cbn [run_main] in H. unfold Solver.main in H.
  change ((64 <? 4) && negb (64 =? 1)) with false in H.
  change (shl_one 64) with (@Undefined Z) in H.
  discriminate H.
Qed.

(** C6, as amended.  A board size [n <= 0] never reaches a recursive call:
    the run is the same with no fuel at all.  src/solver.cpp and part_001
    catch it with the check that catches sizes 2 and 3 and leave through the
    same "No Solution" exit, status 0.  part_000, which checks for 2 and 3
    only, lets size 0 through and writes a summary with no solution, and lets
    a negative size reach the shift [1ULL << boardSize], where the behaviour
    of the program is undefined, before any call of the search.  Only an
    unreadable input is reported as a failure of its own, status 1. *)
Theorem nonpositive_size v fuel tmp n :
  n <= 0 ->
  run_main v fuel tmp (Parsed n) =
    match v with
    | part_000 =>
        if n =? 0
        then Ok (if tmp then Summary 0 0 [] else TempFileError, init_state)
        else Undefined
    | _ => Ok (NoSolution, init_state)
    end /\
  run_main v fuel tmp (Parsed n) = run_main v 0 tmp (Parsed n) /\
  trace init_state = [] /\
  exit_code NoSolution = 0 /\
  run_main v fuel tmp (Parsed 2) = Ok (NoSolution, init_state) /\
  run_main v fuel tmp Unreadable = Ok (InvalidInput, init_state) /\
  exit_code InvalidInput = 1.
Proof.
  intros Hn. destruct v; cbn [run_main].
  - unfold Solver.main.
    destruct (Z.ltb_spec n 4); [|lia]. destruct (Z.eqb_spec n 1); [lia|].
    repeat split.
  - destruct (Z.eqb_spec n 0) as [->|Hz]; [destruct tmp; repeat split|].
    unfold Part000.main.
    destruct (Z.eqb_spec n 2); [lia|]. destruct (Z.eqb_spec n 3); [lia|].
    unfold shl_one. destruct (Z.leb_spec 0 n); [lia|].
    cbn [orb andb bind]. repeat split.
  - unfold Part001.main.
    destruct (Z.ltb_spec n 4); [|lia]. destruct (Z.eqb_spec n 1); [lia|].
    repeat split.
Qed.

Lemma nonpositive_size_witness :
  run_main part_000 7 true (Parsed (-3)) =
    (if -3 =? 0
     then Ok (if true then Summary 0 0 [] else TempFileError, init_state)
     else Undefined) /\
  run_main part_000 7 true (Parsed (-3)) = run_main part_000 0 true (Parsed (-3)) /\
  trace init_state = [] /\
  exit_code NoSolution = 0 /\
  run_main part_000 7 true (Parsed 2) = Ok (NoSolution, init_state) /\
  run_main part_000 7 true Unreadable = Ok (InvalidInput, init_state) /\
  exit_code InvalidInput = 1.
Proof.
  apply (nonpositive_size part_000 7 true (-3)). lia.
Defined.

(** C6 as stated fails at board size 0: src/solver.cpp reports it exactly as
    it reports the unsolvable size 2, with exit status 0. *)
Lemma nonpositive_not_distinct :
  run_main solver_cpp 0 true (Parsed 0) = Ok (NoSolution, init_state) /\
  run_main solver_cpp 0 true (Parsed 0) = run_main solver_cpp 0 true (Parsed 2) /\
  exit_code NoSolution = 0.
Proof. repeat split. Qed.

(** C7, as amended.  Board sizes 2 and 3 leave through the "No Solution" exit
    before any call of the search: nothing counted, nothing written, no call
    made, exit status 0, unlike the status 1 with which a missing argument,
    an unreadable input or a failed temporary file is reported.  A board size
    [m <= 0] is told apart from them only by part_000, where it gives a
    summary or an undefined shift; src/solver.cpp and part_001 send it through
    the same exit, with the same result. *)
Theorem unsolvable_sizes v fuel tmp n :
  n = 2 \/ n = 3 ->
  run_main v fuel tmp (Parsed n) = Ok (NoSolution, init_state) /\
  solutionCount init_state = 0 /\
  tempFile init_state = [] /\
  trace init_state = [] /\
  exit_code NoSolution = 0 /\
  exit_code NoSolution <> exit_code InvalidInput /\
  (forall o, exit_code o = 1 -> o <> NoSolution) /\
  (forall m, m <= 0 -> v <> part_000 ->
     run_main v fuel tmp (Parsed m) = run_main v fuel tmp (Parsed n)) /\
  (forall m, m <= 0 -> v = part_000 ->
     run_main v fuel tmp (Parsed m) <> run_main v fuel tmp (Parsed n)).
Proof.
  intros Hn.
  assert (Hrun : run_main v fuel tmp (Parsed n) = Ok (NoSolution, init_state))
    by (destruct Hn as [-> | ->]; destruct v; reflexivity).
  split; [exact Hrun|]. repeat (split; [first [reflexivity|discriminate]|]).
  split; [intros o Ho ->; discriminate Ho|]. rewrite Hrun. split.
  - intros m Hm Hv. destruct v; [|contradiction|]; cbn [run_main].
    + unfold Solver.main.
      destruct (Z.ltb_spec m 4); [|lia]. destruct (Z.eqb_spec m 1); [lia|].
      reflexivity.
    + unfold Part001.main.
      destruct (Z.ltb_spec m 4); [|lia]. destruct (Z.eqb_spec m 1); [lia|].
      reflexivity.
  - intros m Hm ->. cbn [run_main].
    destruct (Z.eqb_spec m 0) as [->|Hz]; [destruct tmp; discriminate|].
    unfold Part000.main.
    destruct (Z.eqb_spec m 2); [lia|]. destruct (Z.eqb_spec m 3); [lia|].
    unfold shl_one. destruct (Z.leb_spec 0 m); [lia|].
    cbn [orb andb bind]. discriminate.
Qed.

Lemma unsolvable_sizes_witness :
  run_main part_000 0 true (Parsed 3) = Ok (NoSolution, init_state) /\
  solutionCount init_state = 0 /\
  tempFile init_state = [] /\
  trace init_state = [] /\
  exit_code NoSolution = 0 /\
  exit_code NoSolution <> exit_code InvalidInput /\
  (forall o, exit_code o = 1 -> o <> NoSolution) /\
  (forall m, m <= 0 -> part_000 <> part_000 ->
     run_main part_000 0 true (Parsed m) = run_main part_000 0 true (Parsed 3)) /\
  (forall m, m <= 0 -> part_000 = part_000 ->
     run_main part_000 0 true (Parsed m) <> run_main part_000 0 true (Parsed 3)).
Proof.
  apply (unsolvable_sizes part_000 0 true 3). right. reflexivity.
Defined.

(** C7 as stated fails in src/solver.cpp and part_001: a board of size 2 or 3
    is reported exactly as a board of size 0 or less, which the
    specification counts as a precondition failure. *)
Lemma unsolvable_not_distinct :
  ~ (forall v fuel tmp n m,
       n = 2 \/ n = 3 -> m <= 0 ->
       run_main v fuel tmp (Parsed n) <> run_main v fuel tmp (Parsed m)).
Proof.
  intros H. apply (H part_001 0%nat true 3 (-1)); [right; reflexivity|lia|].
  reflexivity.
Qed.

(** C9.  On entry to every recursive call, and after every [pop_back] that
    follows one, the placement vector is as long as the occupied-columns mask
    has bits set; and every call of either search that returns leaves the
    placement vector as it found it. *)
Theorem placement_matches_columns v fuel tmp n o st :
  run_main v fuel tmp (Parsed n) = Ok (o, st) ->
  Forall good_event (trace st) /\
  path st = [] /\
  (forall n' LIMIT f c l r s s',
      plain_search v n' LIMIT f c l r s = Ok s' -> path s' = path s) /\
  (forall n' LIMIT f c l r s s',
      symmetric_search v n' LIMIT f c l r s = Ok s' -> path s' = path s).
Proof.
  intros H. destruct (run_main_sound v fuel tmp n o st H) as (Hok & _).
  split; [apply (run_trace Hok)|]. split; [apply (run_path Hok)|].
  split; intros n' LIMIT f c l r s s'.
  - apply plain_search_path.
  - apply symmetric_search_path.
Qed.

Lemma placement_matches_columns_witness :
  Forall good_event (trace (final (run_main part_001 400 true (Parsed 5)))).
Proof.
  apply (placement_matches_columns part_001 400 true 5
           (outcome_of (run_main part_001 400 true (Parsed 5)))
           (final (run_main part_001 400 true (Parsed 5)))).
  vm_compute. reflexivity.
Defined.

(** C10, as amended.  Called on the empty board, the plain search of part_000
    reports one solution with an empty placement, the mask 0 being the full
    mask; but the program never makes that call: board size 0 runs the
    first-row loop zero times and skips the middle column, and the summary
    carries a count of 0 and no record. *)
Theorem empty_board fuel :
  Part000.backtrack 0 0 (S fuel) 0 0 0 init_state =
    Ok (mkState 1 false [] [[]] [Enter 0 []]) /\
  run_main part_000 fuel true (Parsed 0) = Ok (Summary 0 0 [], init_state).
Proof. split; [reflexivity|apply part000_zero]. Qed.

(** C10 as stated fails: on board size 0 part_000 does not report a count
    of 1. *)
Lemma empty_board_count_not_one :
  ~ exists fuel recs st,
      run_main part_000 fuel true (Parsed 0) = Ok (Summary 0 1 recs, st).
Proof.
  intros (fuel & recs & st & H).
  rewrite part000_zero in H. discriminate H.
Qed.

(** ** Beyond the claims: the search is exhaustive *)

Lemma safe_NoDup (p : list Z) : safe p -> NoDup p.
Proof.
  intros Hs. apply (NoDup_nth p 0). intros i j Hi Hj E.
  destruct (Nat.lt_trichotomy i j) as [H|[H|H]]; [|exact H|].
  - destruct (Hs i j) as [Hne _]; [lia|]. contradiction.
  - destruct (Hs j i) as [Hne _]; [lia|]. symmetry in E. contradiction.
Qed.

(** A placement with a queen in every row has every column taken. *)
Lemma full_cols (n c l r : Z) (p : list Z) :
  0 <= n < 64 -> Inv n c l r p -> length p = Z.to_nat n -> c = Z.ones n.
Proof.
  intros Hn HI Hlen.
  pose proof (inv_range HI) as HF. rewrite Forall_forall in HF.
  assert (Hall : incl (map Z.of_nat (seq 1 (Z.to_nat n))) p).
  { apply NoDup_length_incl.
    - apply safe_NoDup, (inv_safe HI).
    - rewrite length_map, length_seq. lia.
    - intros x Hx. apply HF in Hx. apply in_map_iff.
      exists (Z.to_nat x). split; [lia|]. apply in_seq. lia. }
  apply Z.bits_inj'. intros j Hj.
  rewrite Z.testbit_ones_nonneg by lia.
  destruct (Z.ltb_spec j n) as [Hlt|Hge].
  - apply (inv_cols HI); [exact Hj|]. apply Hall. apply in_map_iff.
    exists (Z.to_nat (j + 1)). split; [lia|]. apply in_seq. lia.
  - destruct (Z.testbit c j) eqn:E; [|reflexivity].
    apply (inv_cols HI) in E; [|exact Hj]. apply HF in E. lia.
Qed.

(** The column a full placement takes in the next row is still free. *)
Lemma next_free (n c l r : Z) (p s : list Z) :
  Inv n c l r p -> completes n p s -> (length p < length s)%nat ->
  let j := nth (length p) s 0 - 1 in
  0 <= j < n /\
  Z.testbit c j = false /\ Z.testbit l j = false /\ Z.testbit r j = false.
Proof.
  intros HI [(Hlen & HF & Hv) [t ->]] Hlt j.
  assert (Hx : 1 <= nth (length p) (p ++ t) 0 <= n)
    by (apply nth_range; assumption).
  assert (Hold : forall i, (i < length p)%nat ->
            nth i (p ++ t) 0 = nth i p 0)
    by (intros i Hi; apply app_nth1; exact Hi).
  assert (Hj : 0 <= j < n) by (subst j; lia).
  split; [exact Hj|]. repeat split.
  - destruct (Z.testbit c j) eqn:E; [|reflexivity]. exfalso.
    apply (inv_cols HI) in E; [|lia].
    apply (In_nth _ _ 0) in E. destruct E as (i & Hi & E).
    destruct (Hv i (length p)) as [Hne _]; [lia|lia|lia|].
    apply Hne. rewrite Hold by exact Hi. subst j. lia.
  - destruct (Z.testbit l j) eqn:E; [|reflexivity]. exfalso.
    apply (inv_left HI) in E; [|exact Hj]. destruct E as (i & Hi & E).
    destruct (Hv i (length p)) as [_ Hne]; [lia|lia|lia|].
    apply Hne. rewrite Hold by exact Hi. subst j. lia.
  - destruct (Z.testbit r j) eqn:E; [|reflexivity]. exfalso.
    apply (inv_right HI) in E; [|lia]. destruct E as (i & Hi & E).
    destruct (Hv i (length p)) as [_ Hne]; [lia|lia|lia|].
    apply Hne. rewrite Hold by exact Hi. subst j. lia.
Qed.

Lemma next_possible (n c l r : Z) (p s : list Z) :
  0 <= n < 64 ->
  Inv n c l r p -> completes n p s -> (length p < length s)%nat ->
  Z.testbit (Z.land (not64 (Z.lor (Z.lor c l) r)) (Z.ones n))
            (nth (length p) s 0 - 1) = true.
Proof.
  intros Hn HI Hc Hlt.
  destruct (next_free n c l r p s HI Hc Hlt) as (Hj & Ec & El & Er).
  rewrite Z.land_spec, not64_spec, !Z.lor_spec, Ec, El, Er by lia.
  rewrite Z.testbit_ones_nonneg by lia.
  destruct (Z.ltb_spec (nth (length p) s 0 - 1) n); [reflexivity|lia].
Qed.

Lemma completes_full (n : Z) (p s : list Z) :
  completes n p s -> length p = Z.to_nat n -> s = p.
Proof.
  intros [(Hlen & _) [t ->]] Hp. rewrite length_app in Hlen.
  destruct t; [apply app_nil_r|cbn [length] in Hlen; lia].
Qed.

Lemma completes_next (n : Z) (p s : list Z) :
  completes n p s -> (length p < length s)%nat ->
  completes n (p ++ [nth (length p) s 0]) s.
Proof.
  intros [Hv [t ->]] Hlt. split; [exact Hv|].
  destruct t as [|x t]; [rewrite app_nil_r in Hlt; lia|].
  rewrite app_nth2, Nat.sub_diag by lia. cbn [nth].
  exists t. rewrite <- app_assoc. reflexivity.
Qed.

Lemma grows_keeps g P st st' s :
  grows g P st st' -> In s (tempFile st) -> In s (tempFile st').
Proof.
  intros (sols & evs & Ht & _) Hin. rewrite Ht. apply in_or_app. left. exact Hin.
Qed.

(** The plain search of part_001 writes every full placement that continues
    the rows it was called with; the loop does so for those whose next column
    is still among the candidates. *)
Lemma part001_solve_complete n LIMIT fuel :
  0 <= n < 64 -> LIMIT = Z.ones n ->
  (forall c l r st st' s,
      Inv n c l r (path st) ->
      Part001.solve n LIMIT fuel c l r st = Ok st' ->
      completes n (path st) s -> In s (tempFile st')) /\
  (forall q c l r st st' s,
      Inv n c l r (path st) -> avail n c l r q ->
      Part001.solve_while n LIMIT fuel q c l r st = Ok st' ->
      completes n (path st) s -> (length (path st) < length s)%nat ->
      Z.testbit q (nth (length (path st)) s 0 - 1) = true ->
      In s (tempFile st')).
Proof.
  intros Hn HL.
  induction fuel as [|fuel [IHs IHw]]; split; try discriminate.
  - intros c l r st st' s HI H Hs.
    rewrite Part001Facts.p1_solve_S in H. cbv zeta in H.
    destruct (Z.eqb_spec c LIMIT) as [Hc|Hc].
    + subst c. rewrite HL in HI.
      destruct (Inv_full n l r (path st) Hn HI) as [Hrow Hval].
      assert (Hlen : length (path st) = Z.to_nat n) by apply Hval.
      rewrite (completes_full n (path st) s Hs Hlen).
      unfold Part001.printSolution in H. cbn [set_count log path] in H.
      rewrite Hrow in H. cbn [bind] in H. injection H as <-.
      cbn [emit tempFile]. apply in_or_app. right. left. reflexivity.
    + assert (Hlt : (length (path st) < length s)%nat).
      { destruct Hs as [(Hlen & _) [t Ht]].
        pose proof (Inv_length_le n c l r (path st) Hn HI) as Hle.
        destruct (Nat.eq_dec (length (path st)) (Z.to_nat n)) as [E|E]; [|lia].
        exfalso. apply Hc. rewrite HL. apply (full_cols n c l r (path st)); auto. }
      refine (IHw _ c l r (log (Enter c (path st)) st) st' s HI _ H Hs Hlt _).
      * rewrite HL. apply avail_start. exact Hn.
      * rewrite HL. apply next_possible; auto.
  - intros q c l r st st' s HI Ha H Hs Hlt Hq.
    rewrite Part001Facts.p1_solve_while_S in H. cbv zeta in H.
    destruct (Z.eqb_spec q 0) as [->|Hq0].
    { rewrite Z.bits_0 in Hq. discriminate. }
    assert (Hq64 : 0 < q < 2 ^ 64).
    { pose proof (avail_lt n c l r q) as Hb. destruct Ha as [Ha0 Ha1].
      split; [lia|]. apply Hb; [lia|split; assumption]. }
    destruct (loop_step n c l r q (path st) Hn HI Ha Hq0) as (HI' & Ha' & _).
    cbv zeta in HI', Ha'.
    destruct (lowbit q Hq64) as (k & Hk & Hbit & Hctz & Hqk & _).
    destruct (Part001.solve n LIMIT fuel _ _ _ _) as [st1| |] eqn:E1;
      try discriminate.
    cbn [bind] in H.
    destruct (proj1 (Part001Facts.p1_solve_sound n LIMIT Hn HL fuel)
                _ _ _ (push_back _ st) st1 HI' E1) as [Hp1 G1].
    assert (Hp2 : path (pop_back st1) = path st)
      by (apply pop_after_push with (1 := Hp1)).
    assert (HI2 : Inv n c l r
              (path (log (Undone c (path (pop_back st1))) (pop_back st1))))
      by (cbn [log path]; rewrite Hp2; exact HI).
    destruct (Z.eq_dec k (nth (length (path st)) s 0 - 1)) as [Ek|Ek].
    + assert (Hin : In s (tempFile st1)).
      { apply (IHs _ _ _ (push_back _ st) st1 s HI' E1).
        cbn [push_back set_path path]. rewrite Hctz, Ek.
        replace (nth (length (path st)) s 0 - 1 + 1)
          with (nth (length (path st)) s 0) by lia.
        apply completes_next; assumption. }
      destruct (proj2 (Part001Facts.p1_solve_sound n LIMIT Hn HL fuel)
                  _ c l r _ st' HI2 Ha' H) as [_ G3].
      apply (grows_keeps _ _ _ _ s G3). exact Hin.
    + apply (IHw _ c l r _ st' s HI2 Ha' H).
      * cbn [log path]. rewrite Hp2. exact Hs.
      * cbn [log path]. rewrite Hp2. exact Hlt.
      * cbn [log path]. rewrite Hp2, Hbit, sub_pow2_spec, Hq by auto.
        apply Z.eqb_neq in Ek. rewrite Ek. reflexivity.
Qed.

(** The symmetric search writes every full placement that continues the rows
    it was called with, and the mirror image of each. *)
Lemma symmetricSolve_complete n LIMIT fuel :
  0 <= n < 64 -> LIMIT = Z.ones n ->
  (forall c l r st st' s,
      Inv n c l r (path st) ->
      Solver.symmetricSolve n LIMIT fuel c l r st = Ok st' ->
      completes n (path st) s ->
      In s (tempFile st') /\ In (mirror n s) (tempFile st')) /\
  (forall q c l r st st' s,
      Inv n c l r (path st) -> avail n c l r q ->
      Solver.symmetricSolve_while n LIMIT fuel q c l r st = Ok st' ->
      completes n (path st) s -> (length (path st) < length s)%nat ->
      Z.testbit q (nth (length (path st)) s 0 - 1) = true ->
      In s (tempFile st') /\ In (mirror n s) (tempFile st')).
Proof.
  intros Hn HL.
  induction fuel as [|fuel [IHs IHw]]; split; try discriminate.
  - intros c l r st st' s HI H Hs.
    rewrite SolverFacts.symmetricSolve_S in H. cbv zeta in H.
    destruct (Z.eqb_spec c LIMIT) as [Hc|Hc].
    + subst c. rewrite HL in HI.
      destruct (Inv_full n l r (path st) Hn HI) as [Hrow Hval].
      assert (Hlen : length (path st) = Z.to_nat n) by apply Hval.
      rewrite (completes_full n (path st) s Hs Hlen).
      unfold Solver.printSolution, Solver.printMirrorSolution in H.
      cbn [set_count log path] in H.
      rewrite Hrow in H. cbn [bind emit set_count log path] in H.
      rewrite Hrow in H. cbn [bind] in H. injection H as <-.
      cbn [emit set_count log tempFile]. rewrite <- app_assoc.
      split; apply in_or_app; right; cbn [app In]; auto.
    + assert (Hlt : (length (path st) < length s)%nat).
      { destruct Hs as [(Hlen & _) [t Ht]].
        pose proof (Inv_length_le n c l r (path st) Hn HI) as Hle.
        destruct (Nat.eq_dec (length (path st)) (Z.to_nat n)) as [E|E]; [|lia].
        exfalso. apply Hc. rewrite HL. apply (full_cols n c l r (path st)); auto. }
      refine (IHw _ c l r (log (Enter c (path st)) st) st' s HI _ H Hs Hlt _).
      * rewrite HL. apply avail_start. exact Hn.
      * rewrite HL. apply next_possible; auto.
  - intros q c l r st st' s HI Ha H Hs Hlt Hq.
    rewrite SolverFacts.symmetricSolve_while_S in H. cbv zeta in H.
    destruct (Z.eqb_spec q 0) as [->|Hq0].
    { rewrite Z.bits_0 in Hq. discriminate. }
    assert (Hq64 : 0 < q < 2 ^ 64).
    { pose proof (avail_lt n c l r q) as Hb. destruct Ha as [Ha0 Ha1].
      split; [lia|]. apply Hb; [lia|split; assumption]. }
    destruct (loop_step n c l r q (path st) Hn HI Ha Hq0) as (HI' & Ha' & _).
    cbv zeta in HI', Ha'.
    destruct (lowbit q Hq64) as (k & Hk & Hbit & Hctz & Hqk & _).
    destruct (Solver.symmetricSolve n LIMIT fuel _ _ _ _) as [st1| |] eqn:E1;
      try discriminate.
    cbn [bind] in H.
    destruct (proj1 (SolverFacts.symmetricSolve_sound n LIMIT Hn HL fuel)
                _ _ _ (push_back _ st) st1 HI' E1) as [Hp1 G1].
    assert (Hp2 : path (pop_back st1) = path st)
      by (apply pop_after_push with (1 := Hp1)).
    assert (HI2 : Inv n c l r
              (path (log (Undone c (path (pop_back st1))) (pop_back st1))))
      by (cbn [log path]; rewrite Hp2; exact HI).
    destruct (Z.eq_dec k (nth (length (path st)) s 0 - 1)) as [Ek|Ek].
    + assert (Hin : In s (tempFile st1) /\ In (mirror n s) (tempFile st1)).
      { apply (IHs _ _ _ (push_back _ st) st1 s HI' E1).
        cbn [push_back set_path path]. rewrite Hctz, Ek.
        replace (nth (length (path st)) s 0 - 1 + 1)
          with (nth (length (path st)) s 0) by lia.
        apply completes_next; assumption. }
      destruct (proj2 (SolverFacts.symmetricSolve_sound n LIMIT Hn HL fuel)
                  _ c l r _ st' HI2 Ha' H) as [_ G3].
      destruct Hin as [Hin1 Hin2].
      split; apply (grows_keeps _ _ _ _ _ G3); assumption.
    + apply (IHw _ c l r _ st' s HI2 Ha' H).
      * cbn [log path]. rewrite Hp2. exact Hs.
      * cbn [log path]. rewrite Hp2. exact Hlt.
      * cbn [log path]. rewrite Hp2, Hbit, sub_pow2_spec, Hq by auto.
        apply Z.eqb_neq in Ek. rewrite Ek. reflexivity.
Qed.

(** The symmetric search never touches the stop flag, nor does the loop over
    the first row. *)
Lemma symmetricSolve_flag n LIMIT fuel :
  (forall c l r st st',
      Solver.symmetricSolve n LIMIT fuel c l r st = Ok st' ->
      stopSearch st' = stopSearch st) /\
  (forall q c l r st st',
      Solver.symmetricSolve_while n LIMIT fuel q c l r st = Ok st' ->
      stopSearch st' = stopSearch st).
Proof.
  induction fuel as [|fuel [IHs IHw]]; split; try discriminate.
  - intros c l r st st' H. rewrite SolverFacts.symmetricSolve_S in H.
    cbv zeta in H.
    destruct (c =? LIMIT).
    + unfold Solver.printSolution, Solver.printMirrorSolution in H.
      destruct (read_row n _) as [row| |]; try discriminate. cbn [bind] in H.
      destruct (read_row n _) as [row'| |]; try discriminate. cbn [bind] in H.
      injection H as <-. reflexivity.
    + apply (IHw _ _ _ _ (log (Enter c (path st)) st) _ H).
  - intros q c l r st st' H. rewrite SolverFacts.symmetricSolve_while_S in H.
    cbv zeta in H.
    destruct (q =? 0); [injection H as <-; reflexivity|].
    destruct (Solver.symmetricSolve n LIMIT fuel _ _ _ _) as [st1| |] eqn:E1;
      try discriminate.
    cbn [bind] in H.
    apply (IHs _ _ _ (push_back _ st)) in E1.
    apply (IHw _ _ _ _ (log _ (pop_back st1))) in H.
    rewrite H. exact E1.
Qed.

Lemma firstHalf_flag n LIMIT fuel todo :
  forall col st st',
    Solver.firstHalf n LIMIT fuel todo col st = Ok st' ->
    stopSearch st' = stopSearch st.
Proof.
  induction todo as [|todo IH]; intros col st st' H.
  { injection H as <-. reflexivity. }
  cbn [Solver.firstHalf] in H.
  destruct (shl_one col) as [bit| |]; try discriminate. cbn [bind] in H.
  destruct (Solver.symmetricSolve n LIMIT fuel _ _ _ _) as [st1| |] eqn:E1;
    try discriminate.
  cbn [bind] in H.
  apply (proj1 (symmetricSolve_flag n LIMIT fuel) _ _ _ (push_back _ st)) in E1.
  apply IH in H. rewrite H. exact E1.
Qed.

(** Below the threshold, and with the stop flag down, the plain search of
    src/solver.cpp is the plain search of part_001. *)
Lemma solver_solve_unflagged n LIMIT fuel c l r st :
  n < 21 -> stopSearch st = false ->
  Solver.solve n LIMIT fuel c l r st = Part001.solve n LIMIT fuel c l r st.
Proof.
  intros Hn Hf.
  rewrite <- (proj1 (Part000Facts.backtrack_small n LIMIT fuel Hn)).
  apply (proj1 (Part000Facts.backtrack_unflagged n LIMIT fuel)). exact Hf.
Qed.

Lemma solveWithSymmetry_agree n LIMIT fuel st :
  1 < n < 21 -> stopSearch st = false ->
  Part001.solveWithSymmetry n LIMIT fuel st =
  Solver.solveWithSymmetry n LIMIT fuel st.
Proof.
  intros Hn Hf. unfold Part001.solveWithSymmetry, Solver.solveWithSymmetry.
  unfold Solver.FIND_ALL_LIMIT.
  destruct (Z.leb_spec n 1); [lia|]. destruct (Z.geb_spec n 21); [lia|].
  cbn [orb]. cbv zeta. rewrite Part001Facts.p1_firstHalf_eq.
  destruct (Solver.firstHalf n LIMIT fuel _ _ _) as [st1| |] eqn:E1;
    try reflexivity.
  cbn [bind]. destruct (Z.rem n 2 =? 1); [|reflexivity].
  destruct (shl_one _) as [bit| |]; try reflexivity. cbn [bind].
  rewrite solver_solve_unflagged; [reflexivity|lia|].
  apply firstHalf_flag in E1. cbn [push_back set_path stopSearch].
  rewrite E1. exact Hf.
Qed.

Lemma mirror_mirror (n : Z) (s : list Z) : mirror n (mirror n s) = s.
Proof.
  unfold mirror. rewrite map_map. rewrite <- (map_id s) at 2.
  apply map_ext. intros x. lia.
Qed.

Lemma hd_mirror (n : Z) (s : list Z) :
  s <> [] -> hd 0 (mirror n s) = n + 1 - hd 0 s.
Proof. destruct s; [contradiction|reflexivity]. Qed.

(** Records are only ever appended. *)
Lemma part001_solve_keeps n LIMIT (s0 : list Z) fuel :
  (forall c l r a b,
      Part001.solve n LIMIT fuel c l r a = Ok b ->
      In s0 (tempFile a) -> In s0 (tempFile b)) /\
  (forall q c l r a b,
      Part001.solve_while n LIMIT fuel q c l r a = Ok b ->
      In s0 (tempFile a) -> In s0 (tempFile b)).
Proof.
  induction fuel as [|f [IHs IHw]]; split; try discriminate.
  - intros c l r a b Hr Ha. rewrite Part001Facts.p1_solve_S in Hr.
    cbv zeta in Hr. destruct (c =? LIMIT).
    + unfold Part001.printSolution in Hr.
      destruct (read_row n _); try discriminate. injection Hr as <-.
      cbn [emit tempFile]. apply in_or_app. left. exact Ha.
    + apply (IHw _ _ _ _ (log (Enter c (path a)) a) _ Hr). exact Ha.
  - intros q c l r a b Hr Ha. rewrite Part001Facts.p1_solve_while_S in Hr.
    cbv zeta in Hr. destruct (q =? 0); [injection Hr as <-; exact Ha|].
    destruct (Part001.solve n LIMIT f _ _ _ _) as [a1| |] eqn:Ea;
      try discriminate.
    cbn [bind] in Hr.
    apply (IHw _ _ _ _ (log _ (pop_back a1)) _ Hr).
    cbn [log pop_back set_path tempFile].
    apply (IHs _ _ _ (push_back _ a) _ Ea). exact Ha.
Qed.

Lemma firstHalf_complete n LIMIT fuel todo :
  0 <= n < 64 -> LIMIT = Z.ones n ->
  forall col st st' s,
    0 <= col -> col + Z.of_nat todo <= Z.quot n 2 -> path st = [] ->
    Solver.firstHalf n LIMIT fuel todo col st = Ok st' ->
    valid_solution n s -> col + 1 <= hd 0 s <= col + Z.of_nat todo ->
    In s (tempFile st') /\ In (mirror n s) (tempFile st').
Proof.
  intros Hn HL.
  destruct (SolverFacts.half_facts n Hn) as (Hh0 & Hh1 & _).
  induction todo as [|todo IH]; intros col st st' s Hcol Hhalf Hp H Hv Hhd.
  { lia. }
  cbn [Solver.firstHalf] in H.
  rewrite shl_one_ok in H by lia. cbn [bind] in H.
  destruct (Solver.symmetricSolve n LIMIT fuel _ _ _ _) as [st1| |] eqn:E1;
    try discriminate.
  cbn [bind] in H.
  assert (HI : Inv n (2 ^ col) (shl1 (2 ^ col)) (shr1 (2 ^ col))
                 (path (push_back (col + 1) st))).
  { cbn [push_back set_path path]. rewrite Hp.
    apply SolverFacts.Inv_first; [exact Hn|lia]. }
  destruct (proj1 (SolverFacts.symmetricSolve_sound n LIMIT Hn HL fuel)
              _ _ _ _ st1 HI E1) as [Hp1 _].
  assert (Hp2 : path (pop_back st1) = path st)
    by (apply pop_after_push with (1 := Hp1)).
  rewrite Hp in Hp2.
  destruct (Z.eq_dec (hd 0 s) (col + 1)) as [Eh|Eh].
  - assert (Hin : In s (tempFile st1) /\ In (mirror n s) (tempFile st1)).
    { apply (proj1 (symmetricSolve_complete n LIMIT fuel Hn HL)
               _ _ _ _ st1 s HI E1).
      cbn [push_back set_path path]. rewrite Hp. split; [exact Hv|].
      destruct s as [|x t]; cbn [hd] in Eh; [lia|]. subst x.
      exists t. reflexivity. }
    destruct (SolverFacts.firstHalf_sound n LIMIT Hn HL fuel todo (col + 1)
                (log (Undone 0 (path (pop_back st1))) (pop_back st1)) st')
      as [_ G]; [lia|lia|exact Hp2|exact H|].
    destruct Hin as [Hin1 Hin2].
    split; apply (grows_keeps _ _ _ _ _ G); assumption.
  - apply (IH (col + 1)
               (log (Undone 0 (path (pop_back st1))) (pop_back st1)) st' s);
      [lia|lia|exact Hp2|exact H|exact Hv|lia].
Qed.

(** On a small board the symmetric entry point of src/solver.cpp writes every
    full placement. *)
Lemma solver_symmetry_complete n LIMIT fuel st st' s :
  0 <= n < 64 -> LIMIT = Z.ones n -> 1 <= n < 21 ->
  stopSearch st = false ->
  Solver.solveWithSymmetry n LIMIT fuel st = Ok st' ->
  valid_solution n s -> In s (tempFile st').
Proof.
  intros Hn HL Hsmall Hf H Hv.
  destruct (SolverFacts.half_facts n Hn) as (Hh0 & Hh1 & Hh2).
  unfold Solver.solveWithSymmetry, Solver.FIND_ALL_LIMIT in H.
  destruct (Z.geb_spec n 21); [lia|]. cbv zeta in H.
  destruct (Solver.firstHalf n LIMIT fuel _ _ _) as [st1| |] eqn:E1;
    try discriminate.
  cbn [bind] in H.
  destruct (SolverFacts.firstHalf_sound n LIMIT Hn HL fuel
              (Z.to_nat (Z.quot n 2)) 0 (set_path [] st) st1) as [Hp1 _];
    [lia|lia|reflexivity|exact E1|].
  assert (Hf1 : stopSearch st1 = false)
    by (apply firstHalf_flag in E1; rewrite E1; exact Hf).
  assert (Hne : s <> []).
  { destruct Hv as (Hlen & _). destruct s; [cbn in Hlen; lia|discriminate]. }
  assert (Hx : 1 <= hd 0 s <= n).
  { destruct Hv as (_ & HF & _). destruct s as [|x t]; [contradiction|].
    inversion HF; subst. assumption. }
  assert (Hfirst : forall s0, valid_solution n s0 ->
            1 <= hd 0 s0 <= Z.quot n 2 ->
            In s0 (tempFile st1) /\ In (mirror n s0) (tempFile st1)).
  { intros s0 Hv0 Hh. 
    apply (firstHalf_complete n LIMIT fuel (Z.to_nat (Z.quot n 2)) Hn HL
             0 (set_path [] st) st1 s0); auto; lia. }
  assert (Hkeep : forall s0, In s0 (tempFile st1) -> In s0 (tempFile st')).
  { intros s0 Hin. destruct (Z.rem n 2 =? 1).
    - destruct (shl_one _) as [bit| |]; try discriminate. cbn [bind] in H.
      destruct (Solver.solve n LIMIT fuel _ _ _ _) as [st2| |] eqn:E2;
        try discriminate.
      cbn [bind] in H. injection H as <-.
      cbn [log pop_back set_path tempFile].
      rewrite solver_solve_unflagged in E2 by (auto; lia).
      apply (proj1 (part001_solve_keeps n LIMIT s0 fuel) _ _ _ _ _ E2).
      exact Hin.
    - injection H as <-. exact Hin. }
  destruct (Z_le_gt_dec (hd 0 s) (Z.quot n 2)) as [Hlow|Hhigh].
  - apply Hkeep. apply Hfirst; [exact Hv|lia].
  - destruct (Z.eq_dec (hd 0 s) (Z.quot n 2 + 1)) as [Emid|Emid].
    + destruct (Z.eqb_spec (Z.rem n 2) 1) as [Hodd|Heven].
      * rewrite shl_one_ok in H by lia. cbn [bind] in H.
        destruct (Solver.solve n LIMIT fuel _ _ _ _) as [st2| |] eqn:E2;
          try discriminate.
        cbn [bind] in H. injection H as <-.
        cbn [log pop_back set_path tempFile].
        rewrite solver_solve_unflagged in E2 by (auto; lia).
        assert (HI : Inv n (2 ^ Z.quot n 2) (shl1 (2 ^ Z.quot n 2))
                       (shr1 (2 ^ Z.quot n 2))
                       (path (push_back (Z.quot n 2 + 1) st1))).
        { cbn [push_back set_path path]. rewrite Hp1.
          apply SolverFacts.Inv_first; [exact Hn|lia]. }
        apply (proj1 (part001_solve_complete n LIMIT fuel Hn HL)
                 _ _ _ _ st2 s HI E2).
        cbn [push_back set_path path]. rewrite Hp1. split; [exact Hv|].
        destruct s as [|x t]; [contradiction|]. cbn [hd] in Emid. subst x.
        exists t. reflexivity.
      * assert (Hev : Z.rem n 2 = 0).
        { rewrite Z.rem_mod_nonneg in * by lia.
          pose proof (Z.mod_pos_bound n 2). lia. }
        assert (Hn2 : n = 2 * Z.quot n 2).
        { pose proof (Z.quot_rem' n 2). lia. }
        rewrite <- (mirror_mirror n s). apply Hkeep.
        apply Hfirst; [apply mirror_valid, Hv|].
        rewrite hd_mirror by exact Hne. lia.
    + assert (Hbound : n <= 2 * Z.quot n 2 + 1).
      { pose proof (Z.quot_rem' n 2).
        rewrite Z.rem_mod_nonneg in * by lia.
        pose proof (Z.mod_pos_bound n 2). lia. }
      rewrite <- (mirror_mirror n s). apply Hkeep.
      apply Hfirst; [apply mirror_valid, Hv|].
      rewrite hd_mirror by exact Hne. lia.
Qed.

Lemma part001_symmetry_complete n LIMIT fuel st st' s :
  0 <= n < 64 -> LIMIT = Z.ones n -> 1 <= n ->
  stopSearch st = false ->
  Part001.solveWithSymmetry n LIMIT fuel st = Ok st' ->
  valid_solution n s -> In s (tempFile st').
Proof.
  intros Hn HL Hpos Hf H Hv.
  assert (Hcase : 1 < n < 21 \/ (n <= 1 \/ n >= 21)) by lia.
  destruct Hcase as [Hs|Hb].
  - rewrite solveWithSymmetry_agree in H by assumption.
    apply (solver_symmetry_complete n LIMIT fuel st st' s); auto. lia.
  - unfold Part001.solveWithSymmetry in H.
    destruct (Z.leb_spec n 1); destruct (Z.geb_spec n 21);
      cbn [orb] in H; try lia.
    all: apply (proj1 (part001_solve_complete n LIMIT fuel Hn HL)
                  _ _ _ (set_path [] st) st' s (Inv_empty n) H).
    all: split; [exact Hv|exists s; reflexivity].
Qed.

(** Board sizes 2 and 3 have no full non-attacking placement: the search,
    which would find one, finds none. *)
Lemma no_placement_2_3 (n : Z) (s : list Z) :
  n = 2 \/ n = 3 -> ~ valid_solution n s.
Proof.
  intros Hn Hv.
  assert (H : exists st',
             Part001.solve n (Z.ones n) 100 0 0 0 init_state = Ok st' /\
             tempFile st' = []).
  { destruct Hn as [-> | ->]; eexists; split; vm_compute; reflexivity. }
  destruct H as (st' & H & Ht).
  assert (Hin : In s (tempFile st')).
  { apply (proj1 (part001_solve_complete n (Z.ones n) 100 ltac:(lia) eq_refl)
             _ _ _ init_state st' s (Inv_empty n) H).
    split; [exact Hv|exists s; reflexivity]. }
  rewrite Ht in Hin. exact Hin.
Qed.

Lemma run_main_complete v fuel n o st s :
  run_main v fuel true (Parsed n) = Ok (o, st) ->
  1 <= n -> (v = solver_cpp -> n < 21) ->
  valid_solution n s -> In s (tempFile st).
Proof.
  intros H Hpos Hcap Hv.
  destruct (Z.eq_dec n 2) as [E2|N2];
    [exfalso; apply (no_placement_2_3 n s); auto|].
  destruct (Z.eq_dec n 3) as [E3|N3];
    [exfalso; apply (no_placement_2_3 n s); auto|].
  destruct v; cbn [run_main] in H.
  - unfold Solver.main in H.
    destruct (Z.ltb_spec n 4); destruct (Z.eqb_spec n 1);
      cbn [andb negb] in H; try lia.
    all: destruct (shl_one n) as [one| |] eqn:E1; try discriminate.
    all: apply limit_ones in E1; destruct E1 as [Hk HL]; cbn [bind] in H.
    all: destruct (Solver.solveWithSymmetry n _ fuel init_state)
           as [st'| |] eqn:E; try discriminate.
    all: cbn [bind] in H; injection H as <- <-.
    all: apply (solver_symmetry_complete n _ fuel init_state st' s Hk HL);
           auto; specialize (Hcap eq_refl); lia.
  - unfold Part000.main in H.
    destruct (Z.eqb_spec n 2); [lia|]. destruct (Z.eqb_spec n 3); [lia|].
    cbn [orb] in H.
    destruct (shl_one n) as [one| |] eqn:E1; try discriminate.
    apply limit_ones in E1. destruct E1 as [Hk HL]. cbn [bind] in H.
    destruct (Part000.solveWithSymmetry n _ fuel init_state)
      as [st'| |] eqn:E; try discriminate.
    cbn [bind] in H. injection H as <- <-.
    destruct (Z.lt_ge_cases n 21) as [Hs|Hb].
    + rewrite Part000Facts.p0_solveWithSymmetry_small in E by exact Hs.
      apply (solver_symmetry_complete n _ fuel init_state st' s Hk HL);
        auto; lia.
    + rewrite Part000Facts.p0_solveWithSymmetry_large in E
        by (unfold Part000.ENUMERATION_LIMIT; try reflexivity; lia).
      apply (part001_symmetry_complete n _ fuel init_state st' s Hk HL); auto.
  - unfold Part001.main in H.
    destruct (Z.ltb_spec n 4); destruct (Z.eqb_spec n 1);
      cbn [andb negb] in H; try lia.
    all: destruct (shl_one n) as [one| |] eqn:E1; try discriminate.
    all: apply limit_ones in E1; destruct E1 as [Hk HL]; cbn [bind] in H.
    all: destruct (Part001.solveWithSymmetry n _ fuel init_state)
           as [st'| |] eqn:E; try discriminate.
    all: cbn [bind] in H; injection H as <- <-.
    all: apply (part001_symmetry_complete n _ fuel init_state st' s Hk HL);
           auto.
Qed.

(** X1.  Exhaustive search.  On a board of size [n >= 1] (below 21 for
    src/solver.cpp, whose cap cuts larger boards short) the records a run
    leaves in the temporary file are exactly the full non-attacking
    placements of [n] queens: each record is one, and each one is a record. *)
Theorem search_exhaustive v fuel n o st s :
  run_main v fuel true (Parsed n) = Ok (o, st) ->
  1 <= n -> (v = solver_cpp -> n < 21) ->
  (In s (tempFile st) <-> valid_solution n s).
Proof.
  intros H Hpos Hcap. split.
  - intros Hin.
    destruct (run_main_sound v fuel true n o st H) as (Hok & _).
    pose proof (run_valid Hok) as Hv. rewrite Forall_forall in Hv.
    apply Hv. exact Hin.
  - apply (run_main_complete v fuel n o st s H Hpos Hcap).
Qed.

Lemma search_exhaustive_witness :
  In [2; 4; 6; 1; 3; 5]
     (tempFile (final (run_main solver_cpp 500 true (Parsed 6)))) <->
  valid_solution 6 [2; 4; 6; 1; 3; 5].
Proof.
  apply (search_exhaustive solver_cpp 500 6
           (outcome_of (run_main solver_cpp 500 true (Parsed 6)))
           (final (run_main solver_cpp 500 true (Parsed 6)))).
  - vm_compute. reflexivity.
  - lia.
  - intros _. lia.
Defined.

(** X2.  The short-circuit for sizes 2 and 3 is justified: no full
    non-attacking placement exists on those boards. *)
Theorem sizes_2_3_unsolvable (n : Z) (s : list Z) :
  n = 2 \/ n = 3 -> ~ valid_solution n s.
Proof. apply no_placement_2_3. Qed.

Lemma sizes_2_3_unsolvable_witness : ~ valid_solution 3 [1; 3; 2].
Proof. apply (sizes_2_3_unsolvable 3 [1; 3; 2]). right. reflexivity. Defined.

(** ** The buffered output, byte by byte *)

Module SinkFacts.
Import Sink.

Lemma contents_flush (b : buffer) : contents (flushBuffer b) = contents b.
Proof.
  unfold flushBuffer, contents. destruct (0 <? bufferPos b); [|reflexivity].
  cbn [written outBuffer]. apply app_nil_r.
Qed.

Lemma bufferPos_flush (b : buffer) : bufferPos (flushBuffer b) = 0.
Proof.
  unfold flushBuffer. destruct (Z.ltb_spec 0 (bufferPos b)); [reflexivity|].
  unfold bufferPos in *. lia.
Qed.

Lemma store_all_ok (cs : list Z) :
  forall b, bufferPos b + Z.of_nat (length cs) <= BUFFER_SIZE ->
    store_all cs b = Ok (mkBuffer (written b) (outBuffer b ++ cs)).
Proof.
  induction cs as [|c cs IH]; intros b Hb.
  - cbn [store_all]. rewrite app_nil_r. destruct b. reflexivity.
  - cbn [store_all length] in *. unfold store.
    destruct (Z.ltb_spec (bufferPos b) BUFFER_SIZE); [|lia].
    cbn [bind]. rewrite IH.
    + cbn [written outBuffer]. rewrite <- app_assoc. reflexivity.
    + unfold bufferPos in *. cbn [outBuffer].
      rewrite length_app. cbn [length]. lia.
Qed.

Lemma quot10_small (x : Z) : 0 <= x < 10 -> Z.quot x 10 = 0.
Proof. intros H. apply Z.quot_small. exact H. Qed.

Lemma quot10_bound (x : Z) (room : nat) :
  0 <= x < 10 ^ Z.of_nat (S room) -> 0 <= Z.quot x 10 < 10 ^ Z.of_nat room.
Proof.
  intros [H0 H1]. rewrite Z.quot_div_nonneg by lia.
  rewrite Nat2Z.inj_succ, Z.pow_succ_r in H1 by lia.
  split; [apply Z.div_pos; lia|].
  apply Z.div_lt_upper_bound; lia.
Qed.

Lemma fill_temp_digits (room : nat) :
  forall x temp, 0 <= x < 10 ^ Z.of_nat (S room) ->
    fill_temp (S room) x temp = Ok (temp ++ rev (digits (S room) x)).
Proof.
  induction room as [|room IH]; intros x temp Hx.
  - cbn [fill_temp digits]. rewrite quot10_small by (cbn in Hx; lia).
    reflexivity.
  - change (fill_temp (S (S room)) x temp) with
      (let temp0 := temp ++ [48 + Z.rem x 10] in
       if Z.quot x 10 =? 0 then Ok temp0
       else fill_temp (S room) (Z.quot x 10) temp0).
    change (digits (S (S room)) x) with
      ((if Z.quot x 10 =? 0 then [] else digits (S room) (Z.quot x 10))
       ++ [48 + Z.rem x 10]).
    cbv zeta. rewrite rev_app_distr. cbn [rev app].
    destruct (Z.eqb_spec (Z.quot x 10) 0) as [E|E].
    + reflexivity.
    + rewrite IH by (apply quot10_bound; exact Hx).
      rewrite <- app_assoc. reflexivity.
Qed.

Lemma digits_length (room : nat) :
  forall x, (1 <= length (digits room x) <= room)%nat \/ room = 0%nat.
Proof.
  induction room as [|room IH]; intros x; [right; reflexivity|left].
  cbn [digits]. rewrite length_app. cbn [length].
  destruct (Z.quot x 10 =? 0); cbn [length]; [lia|].
  destruct (IH (Z.quot x 10)) as [H|H]; [lia|]. subst room. cbn. lia.
Qed.

Lemma digits_are_digits (room : nat) :
  forall x, 0 <= x -> Forall (fun d => 48 <= d <= 57) (digits room x).
Proof.
  induction room as [|room IH]; intros x Hx; [constructor|].
  cbn [digits]. apply Forall_app. split.
  - destruct (Z.quot x 10 =? 0); [constructor|].
    apply IH. apply Z.quot_pos; lia.
  - constructor; [|constructor].
    rewrite Z.rem_mod_nonneg by lia.
    pose proof (Z.mod_pos_bound x 10). lia.
Qed.

Lemma decode_digits_snoc (ds : list Z) (d : Z) :
  decode_digits (ds ++ [d]) = 10 * decode_digits ds + (d - 48).
Proof. unfold decode_digits. rewrite fold_left_app. reflexivity. Qed.

(** Reading the digits back gives the number. *)
Lemma decode_digits_of (room : nat) :
  forall x, 0 <= x < 10 ^ Z.of_nat room -> decode_digits (digits room x) = x.
Proof.
  induction room as [|room IH]; intros x Hx.
  - cbn in Hx. cbn. lia.
  - cbn [digits]. rewrite decode_digits_snoc.
    pose proof (Z.quot_rem' x 10) as Hqr.
    destruct (Z.eqb_spec (Z.quot x 10) 0) as [E|E].
    + change (decode_digits []) with 0. lia.
    + rewrite IH by (apply quot10_bound; exact Hx). lia.
Qed.

Lemma writeInt_ok (x : Z) (b : buffer) :
  0 <= x < 10 ^ 16 -> bufferPos b <= BUFFER_SIZE ->
  exists b',
    writeInt x b = Ok b' /\
    contents b' = contents b ++ digits TEMP_SIZE x /\
    bufferPos b' <= BUFFER_SIZE - 2.
Proof.
  intros Hx Hb. unfold writeInt.
  unfold TEMP_SIZE. rewrite fill_temp_digits by exact Hx.
  cbn [bind app]. cbv zeta.
  rewrite length_rev, rev_involutive.
  destruct (digits_length TEMP_SIZE x) as [Hlen|Hlen]; [|discriminate].
  unfold TEMP_SIZE in *.
  destruct (Z.geb_spec (bufferPos b + Z.of_nat (length (digits 16 x)) + 1)
                       BUFFER_SIZE) as [Hfull|Hroom].
  - rewrite store_all_ok
      by (rewrite bufferPos_flush; unfold BUFFER_SIZE; lia).
    eexists. split; [reflexivity|]. split.
    + unfold contents at 1. cbn [written outBuffer].
      rewrite app_assoc. f_equal. apply contents_flush.
    + unfold bufferPos at 1. cbn [outBuffer]. rewrite length_app.
      pose proof (bufferPos_flush b) as Hz. unfold bufferPos in Hz.
      unfold BUFFER_SIZE. lia.
  - rewrite store_all_ok by lia.
    eexists. split; [reflexivity|]. split.
    + unfold contents. cbn [written outBuffer]. apply app_assoc.
    + unfold bufferPos in *. cbn [outBuffer]. rewrite length_app. lia.
Qed.

Lemma write_byte_ok (c : Z) (b : buffer) :
  bufferPos b <= BUFFER_SIZE ->
  exists b',
    store c (if bufferPos b >=? BUFFER_SIZE then flushBuffer b else b) = Ok b' /\
    contents b' = contents b ++ [c] /\
    bufferPos b' <= BUFFER_SIZE /\
    (bufferPos b < BUFFER_SIZE -> bufferPos b' = bufferPos b + 1).
Proof.
  intros Hb.
  destruct (Z.geb_spec (bufferPos b) BUFFER_SIZE) as [Hfull|Hroom].
  - unfold store. rewrite bufferPos_flush. cbn.
    eexists. split; [reflexivity|]. split; [|split].
    + unfold contents at 1. cbn [written outBuffer].
      rewrite app_assoc. f_equal. apply contents_flush.
    + unfold bufferPos at 1. cbn [outBuffer]. rewrite length_app.
      pose proof (bufferPos_flush b) as Hz. unfold bufferPos in Hz.
      cbn [length]. unfold BUFFER_SIZE. lia.
    + lia.
  - unfold store. destruct (Z.ltb_spec (bufferPos b) BUFFER_SIZE); [|lia].
    eexists. split; [reflexivity|]. split; [|split].
    + unfold contents. cbn [written outBuffer]. apply app_assoc.
    + unfold bufferPos in *. cbn [outBuffer]. rewrite length_app.
      cbn [length]. lia.
    + intros _. unfold bufferPos in *. cbn [outBuffer]. rewrite length_app.
      cbn [length]. lia.
Qed.

Lemma row_bytes_cons (x : Z) (rest : list Z) :
  rest <> [] ->
  row_bytes (x :: rest) = digits TEMP_SIZE x ++ [32] ++ row_bytes rest.
Proof. destruct rest; [contradiction|reflexivity]. Qed.

(** The loop of [printSolution] from row [i] on, when the rows left are
    [row]: their numbers, single spaces between them, no space at the end. *)
Lemma printSolution_for_ok (N : Z) (p : list Z) (row : list Z) :
  forall (i : Z) (b : buffer),
    0 <= i -> i + Z.of_nat (length row) = N ->
    skipn (Z.to_nat i) p = row ++ skipn (Z.to_nat N) p ->
    Forall (fun x => 0 <= x < 10 ^ 16) row ->
    bufferPos b <= BUFFER_SIZE ->
    exists b',
      printSolution_for N (length row) i p b = Ok b' /\
      contents b' ++ [10] = contents b ++ row_bytes row /\
      bufferPos b' <= BUFFER_SIZE /\
      (row <> [] -> bufferPos b' <= BUFFER_SIZE - 2).
Proof.
  induction row as [|x row IH]; intros i b Hi HN Hskip HF Hb.
  - exists b. cbn [length printSolution_for row_bytes].
    repeat split; auto. intros H. contradiction.
  - cbn [length printSolution_for].
    assert (Hnth : nth_error p (Z.to_nat i) = Some x).
    { rewrite <- (Nat.add_0_r (Z.to_nat i)), <- nth_error_skipn, Hskip.
      reflexivity. }
    rewrite Hnth.
    pose proof (Forall_inv HF) as Hx. pose proof (Forall_inv_tail HF) as HF'.
    cbv beta in Hx.
    destruct (writeInt_ok x b Hx Hb) as (b1 & E1 & C1 & P1).
    rewrite E1. cbn [bind].
    cbn [length] in HN. rewrite Nat2Z.inj_succ in HN.
    assert (Hskip' : skipn (Z.to_nat (i + 1)) p = row ++ skipn (Z.to_nat N) p).
    { replace (Z.to_nat (i + 1)) with (1 + Z.to_nat i)%nat by lia.
      rewrite <- skipn_skipn, Hskip. reflexivity. }
    destruct row as [|y row].
    + destruct (Z.ltb_spec i (N - 1)); [cbn [length] in *; lia|].
      cbn [bind length printSolution_for].
      exists b1. split; [reflexivity|]. split; [|split].
      * rewrite C1. cbn [row_bytes]. rewrite app_assoc. reflexivity.
      * unfold BUFFER_SIZE in *. lia.
      * intros _. exact P1.
    + destruct (Z.ltb_spec i (N - 1)); [|cbn [length] in *; lia].
      destruct (write_byte_ok 32 b1) as (b2 & E2 & C2 & P2 & _);
        [unfold BUFFER_SIZE in *; lia|].
      unfold writeSpace. cbv zeta. rewrite E2. cbn [bind].
      destruct (IH (i + 1) b2) as (b3 & E3 & C3 & P3 & Q3);
        [lia|lia|exact Hskip'|exact HF'|exact P2|].
      exists b3. split; [exact E3|]. split; [|split].
      * rewrite C3, C2, C1, (row_bytes_cons x (y :: row)) by discriminate.
        rewrite <- !app_assoc. reflexivity.
      * exact P3.
      * intros _. apply Q3. discriminate.
Qed.

Lemma decode_row_digits (ds rest : list Z) :
  Forall (fun d => 48 <= d <= 57) ds ->
  forall cur,
    decode_row (ds ++ rest) cur =
    decode_row rest (fold_left (fun a d => 10 * a + (d - 48)) ds cur).
Proof.
  induction 1 as [|d ds Hd _ IH]; intros cur; [reflexivity|].
  cbn [app decode_row fold_left].
  destruct (Z.eqb_spec d 10); [lia|]. destruct (Z.eqb_spec d 32); [lia|].
  apply IH.
Qed.

(** Reading a written line back gives the row. *)
Lemma decode_row_bytes (row : list Z) :
  row <> [] -> Forall (fun x => 0 <= x < 10 ^ 16) row ->
  forall rest, decode_row (row_bytes row ++ rest) 0 = (row, rest).
Proof.
  induction row as [|x row IH]; intros Hne HF rest; [contradiction|].
  inversion HF as [|? ? Hx HF']; subst.
  assert (Hd : fold_left (fun a d => 10 * a + (d - 48)) (digits TEMP_SIZE x) 0
               = x) by (apply (decode_digits_of TEMP_SIZE); exact Hx).
  destruct row as [|y row].
  - cbn [row_bytes]. rewrite <- app_assoc.
    rewrite decode_row_digits by (apply digits_are_digits; lia).
    rewrite Hd. reflexivity.
  - rewrite row_bytes_cons by discriminate. rewrite <- !app_assoc.
    rewrite decode_row_digits by (apply digits_are_digits; lia).
    rewrite Hd. cbn [app decode_row]. change (32 =? 10) with false.
    change (32 =? 32) with true. cbv iota.
    rewrite IH by (auto; discriminate). reflexivity.
Qed.

Lemma printMirrorSolution_for_eq (N : Z) (p : list Z) (todo : nat) :
  forall i b,
    printMirrorSolution_for N todo i p b =
    printSolution_for N todo i (mirror N p) b.
Proof.
  induction todo as [|todo IH]; intros i b; [reflexivity|].
  cbn [printMirrorSolution_for printSolution_for].
  unfold mirror at 1. rewrite nth_error_map.
  destruct (nth_error p (Z.to_nat i)) as [x|]; [|reflexivity].
  cbn [option_map].
  destruct (writeInt (N + 1 - x) b) as [b1| |]; try reflexivity. cbn [bind].
  destruct (if i <? N - 1 then writeSpace b1 else Ok b1) as [b2| |];
    try reflexivity.
  cbn [bind]. apply IH.
Qed.

End SinkFacts.

(** ** Beyond the claims: further properties of the three programs *)

(** The stop flag of src/solver.cpp goes up only once the counter has reached
    the cap. *)
Lemma solver_solve_flag_count n LIMIT fuel :
  (forall c l r st st',
      (stopSearch st = true -> Solver.MAX_SOLUTIONS_LARGE_N <= solutionCount st) ->
      Solver.solve n LIMIT fuel c l r st = Ok st' ->
      (stopSearch st' = true -> Solver.MAX_SOLUTIONS_LARGE_N <= solutionCount st')) /\
  (forall q c l r st st',
      (stopSearch st = true -> Solver.MAX_SOLUTIONS_LARGE_N <= solutionCount st) ->
      Solver.solve_while n LIMIT fuel q c l r st = Ok st' ->
      (stopSearch st' = true -> Solver.MAX_SOLUTIONS_LARGE_N <= solutionCount st')).
Proof.
  induction fuel as [|fuel [IHs IHw]]; split; try discriminate.
  - intros c l r st st' HJ H. rewrite SolverFacts.solve_S in H. cbv zeta in H.
    cbn [log stopSearch] in H.
    destruct (stopSearch (log (Enter c (path st)) st)) eqn:Es.
    { cbn [log stopSearch] in Es. rewrite Es in H. injection H as <-.
      exact HJ. }
    cbn [log stopSearch] in Es. rewrite Es in H.
    destruct (c =? LIMIT).
    + unfold Solver.printSolution in H.
      destruct (read_row n _) as [row| |]; try discriminate.
      cbn [bind emit set_count log solutionCount] in H.
      unfold Solver.MAX_SOLUTIONS_LARGE_N in *.
      destruct (n >=? Solver.FIND_ALL_LIMIT);
        destruct (Z.geb_spec (solutionCount st + 1) 1000);
        cbn [andb] in H; injection H as <-;
        cbn [set_stop emit set_count log solutionCount stopSearch];
        intros E; try (rewrite Es in E; discriminate E); lia.
    + apply (IHw _ _ _ _ (log (Enter c (path st)) st) _ HJ H).
  - intros q c l r st st' HJ H. rewrite SolverFacts.solve_while_S in H.
    cbv zeta in H.
    destruct (q =? 0); [injection H as <-; exact HJ|].
    destruct (stopSearch (pop_back st)) eqn:Es;
      cbn [pop_back set_path stopSearch] in Es; rewrite Es in H;
      [injection H as <-; exact HJ|].
    destruct (Solver.solve n LIMIT fuel _ _ _ _) as [st1| |] eqn:E1;
      try discriminate.
    cbn [bind] in H.
    pose proof (IHs _ _ _ (push_back _ st) st1 HJ E1) as HJ1.
    apply (IHw _ _ _ _ (log _ (pop_back st1)) _ HJ1 H).
Qed.

Lemma solver_small_flag n LIMIT fuel st st' :
  n < 21 -> stopSearch st = false ->
  Solver.solveWithSymmetry n LIMIT fuel st = Ok st' -> stopSearch st' = false.
Proof.
  intros Hn Hf H. unfold Solver.solveWithSymmetry, Solver.FIND_ALL_LIMIT in H.
  destruct (Z.geb_spec n 21); [lia|]. cbv zeta in H.
  destruct (Solver.firstHalf n LIMIT fuel _ _ _) as [st1| |] eqn:E1;
    try discriminate.
  cbn [bind] in H. apply firstHalf_flag in E1. cbn [set_path stopSearch] in E1.
  destruct (Z.rem n 2 =? 1); [|injection H as <-; congruence].
  destruct (shl_one _) as [bit| |]; try discriminate. cbn [bind] in H.
  destruct (Solver.solve n LIMIT fuel _ _ _ _) as [st2| |] eqn:E2;
    try discriminate.
  cbn [bind] in H. injection H as <-.
  rewrite solver_solve_unflagged in E2
    by (auto; cbn [push_back set_path stopSearch]; congruence).
  apply (proj1 (Part001Facts.solve_flag n LIMIT fuel)) in E2.
  cbn [log pop_back set_path stopSearch]. rewrite E2.
  cbn [push_back set_path stopSearch]. congruence.
Qed.

(** X3.  In src/solver.cpp the stop flag is up at the end of a run exactly
    when the board is at least 21 wide and the counter stands at the cap of
    1000: below the threshold the flag is never raised, and on a large board
    the search stops at the thousandth solution, not before and not after. *)
Theorem stop_flag_exact fuel tmp n o st :
  run_main solver_cpp fuel tmp (Parsed n) = Ok (o, st) ->
  (stopSearch st = true <-> 21 <= n /\ solutionCount st = 1000).
Proof.
  cbn [run_main]. intros H.
  destruct (SolverFacts.main_sound fuel tmp n o st H) as (_ & _ & Hcap & _).
  unfold Solver.main in H.
  destruct ((n <? 4) && negb (n =? 1)).
  { injection H as <- <-. cbn. split; [discriminate|lia]. }
  destruct (shl_one n) as [one| |]; try discriminate. cbn [bind] in H.
  destruct tmp; cbn [negb] in H;
    [|injection H as <- <-; cbn; split; [discriminate|lia]].
  destruct (Solver.solveWithSymmetry n _ fuel init_state) as [st'| |] eqn:E;
    try discriminate.
  cbn [bind] in H. injection H as <- <-.
  destruct (Z.lt_ge_cases n 21) as [Hs|Hb].
  - rewrite (solver_small_flag n _ fuel init_state st' Hs eq_refl E).
    split; [discriminate|lia].
  - destruct Hcap as [Hc1 Hc2]; [unfold Solver.FIND_ALL_LIMIT; lia|].
    unfold Solver.MAX_SOLUTIONS_LARGE_N in *.
    assert (HJ : stopSearch st' = true -> 1000 <= solutionCount st').
    { unfold Solver.solveWithSymmetry, Solver.FIND_ALL_LIMIT in E.
      destruct (Z.geb_spec n 21); [|lia].
      apply (proj1 (solver_solve_flag_count n ((one - 1) mod modulus) fuel)
               0 0 0 (set_path [] init_state) st'); [discriminate|exact E]. }
    split.
    + intros Et. split; [lia|]. specialize (HJ Et). lia.
    + intros [_ Ec]. destruct (stopSearch st'); [reflexivity|].
      specialize (Hc2 eq_refl). lia.
Qed.

Lemma stop_flag_exact_witness :
  stopSearch (final (run_main solver_cpp 500 true (Parsed 6))) = true <->
  21 <= 6 /\
  solutionCount (final (run_main solver_cpp 500 true (Parsed 6))) = 1000.
Proof.
  apply (stop_flag_exact 500 true 6
           (outcome_of (run_main solver_cpp 500 true (Parsed 6)))).
  vm_compute. reflexivity.
Defined.

(** X4.  The counter is the number of records: at the end of any run the
    solution count equals the number of lines in the temporary file, and the
    summary carries the board size, that count and those records. *)
Theorem summary_counts_records v fuel tmp n o st :
  run_main v fuel tmp (Parsed n) = Ok (o, st) ->
  solutionCount st = Z.of_nat (length (tempFile st)) /\
  forall k c recs, o = Summary k c recs ->
    k = n /\ c = Z.of_nat (length recs) /\ recs = tempFile st.
Proof.
  intros H. destruct (run_main_sound v fuel tmp n o st H) as (Hok & _ & Ho).
  pose proof (run_count Hok) as Hc. split; [exact Hc|].
  intros k c recs E. subst o.
  destruct Ho as [Ho|[Ho|Ho]]; try discriminate.
  injection Ho as -> -> ->. auto.
Qed.

Lemma summary_counts_records_witness :
  solutionCount (final (run_main part_000 500 true (Parsed 6))) =
  Z.of_nat (length (tempFile (final (run_main part_000 500 true (Parsed 6))))) /\
  forall k c recs,
    outcome_of (run_main part_000 500 true (Parsed 6)) = Summary k c recs ->
    k = 6 /\ c = Z.of_nat (length recs) /\
    recs = tempFile (final (run_main part_000 500 true (Parsed 6))).
Proof.
  apply (summary_counts_records part_000 500 true 6).
  vm_compute. reflexivity.
Defined.

(** X5.  The domain of the programs.  A run on board size [n] returns, given
    enough fuel, exactly when the shift [1ULL << n] that builds the full mask
    is defined or never reached: [n < 64], and for part_000, whose check lets
    negative sizes through, also [0 <= n]. *)
Theorem returns_iff_in_domain v tmp n :
  (exists fuel res, run_main v fuel tmp (Parsed n) = Ok res) <->
  n < 64 /\ (v = part_000 -> 0 <= n).
Proof.
  split.
  - intros (fuel & res & H). destruct v; cbn [run_main] in H.
    + split; [|discriminate]. unfold Solver.main in H.
      destruct (Z.ltb_spec n 4); destruct (Z.eqb_spec n 1);
        cbn [andb negb] in H; try lia.
      destruct (shl_one n) eqn:E; try discriminate.
      apply limit_ones in E. lia.
    + unfold Part000.main in H.
      destruct (Z.eqb_spec n 2); [lia|]. destruct (Z.eqb_spec n 3); [lia|].
      cbn [orb] in H.
      destruct (shl_one n) eqn:E; try discriminate.
      apply limit_ones in E. lia.
    + split; [|discriminate]. unfold Part001.main in H.
      destruct (Z.ltb_spec n 4); destruct (Z.eqb_spec n 1);
        cbn [andb negb] in H; try lia.
      destruct (shl_one n) eqn:E; try discriminate.
      apply limit_ones in E. lia.
  - intros [Hn Hv]. destruct v; cbn [run_main].
    + apply SolverFacts.main_total. exact Hn.
    + apply Part000Facts.p0_main_total. specialize (Hv eq_refl). lia.
    + apply Part001Facts.p1_main_total. exact Hn.
Qed.

(** X6.  Below the threshold the three programs are one: for every board
    size from 2 to 20 part_000 and part_001 return what src/solver.cpp
    returns, records, count, and every recursive call alike. *)
Theorem variants_agree_small v fuel tmp n :
  2 <= n < 21 ->
  run_main v fuel tmp (Parsed n) = run_main solver_cpp fuel tmp (Parsed n).
Proof.
  intros Hn. destruct v; cbn [run_main]; [reflexivity| |].
  - unfold Part000.main, Solver.main.
    destruct (Z.eqb_spec n 2) as [->|N2]; [reflexivity|].
    destruct (Z.eqb_spec n 3) as [->|N3]; [reflexivity|].
    destruct (Z.ltb_spec n 4); [lia|]. cbn [orb andb].
    destruct (shl_one n) as [one| |]; try reflexivity. cbn [bind].
    destruct (negb tmp); [reflexivity|].
    rewrite Part000Facts.p0_solveWithSymmetry_small
      by (unfold Part000.ENUMERATION_LIMIT; lia).
    reflexivity.
  - unfold Part001.main, Solver.main.
    destruct ((n <? 4) && negb (n =? 1)); [reflexivity|].
    destruct (shl_one n) as [one| |]; try reflexivity. cbn [bind].
    destruct (negb tmp); [reflexivity|].
    rewrite solveWithSymmetry_agree by (try reflexivity; lia).
    reflexivity.
Qed.

Lemma variants_agree_small_witness :
  run_main part_001 300 true (Parsed 7) = run_main solver_cpp 300 true (Parsed 7).
Proof. apply (variants_agree_small part_001 300 true 7). lia. Defined.

(** X7.  From the threshold on, part_000, whose stop flag is tested but never
    set, returns what part_001, which has no flag, returns. *)
Theorem variants_agree_large fuel tmp n :
  21 <= n ->
  run_main part_000 fuel tmp (Parsed n) = run_main part_001 fuel tmp (Parsed n).
Proof.
  intros Hn. cbn [run_main]. unfold Part000.main, Part001.main.
  destruct (Z.eqb_spec n 2); [lia|]. destruct (Z.eqb_spec n 3); [lia|].
  destruct (Z.ltb_spec n 4); [lia|]. cbn [orb andb].
  destruct (shl_one n) as [one| |]; try reflexivity. cbn [bind].
  destruct (negb tmp); [reflexivity|].
  rewrite Part000Facts.p0_solveWithSymmetry_large
    by (unfold Part000.ENUMERATION_LIMIT; try reflexivity; lia).
  reflexivity.
Qed.

Lemma variants_agree_large_witness :
  run_main part_000 5 true (Parsed 30) = run_main part_001 5 true (Parsed 30).
Proof. apply (variants_agree_large 5 true 30). lia. Defined.

(** X8.  Mirroring is an involution on placements that keeps them valid, and
    on a board of at least two columns a placement is never its own mirror
    image: the two records the symmetric search writes for one find are two
    different solutions. *)
Theorem mirror_is_another_solution (n : Z) (s : list Z) :
  valid_solution n s ->
  valid_solution n (mirror n s) /\
  mirror n (mirror n s) = s /\
  (2 <= n -> mirror n s <> s).
Proof.
  intros Hv. split; [apply mirror_valid, Hv|]. split; [apply mirror_mirror|].
  intros Hn E. destruct Hv as (Hlen & _ & Hp).
  destruct (Hp 0%nat 1%nat) as [Hne _]; [lia|lia|discriminate|].
  apply Hne.
  assert (H0 : nth 0 (mirror n s) 0 = nth 0 s 0) by (rewrite E; reflexivity).
  assert (H1 : nth 1 (mirror n s) 0 = nth 1 s 0) by (rewrite E; reflexivity).
  rewrite nth_mirror in H0, H1 by lia. lia.
Qed.

Lemma mirror_is_another_solution_witness :
  valid_solution 4 (mirror 4 [2; 4; 1; 3]) /\
  mirror 4 (mirror 4 [2; 4; 1; 3]) = [2; 4; 1; 3] /\
  (2 <= 4 -> mirror 4 [2; 4; 1; 3] <> [2; 4; 1; 3]).
Proof.
  apply (mirror_is_another_solution 4 [2; 4; 1; 3]).
  split; [reflexivity|]. split.
  - repeat constructor; lia.
  - intros i j Hi Hj Hij. cbn [length] in Hi, Hj.
    destruct i as [|[|[|[|i]]]]; destruct j as [|[|[|[|j]]]];
      try lia; cbn; split; lia.
Defined.

(** X9.  Error exits.  [main] leaves with status 1 exactly when it is given no
    argument, cannot read a board size, or cannot create the temporary file;
    it has then counted nothing, written no record and made no recursive
    call. *)
Theorem failure_exits v fuel tmp i o st :
  run_main v fuel tmp i = Ok (o, st) ->
  (exit_code o = 1 <->
   o = UsageError \/ o = InvalidInput \/ o = TempFileError) /\
  (o = UsageError <-> i = NoArgument) /\
  (o = InvalidInput <-> i = Unreadable) /\
  (o = TempFileError -> tmp = false) /\
  (exit_code o = 1 -> st = init_state).
Proof.
  intros H.
  assert (Hcode : exit_code o = 1 <->
            o = UsageError \/ o = InvalidInput \/ o = TempFileError).
  { destruct o; cbn; split; intros E; try lia; auto;
      destruct E as [E|[E|E]]; discriminate. }
  split; [exact Hcode|].
  destruct i as [| |n].
  - assert (E : o = UsageError /\ st = init_state)
      by (destruct v; cbn in H; injection H as <- <-; auto).
    destruct E as [-> ->]. repeat split; auto; discriminate.
  - assert (E : o = InvalidInput /\ st = init_state)
      by (destruct v; cbn in H; injection H as <- <-; auto).
    destruct E as [-> ->]. repeat split; auto; discriminate.
  - destruct (run_main_sound v fuel tmp n o st H) as (_ & _ & Ho).
    assert (Htmp : o = TempFileError -> tmp = false /\ st = init_state).
    { intros ->. destruct v; cbn [run_main] in H.
      - unfold Solver.main in H.
        destruct (_ && _); [discriminate|].
        destruct (shl_one n); try discriminate. cbn [bind] in H.
        destruct tmp; cbn [negb] in H; [|injection H as <-; auto].
        destruct (Solver.solveWithSymmetry _ _ _ _); discriminate.
      - unfold Part000.main in H.
        destruct (_ || _); [discriminate|].
        destruct (shl_one n); try discriminate. cbn [bind] in H.
        destruct tmp; cbn [negb] in H; [|injection H as <-; auto].
        destruct (Part000.solveWithSymmetry _ _ _ _); discriminate.
      - unfold Part001.main in H.
        destruct (_ && _); [discriminate|].
        destruct (shl_one n); try discriminate. cbn [bind] in H.
        destruct tmp; cbn [negb] in H; [|injection H as <-; auto].
        destruct (Part001.solveWithSymmetry _ _ _ _); discriminate. }
    split; [split; [intros ->|discriminate]|].
    { destruct Ho as [Ho|[Ho|Ho]]; discriminate. }
    split; [split; [intros ->|discriminate]|].
    { destruct Ho as [Ho|[Ho|Ho]]; discriminate. }
    split; [intros E; apply Htmp; exact E|].
    intros E. apply Hcode in E.
    destruct Ho as [-> | [-> | ->]];
      destruct E as [E|[E|E]]; try discriminate.
    apply Htmp. reflexivity.
Qed.

Lemma failure_exits_witness :
  (exit_code TempFileError = 1 <->
   TempFileError = UsageError \/ TempFileError = InvalidInput \/
   TempFileError = TempFileError) /\
  (TempFileError = UsageError <-> Parsed 8 = NoArgument) /\
  (TempFileError = InvalidInput <-> Parsed 8 = Unreadable) /\
  (TempFileError = TempFileError -> false = false) /\
  (exit_code TempFileError = 1 -> init_state = init_state).
Proof.
  apply (failure_exits solver_cpp 0 false (Parsed 8) TempFileError init_state).
  reflexivity.
Defined.

Lemma printSolution_row_aux (N : Z) (p r : list Z) (b : Sink.buffer) :
  0 <= N -> read_row N p = Ok r ->
  Forall (fun x => 0 <= x < 10 ^ 16) r ->
  Sink.bufferPos b <= Sink.BUFFER_SIZE ->
  exists b',
    Sink.printSolution N p b = Ok b' /\
    Sink.contents b' = Sink.contents b ++ Sink.row_bytes r /\
    Sink.bufferPos b' <= Sink.BUFFER_SIZE /\
    (r <> [] -> forall rest,
        Sink.decode_row (Sink.row_bytes r ++ rest) 0 = (r, rest)).
Proof.
  intros HN Hr HF Hb. unfold read_row in Hr.
  destruct (Z.ltb_spec (Z.of_nat (length p)) N); [discriminate|].
  injection Hr as <-.
  assert (Hlen : length (firstn (Z.to_nat N) p) = Z.to_nat N)
    by (apply firstn_length_le; lia).
  destruct (SinkFacts.printSolution_for_ok N p (firstn (Z.to_nat N) p) 0 b)
    as (b1 & E1 & C1 & P1 & _); auto; [lia|lia| |].
  { cbn [Z.to_nat skipn]. symmetry. apply firstn_skipn. }
  rewrite Hlen in E1. unfold Sink.printSolution. rewrite E1. cbn [bind].
  destruct (SinkFacts.write_byte_ok 10 b1 P1) as (b2 & E2 & C2 & P2 & _).
  unfold Sink.writeNewLine. cbv zeta. rewrite E2.
  exists b2. split; [reflexivity|]. split; [rewrite C2; exact C1|].
  split; [exact P2|].
  intros Hne rest. apply SinkFacts.decode_row_bytes; assumption.
Qed.

Lemma domain_of_run v tmp n :
  (exists fuel res, run_main v fuel tmp (Parsed n) = Ok res) -> n < 64.
Proof.
  intros (fuel & res & H). destruct v; cbn [run_main] in H.
  - unfold Solver.main in H.
    destruct (Z.ltb_spec n 4); destruct (Z.eqb_spec n 1);
      cbn [andb negb] in H; try lia.
    destruct (shl_one n) eqn:E; try discriminate.
    apply limit_ones in E. lia.
  - unfold Part000.main in H.
    destruct (Z.eqb_spec n 2); [lia|]. destruct (Z.eqb_spec n 3); [lia|].
    cbn [orb] in H.
    destruct (shl_one n) eqn:E; try discriminate.
    apply limit_ones in E. lia.
  - unfold Part001.main in H.
    destruct (Z.ltb_spec n 4); destruct (Z.eqb_spec n 1);
      cbn [andb negb] in H; try lia.
    destruct (shl_one n) eqn:E; try discriminate.
    apply limit_ones in E. lia.
Qed.

(** X10.  [writeInt] on a number of at most 16 digits never leaves its scratch
    array or [outBuffer]: it returns, having appended to what was written
    before (flushing first when the buffer is nearly full) a non-empty run of
    decimal digit characters that read back as the number, and it leaves two
    bytes of room for the separator that follows. *)
Theorem writeInt_round_trip (x : Z) (b : Sink.buffer) :
  0 <= x < 10 ^ 16 -> Sink.bufferPos b <= Sink.BUFFER_SIZE ->
  exists b' ds,
    Sink.writeInt x b = Ok b' /\
    Sink.contents b' = Sink.contents b ++ ds /\
    ds <> [] /\
    Forall (fun d => 48 <= d <= 57) ds /\
    Sink.decode_digits ds = x /\
    Sink.bufferPos b' <= Sink.BUFFER_SIZE - 2.
Proof.
  intros Hx Hb.
  destruct (SinkFacts.writeInt_ok x b Hx Hb) as (b' & E & C & P).
  exists b', (Sink.digits Sink.TEMP_SIZE x).
  split; [exact E|]. split; [exact C|]. split.
  - destruct (SinkFacts.digits_length Sink.TEMP_SIZE x) as [H|H];
      [|discriminate].
    intros E0. rewrite E0 in H. cbn in H. lia.
  - split; [apply SinkFacts.digits_are_digits; lia|].
    split; [apply (SinkFacts.decode_digits_of Sink.TEMP_SIZE); exact Hx|exact P].
Qed.

Lemma writeInt_round_trip_witness :
  exists b' ds,
    Sink.writeInt 20 (Sink.mkBuffer [49; 10] [55; 32]) = Ok b' /\
    Sink.contents b' = Sink.contents (Sink.mkBuffer [49; 10] [55; 32]) ++ ds /\
    ds <> [] /\
    Forall (fun d => 48 <= d <= 57) ds /\
    Sink.decode_digits ds = 20 /\
    Sink.bufferPos b' <= Sink.BUFFER_SIZE - 2.
Proof.
  apply (writeInt_round_trip 20 (Sink.mkBuffer [49; 10] [55; 32])).
  - lia.
  - vm_compute. discriminate.
Defined.

(** X11.  [printSolution], byte by byte, writes the record the search model
    keeps: where reading [N] entries of the vector is defined and gives the
    row [r], the routine returns without overrunning [outBuffer], what was
    written before is kept, flushed or not, and followed by the numbers of
    [r] separated by single spaces and closed by a newline; and reading that
    line back gives [r]. *)
Theorem printSolution_writes_row (N : Z) (p r : list Z) (b : Sink.buffer) :
  0 <= N -> read_row N p = Ok r ->
  Forall (fun x => 0 <= x < 10 ^ 16) r ->
  Sink.bufferPos b <= Sink.BUFFER_SIZE ->
  exists b',
    Sink.printSolution N p b = Ok b' /\
    Sink.contents b' = Sink.contents b ++ Sink.row_bytes r /\
    Sink.bufferPos b' <= Sink.BUFFER_SIZE /\
    (r <> [] -> forall rest,
        Sink.decode_row (Sink.row_bytes r ++ rest) 0 = (r, rest)).
Proof. apply printSolution_row_aux. Qed.

Lemma printSolution_writes_row_witness :
  exists b',
    Sink.printSolution 4 [2; 4; 1; 3] (Sink.mkBuffer [] []) = Ok b' /\
    Sink.contents b' =
      Sink.contents (Sink.mkBuffer [] []) ++ Sink.row_bytes [2; 4; 1; 3] /\
    Sink.bufferPos b' <= Sink.BUFFER_SIZE /\
    ([2; 4; 1; 3] <> [] -> forall rest,
        Sink.decode_row (Sink.row_bytes [2; 4; 1; 3] ++ rest) 0 =
        ([2; 4; 1; 3], rest)).
Proof.
  apply (printSolution_writes_row 4 [2; 4; 1; 3] [2; 4; 1; 3]
           (Sink.mkBuffer [] [])).
  - lia.
  - reflexivity.
  - repeat constructor; lia.
  - vm_compute. discriminate.
Defined.

(** X12.  [printMirrorSolution] is [printSolution] on the mirrored vector, the
    way part_001 prints the mirror, and so writes the line of the mirrored
    row. *)
Theorem printMirrorSolution_writes_mirror (N : Z) (p r : list Z)
  (b : Sink.buffer) :
  0 <= N -> read_row N p = Ok r ->
  Forall (fun x => 0 <= x < 10 ^ 16) (mirror N r) ->
  Sink.bufferPos b <= Sink.BUFFER_SIZE ->
  Sink.printMirrorSolution N p b = Sink.printSolution N (mirror N p) b /\
  exists b',
    Sink.printMirrorSolution N p b = Ok b' /\
    Sink.contents b' = Sink.contents b ++ Sink.row_bytes (mirror N r) /\
    Sink.bufferPos b' <= Sink.BUFFER_SIZE.
Proof.
  intros HN Hr HF Hb.
  assert (E : Sink.printMirrorSolution N p b =
              Sink.printSolution N (mirror N p) b).
  { unfold Sink.printMirrorSolution, Sink.printSolution.
    rewrite SinkFacts.printMirrorSolution_for_eq. reflexivity. }
  split; [exact E|]. rewrite E.
  destruct (printSolution_row_aux N (mirror N p) (mirror N r) b)
    as (b' & E' & C' & P' & _); auto.
  - apply read_row_mirror. exact Hr.
  - exists b'. repeat split; assumption.
Qed.

Lemma printMirrorSolution_writes_mirror_witness :
  Sink.printMirrorSolution 4 [2; 4; 1; 3] (Sink.mkBuffer [] []) =
  Sink.printSolution 4 (mirror 4 [2; 4; 1; 3]) (Sink.mkBuffer [] []) /\
  exists b',
    Sink.printMirrorSolution 4 [2; 4; 1; 3] (Sink.mkBuffer [] []) = Ok b' /\
    Sink.contents b' =
      Sink.contents (Sink.mkBuffer [] []) ++
      Sink.row_bytes (mirror 4 [2; 4; 1; 3]) /\
    Sink.bufferPos b' <= Sink.BUFFER_SIZE.
Proof.
  apply (printMirrorSolution_writes_mirror 4 [2; 4; 1; 3] [2; 4; 1; 3]
           (Sink.mkBuffer [] [])).
  - lia.
  - reflexivity.
  - repeat constructor; cbn; lia.
  - vm_compute. discriminate.
Defined.

(** X13.  Every record a run leaves can go through the byte-level
    [printSolution] from any state of the buffer: its entries are column
    numbers between 1 and 63, so the line is written without overrunning
    anything and reads back as the record. *)
Theorem run_records_printable v fuel tmp n o st (r : list Z) (b : Sink.buffer) :
  run_main v fuel tmp (Parsed n) = Ok (o, st) ->
  In r (tempFile st) ->
  Sink.bufferPos b <= Sink.BUFFER_SIZE ->
  r <> [] /\
  Forall (fun x => 1 <= x <= 63) r /\
  exists b',
    Sink.printSolution n r b = Ok b' /\
    Sink.contents b' = Sink.contents b ++ Sink.row_bytes r /\
    Sink.bufferPos b' <= Sink.BUFFER_SIZE /\
    Sink.decode_row (Sink.row_bytes r) 0 = (r, []).
Proof.
  intros H Hin Hb.
  destruct (run_main_sound v fuel tmp n o st H) as (Hok & _).
  pose proof (run_valid Hok) as Hv. rewrite Forall_forall in Hv.
  destruct (Hv r Hin) as (Hlen & HF & _).
  assert (Hn : 0 <= n < 64).
  { destruct (Z.lt_ge_cases n 64) as [Hlt|Hge].
    - destruct (Z.lt_ge_cases n 0) as [Hneg|Hpos]; [|lia].
      exfalso.
      assert (Hd : exists fuel' res, run_main v fuel' tmp (Parsed n) = Ok res)
        by (exists fuel, (o, st); exact H).
      clear - H Hin Hneg. destruct v; cbn [run_main] in H.
      + unfold Solver.main in H.
        destruct (Z.ltb_spec n 4); [|lia].
        destruct (Z.eqb_spec n 1); [lia|]. cbn [andb negb] in H.
        injection H as <- <-. exact Hin.
      + unfold Part000.main in H.
        destruct (Z.eqb_spec n 2); [lia|]. destruct (Z.eqb_spec n 3); [lia|].
        cbn [orb] in H. unfold shl_one in H.
        destruct (Z.leb_spec 0 n); [lia|]. discriminate.
      + unfold Part001.main in H.
        destruct (Z.ltb_spec n 4); [|lia].
        destruct (Z.eqb_spec n 1); [lia|]. cbn [andb negb] in H.
        injection H as <- <-. exact Hin.
    - exfalso.
      assert (Hd : exists fuel' res, run_main v fuel' tmp (Parsed n) = Ok res)
        by (exists fuel, (o, st); exact H).
      apply domain_of_run in Hd. lia. }
  assert (Hne : r <> []).
  { intros ->. cbn [length] in Hlen.
    assert (n = 0) by lia. subst n.
    clear - H Hin. destruct v; cbn [run_main] in H.
    - injection H as <- <-. exact Hin.
    - destruct tmp; cbn in H; injection H as <- <-; exact Hin.
    - injection H as <- <-. exact Hin. }
  split; [exact Hne|].
  assert (HF63 : Forall (fun x => 1 <= x <= 63) r)
    by (revert HF; apply Forall_impl; intros x Hx; lia).
  split; [exact HF63|].
  destruct (printSolution_row_aux n r r b) as (b' & E & C & P & D); auto.
  - lia.
  - unfold read_row. destruct (Z.ltb_spec (Z.of_nat (length r)) n); [lia|].
    rewrite <- Hlen, firstn_all. reflexivity.
  - revert HF63. apply Forall_impl. intros x Hx. lia.
  - exists b'. repeat split; auto.
    rewrite <- (app_nil_r (Sink.row_bytes r)). apply D. exact Hne.
Qed.

Lemma run_records_printable_witness :
  [2; 4; 1; 3] <> [] /\
  Forall (fun x => 1 <= x <= 63) [2; 4; 1; 3] /\
  exists b',
    Sink.printSolution 4 [2; 4; 1; 3] (Sink.mkBuffer [] []) = Ok b' /\
    Sink.contents b' =
      Sink.contents (Sink.mkBuffer [] []) ++ Sink.row_bytes [2; 4; 1; 3] /\
    Sink.bufferPos b' <= Sink.BUFFER_SIZE /\
    Sink.decode_row (Sink.row_bytes [2; 4; 1; 3]) 0 = ([2; 4; 1; 3], []).
Proof.
  apply (run_records_printable solver_cpp 400 true 4
           (outcome_of (run_main solver_cpp 400 true (Parsed 4)))
           (final (run_main solver_cpp 400 true (Parsed 4)))).
  - vm_compute. reflexivity.
  - vm_compute. left. reflexivity.
  - vm_compute. discriminate.
Defined.

(** ** Beyond the claims: no placement is written twice *)

Lemma completes_next_col (n : Z) (p s : list Z) (x : Z) :
  completes n (p ++ [x]) s ->
  completes n p s /\ (length p < length s)%nat /\ nth (length p) s 0 = x.
Proof.
  intros H. split; [apply completes_snoc with (1 := H)|].
  destruct H as [_ [t ->]]. rewrite !length_app. cbn [length].
  split; [lia|]. rewrite <- app_assoc. rewrite app_nth2, Nat.sub_diag by lia.
  reflexivity.
Qed.

Lemma lex_lt_prefix (p a b : list Z) : lex_lt a b -> lex_lt (p ++ a) (p ++ b).
Proof.
  intros H. induction p as [|x p IH]; [exact H|].
  cbn [app lex_lt]. right. split; [reflexivity|exact IH].
Qed.

Lemma sorted_app {A} (R : A -> A -> Prop) (l1 l2 : list A) :
  StronglySorted R l1 -> StronglySorted R l2 ->
  (forall a b, In a l1 -> In b l2 -> R a b) ->
  StronglySorted R (l1 ++ l2).
Proof.
  intros S1 S2 H. induction S1 as [|a l1 S1 IH F1]; [exact S2|].
  cbn [app]. constructor.
  - apply IH. intros x y Hx Hy. apply H; [right; exact Hx|exact Hy].
  - apply Forall_app. split; [exact F1|].
    apply Forall_forall. intros y Hy. apply H; [left; reflexivity|exact Hy].
Qed.

(** What one turn of the loop finds and what the later turns find, put
    together: nothing twice, everything with its next column among the
    candidates the loop started from, and in lexicographic order, the turn
    having taken the lowest candidate. *)
Lemma loop_found_join (n q k : Z) (p : list Z) (f1 f2 : list (list Z)) :
  0 <= k -> Z.testbit q k = true ->
  (forall j, 0 <= j < k -> Z.testbit q j = false) ->
  NoDup f1 ->
  Forall (completes n (p ++ [k + 1])) f1 /\ StronglySorted lex_lt f1 ->
  NoDup f2 ->
  Forall (fun s => completes n p s /\ (length p < length s)%nat /\
                   Z.testbit (q - 2 ^ k) (nth (length p) s 0 - 1) = true) f2 /\
  StronglySorted lex_lt f2 ->
  NoDup (f1 ++ f2) /\
  Forall (fun s => completes n p s /\ (length p < length s)%nat /\
                   Z.testbit q (nth (length p) s 0 - 1) = true) (f1 ++ f2) /\
  StronglySorted lex_lt (f1 ++ f2).
Proof.
  intros Hk Hqk Hlow N1 [F1 S1] N2 [F2 S2]. rewrite Forall_forall in F1, F2.
  split; [|split].
  - apply NoDup_app; auto. intros s H1 H2.
    apply F1, completes_next_col in H1. destruct H1 as (_ & _ & E).
    apply F2 in H2. destruct H2 as (_ & _ & Hb).
    rewrite sub_pow2_spec in Hb by auto.
    apply andb_true_iff in Hb. destruct Hb as [_ Hb].
    apply negb_true_iff, Z.eqb_neq in Hb. lia.
  - apply Forall_app. split; apply Forall_forall; intros s Hs.
    + apply F1, completes_next_col in Hs. destruct Hs as (Hc & Hl & E).
      split; [exact Hc|]. split; [exact Hl|]. rewrite E.
      replace (k + 1 - 1) with k by lia. exact Hqk.
    + apply F2 in Hs. destruct Hs as (Hc & Hl & Hb).
      split; [exact Hc|]. split; [exact Hl|].
      rewrite sub_pow2_spec in Hb by auto.
      apply andb_true_iff in Hb. apply Hb.
  - apply sorted_app; auto. intros a b Ha Hb.
    apply F1 in Ha. destruct Ha as [_ [t1 ->]].
    apply F2 in Hb. destruct Hb as ([(_ & HF & _) [t2 ->]] & Hl & Hb).
    rewrite length_app in Hl.
    destruct t2 as [|y t2]; [cbn [length] in Hl; lia|].
    rewrite app_nth2, Nat.sub_diag in Hb by lia. cbn [nth] in Hb.
    rewrite sub_pow2_spec in Hb by auto.
    apply andb_true_iff in Hb. destruct Hb as [Hq Hne].
    apply negb_true_iff, Z.eqb_neq in Hne.
    rewrite Forall_forall in HF.
    assert (Hy : 1 <= y <= n)
      by (apply HF; apply in_or_app; right; left; reflexivity).
    assert (Hgt : k < y - 1).
    { destruct (Z.lt_trichotomy (y - 1) k) as [Hlt|[Heq|Hgt]]; [|lia|lia].
      rewrite Hlow in Hq by lia. discriminate. }
    rewrite <- app_assoc. apply lex_lt_prefix. cbn [app lex_lt]. left. lia.
Qed.

Lemma part001_solve_nodup n LIMIT fuel :
  0 <= n < 64 -> LIMIT = Z.ones n ->
  (forall c l r st st',
      Inv n c l r (path st) ->
      Part001.solve n LIMIT fuel c l r st = Ok st' ->
      exists found,
        tempFile st' = tempFile st ++ found /\ NoDup found /\
        Forall (completes n (path st)) found /\
        StronglySorted lex_lt found) /\
  (forall q c l r st st',
      Inv n c l r (path st) -> avail n c l r q ->
      Part001.solve_while n LIMIT fuel q c l r st = Ok st' ->
      exists found,
        tempFile st' = tempFile st ++ found /\ NoDup found /\
        Forall (fun s => completes n (path st) s /\
                         (length (path st) < length s)%nat /\
                         Z.testbit q (nth (length (path st)) s 0 - 1) = true)
               found /\
        StronglySorted lex_lt found).
Proof.
  intros Hn HL.
  induction fuel as [|fuel [IHs IHw]]; split; try discriminate.
  - intros c l r st st' HI H.
    rewrite Part001Facts.p1_solve_S in H. cbv zeta in H.
    destruct (Z.eqb_spec c LIMIT) as [Hc|Hc].
    + subst c. rewrite HL in HI.
      destruct (Inv_full n l r (path st) Hn HI) as [Hrow Hval].
      unfold Part001.printSolution in H. cbn [set_count log path] in H.
      rewrite Hrow in H. cbn [bind] in H. injection H as <-.
      exists [path st]. cbn [emit set_count log tempFile].
      split; [reflexivity|]. split.
      * constructor; [intros []|constructor].
      * split; [constructor; [apply completes_self, Hval|constructor]|].
        repeat constructor.
    + assert (Ha : avail n c l r
                (Z.land (not64 (Z.lor (Z.lor c l) r)) LIMIT))
        by (rewrite HL; apply avail_start; exact Hn).
      destruct (IHw _ c l r (log (Enter c (path st)) st) st' HI Ha H)
        as (found & Ht & Hnd & HF & Hsd).
      exists found. split; [exact Ht|]. split; [exact Hnd|].
      split; [|exact Hsd].
      revert HF. apply Forall_impl. cbn [log path]. intros s Hs. apply Hs.
  - intros q c l r st st' HI Ha H.
    rewrite Part001Facts.p1_solve_while_S in H. cbv zeta in H.
    destruct (Z.eqb_spec q 0) as [->|Hq0].
    { injection H as <-. exists []. rewrite app_nil_r.
      repeat split; constructor. }
    assert (Hq64 : 0 < q < 2 ^ 64).
    { pose proof (avail_lt n c l r q) as Hb. destruct Ha as [Ha0 Ha1].
      split; [lia|]. apply Hb; [lia|split; assumption]. }
    destruct (loop_step n c l r q (path st) Hn HI Ha Hq0) as (HI' & Ha' & _).
    cbv zeta in HI', Ha'.
    destruct (lowbit q Hq64) as (k & Hk & Hbit & Hctz & Hqk & Hlow).
    destruct (Part001.solve n LIMIT fuel _ _ _ _) as [st1| |] eqn:E1;
      try discriminate.
    cbn [bind] in H.
    destruct (IHs _ _ _ (push_back _ st) st1 HI' E1) as (f1 & Ht1 & N1 & F1).
    pose proof (proj1 (part001_solve_path n LIMIT fuel) _ _ _ _ _ E1) as Hp1.
    assert (Hp2 : path (pop_back st1) = path st)
      by (apply pop_after_push with (1 := Hp1)).
    assert (HI2 : Inv n c l r
              (path (log (Undone c (path (pop_back st1))) (pop_back st1))))
      by (cbn [log path]; rewrite Hp2; exact HI).
    destruct (IHw _ c l r _ st' HI2 Ha' H) as (f2 & Ht2 & N2 & F2).
    cbn [log pop_back push_back set_path path tempFile] in Ht1, Ht2, F1, F2.
    rewrite Hp1 in F2. cbn [push_back set_path path] in F2.
    rewrite removelast_last in F2.
    rewrite Hctz in F1. rewrite Hbit in F2.
    destruct (loop_found_join n q k (path st) f1 f2 Hk Hqk Hlow N1 F1 N2 F2)
      as [Nd Fd].
    exists (f1 ++ f2). rewrite Ht2, Ht1, app_assoc. auto.
Qed.

Lemma flat_map_twin_keeps n (found : list (list Z)) (s : list Z) :
  In s found -> In s (flat_map (twin n) found).
Proof.
  intros H. apply in_flat_map. exists s. split; [exact H|left; reflexivity].
Qed.

Lemma symmetricSolve_nodup n LIMIT fuel :
  0 <= n < 64 -> LIMIT = Z.ones n ->
  (forall c l r st st',
      Inv n c l r (path st) ->
      Solver.symmetricSolve n LIMIT fuel c l r st = Ok st' ->
      exists found,
        tempFile st' = tempFile st ++ flat_map (twin n) found /\
        NoDup found /\ Forall (completes n (path st)) found /\
        StronglySorted lex_lt found) /\
  (forall q c l r st st',
      Inv n c l r (path st) -> avail n c l r q ->
      Solver.symmetricSolve_while n LIMIT fuel q c l r st = Ok st' ->
      exists found,
        tempFile st' = tempFile st ++ flat_map (twin n) found /\
        NoDup found /\
        Forall (fun s => completes n (path st) s /\
                         (length (path st) < length s)%nat /\
                         Z.testbit q (nth (length (path st)) s 0 - 1) = true)
               found /\
        StronglySorted lex_lt found).
Proof.
  intros Hn HL.
  induction fuel as [|fuel [IHs IHw]]; split; try discriminate.
  - intros c l r st st' HI H.
    rewrite SolverFacts.symmetricSolve_S in H. cbv zeta in H.
    destruct (Z.eqb_spec c LIMIT) as [Hc|Hc].
    + subst c. rewrite HL in HI.
      destruct (Inv_full n l r (path st) Hn HI) as [Hrow Hval].
      unfold Solver.printSolution, Solver.printMirrorSolution in H.
      cbn [set_count log path] in H.
      rewrite Hrow in H. cbn [bind emit set_count log path] in H.
      rewrite Hrow in H. cbn [bind] in H. injection H as <-.
      exists [path st]. cbn [emit set_count log tempFile flat_map twin app].
      rewrite <- app_assoc. split; [reflexivity|]. split.
      * constructor; [intros []|constructor].
      * split; [constructor; [apply completes_self, Hval|constructor]|].
        repeat constructor.
    + assert (Ha : avail n c l r
                (Z.land (not64 (Z.lor (Z.lor c l) r)) LIMIT))
        by (rewrite HL; apply avail_start; exact Hn).
      destruct (IHw _ c l r (log (Enter c (path st)) st) st' HI Ha H)
        as (found & Ht & Hnd & HF & Hsd).
      exists found. split; [exact Ht|]. split; [exact Hnd|].
      split; [|exact Hsd].
      revert HF. apply Forall_impl. cbn [log path]. intros s Hs. apply Hs.
  - intros q c l r st st' HI Ha H.
    rewrite SolverFacts.symmetricSolve_while_S in H. cbv zeta in H.
    destruct (Z.eqb_spec q 0) as [->|Hq0].
    { injection H as <-. exists []. cbn [flat_map]. rewrite app_nil_r.
      repeat split; constructor. }
    assert (Hq64 : 0 < q < 2 ^ 64).
    { pose proof (avail_lt n c l r q) as Hb. destruct Ha as [Ha0 Ha1].
      split; [lia|]. apply Hb; [lia|split; assumption]. }
    destruct (loop_step n c l r q (path st) Hn HI Ha Hq0) as (HI' & Ha' & _).
    cbv zeta in HI', Ha'.
    destruct (lowbit q Hq64) as (k & Hk & Hbit & Hctz & Hqk & Hlow).
    destruct (Solver.symmetricSolve n LIMIT fuel _ _ _ _) as [st1| |] eqn:E1;
      try discriminate.
    cbn [bind] in H.
    destruct (IHs _ _ _ (push_back _ st) st1 HI' E1) as (f1 & Ht1 & N1 & F1).
    pose proof (proj1 (solver_symmetricSolve_path n LIMIT fuel) _ _ _ _ _ E1)
      as Hp1.
    assert (Hp2 : path (pop_back st1) = path st)
      by (apply pop_after_push with (1 := Hp1)).
    assert (HI2 : Inv n c l r
              (path (log (Undone c (path (pop_back st1))) (pop_back st1))))
      by (cbn [log path]; rewrite Hp2; exact HI).
    destruct (IHw _ c l r _ st' HI2 Ha' H) as (f2 & Ht2 & N2 & F2).
    cbn [log pop_back push_back set_path path tempFile] in Ht1, Ht2, F1, F2.
    rewrite Hp1 in F2. cbn [push_back set_path path] in F2.
    rewrite removelast_last in F2.
    rewrite Hctz in F1. rewrite Hbit in F2.
    destruct (loop_found_join n q k (path st) f1 f2 Hk Hqk Hlow N1 F1 N2 F2)
      as [Nd Fd].
    exists (f1 ++ f2). rewrite Ht2, Ht1, flat_map_app, app_assoc. auto.
Qed.

Lemma solver_solve_nodup n LIMIT fuel :
  0 <= n < 64 -> LIMIT = Z.ones n ->
  (forall c l r st st',
      Inv n c l r (path st) ->
      Solver.solve n LIMIT fuel c l r st = Ok st' ->
      exists found,
        tempFile st' = tempFile st ++ found /\ NoDup found /\
        Forall (completes n (path st)) found /\
        StronglySorted lex_lt found) /\
  (forall q c l r st st',
      Inv n c l r (path st) -> avail n c l r q ->
      Solver.solve_while n LIMIT fuel q c l r st = Ok st' ->
      exists found,
        tempFile st' = tempFile st ++ found /\ NoDup found /\
        Forall (fun s => completes n (path st) s /\
                         (length (path st) < length s)%nat /\
                         Z.testbit q (nth (length (path st)) s 0 - 1) = true)
               found /\
        StronglySorted lex_lt found).
Proof.
  intros Hn HL.
  assert (Hnone : forall st : state,
    exists found : list (list Z),
      tempFile st = tempFile st ++ found /\ NoDup found /\
      forall P : list Z -> Prop, Forall P found /\ StronglySorted lex_lt found).
  { intros st. exists []. rewrite app_nil_r. repeat split; constructor. }
  induction fuel as [|fuel [IHs IHw]]; split; try discriminate.
  - intros c l r st st' HI H.
    rewrite SolverFacts.solve_S in H. cbv zeta in H.
    cbn [log stopSearch] in H.
    destruct (stopSearch st) eqn:Es.
    { injection H as <-. destruct (Hnone st) as (found & Ht & Hnd & HF).
      exists found. cbn [log tempFile]. auto. }
    destruct (Z.eqb_spec c LIMIT) as [Hc|Hc].
    + subst c. rewrite HL in HI.
      destruct (Inv_full n l r (path st) Hn HI) as [Hrow Hval].
      unfold Solver.printSolution in H. cbn [set_count log path] in H.
      rewrite Hrow in H. cbn [bind] in H.
      exists [path st].
      destruct (_ && _); injection H as <-;
        cbn [set_stop emit set_count log tempFile];
        (split; [reflexivity|]); (split;
          [constructor; [intros []|constructor]
          |split; [constructor; [apply completes_self, Hval|constructor]
                  |repeat constructor]]).
    + assert (Ha : avail n c l r
                (Z.land (not64 (Z.lor (Z.lor c l) r)) LIMIT))
        by (rewrite HL; apply avail_start; exact Hn).
      destruct (IHw _ c l r (log (Enter c (path st)) st) st' HI Ha H)
        as (found & Ht & Hnd & HF & Hsd).
      exists found. split; [exact Ht|]. split; [exact Hnd|].
      split; [|exact Hsd].
      revert HF. apply Forall_impl. cbn [log path]. intros s Hs. apply Hs.
  - intros q c l r st st' HI Ha H.
    rewrite SolverFacts.solve_while_S in H. cbv zeta in H.
    destruct (Z.eqb_spec q 0) as [->|Hq0].
    { injection H as <-. destruct (Hnone st) as (found & Ht & Hnd & HF).
      exists found. auto. }
    destruct (stopSearch st) eqn:Es.
    { injection H as <-. destruct (Hnone st) as (found & Ht & Hnd & HF).
      exists found. auto. }
    assert (Hq64 : 0 < q < 2 ^ 64).
    { pose proof (avail_lt n c l r q) as Hb. destruct Ha as [Ha0 Ha1].
      split; [lia|]. apply Hb; [lia|split; assumption]. }
    destruct (loop_step n c l r q (path st) Hn HI Ha Hq0) as (HI' & Ha' & _).
    cbv zeta in HI', Ha'.
    destruct (lowbit q Hq64) as (k & Hk & Hbit & Hctz & Hqk & Hlow).
    destruct (Solver.solve n LIMIT fuel _ _ _ _) as [st1| |] eqn:E1;
      try discriminate.
    cbn [bind] in H.
    destruct (IHs _ _ _ (push_back _ st) st1 HI' E1) as (f1 & Ht1 & N1 & F1).
    pose proof (proj1 (solver_solve_path n LIMIT fuel) _ _ _ _ _ E1) as Hp1.
    assert (Hp2 : path (pop_back st1) = path st)
      by (apply pop_after_push with (1 := Hp1)).
    assert (HI2 : Inv n c l r
              (path (log (Undone c (path (pop_back st1))) (pop_back st1))))
      by (cbn [log path]; rewrite Hp2; exact HI).
    destruct (IHw _ c l r _ st' HI2 Ha' H) as (f2 & Ht2 & N2 & F2).
    cbn [log pop_back push_back set_path path tempFile] in Ht1, Ht2, F1, F2.
    rewrite Hp1 in F2. cbn [push_back set_path path] in F2.
    rewrite removelast_last in F2.
    rewrite Hctz in F1. rewrite Hbit in F2.
    destruct (loop_found_join n q k (path st) f1 f2 Hk Hqk Hlow N1 F1 N2 F2)
      as [Nd Fd].
    exists (f1 ++ f2). rewrite Ht2, Ht1, app_assoc. auto.
Qed.

Lemma lex_lt_hd (a b : list Z) :
  a <> [] -> b <> [] -> hd 0 a < hd 0 b -> lex_lt a b.
Proof.
  destruct a as [|x a]; [contradiction|].
  destruct b as [|y b]; [contradiction|].
  cbn [hd lex_lt]. intros _ _ H. left. exact H.
Qed.

Lemma firstHalf_nodup n LIMIT fuel todo :
  0 <= n < 64 -> LIMIT = Z.ones n ->
  forall col st st',
    0 <= col -> col + Z.of_nat todo <= Z.quot n 2 -> path st = [] ->
    Solver.firstHalf n LIMIT fuel todo col st = Ok st' ->
    exists found,
      tempFile st' = tempFile st ++ flat_map (twin n) found /\
      NoDup found /\
      Forall (fun s => s <> [] /\ col + 1 <= hd 0 s <= col + Z.of_nat todo)
             found /\
      StronglySorted lex_lt found.
Proof.
  intros Hn HL.
  destruct (SolverFacts.half_facts n Hn) as (Hh0 & Hh1 & _).
  induction todo as [|todo IH]; intros col st st' Hcol Hhalf Hp H.
  { injection H as <-. exists []. cbn [flat_map]. rewrite app_nil_r.
    repeat split; constructor. }
  cbn [Solver.firstHalf] in H.
  rewrite shl_one_ok in H by lia. cbn [bind] in H.
  destruct (Solver.symmetricSolve n LIMIT fuel _ _ _ _) as [st1| |] eqn:E1;
    try discriminate.
  cbn [bind] in H.
  assert (HI : Inv n (2 ^ col) (shl1 (2 ^ col)) (shr1 (2 ^ col))
                 (path (push_back (col + 1) st))).
  { cbn [push_back set_path path]. rewrite Hp.
    apply SolverFacts.Inv_first; [exact Hn|lia]. }
  destruct (proj1 (symmetricSolve_nodup n LIMIT fuel Hn HL) _ _ _ _ st1 HI E1)
    as (f1 & Ht1 & N1 & F1 & S1).
  pose proof (proj1 (solver_symmetricSolve_path n LIMIT fuel) _ _ _ _ _ E1)
    as Hp1.
  assert (Hp2 : path (pop_back st1) = path st)
    by (apply pop_after_push with (1 := Hp1)).
  rewrite Hp in Hp2.
  destruct (IH (col + 1)
              (log (Undone 0 (path (pop_back st1))) (pop_back st1)) st')
    as (f2 & Ht2 & N2 & F2 & S2); [lia|lia|exact Hp2|exact H|].
  cbn [log pop_back push_back set_path path tempFile] in Ht1, Ht2, F1.
  rewrite Hp in F1. cbn [app] in F1.
  assert (F1' : Forall (fun s => s <> [] /\ hd 0 s = col + 1) f1).
  { revert F1. apply Forall_impl. intros s [_ [t ->]].
    split; [discriminate|reflexivity]. }
  rewrite Forall_forall in F1', F2.
  exists (f1 ++ f2). rewrite Ht2, Ht1, flat_map_app, app_assoc.
  split; [reflexivity|]. split; [|split].
  - apply NoDup_app; auto. intros s H1 H2.
    apply F1' in H1. apply F2 in H2. lia.
  - apply Forall_app. split; apply Forall_forall; intros s Hs.
    + apply F1' in Hs. split; [apply Hs|lia].
    + apply F2 in Hs. split; [apply Hs|lia].
  - apply sorted_app; auto. intros a b Ha Hb.
    apply F1' in Ha. apply F2 in Hb.
    apply lex_lt_hd; [apply Ha|apply Hb|lia].
Qed.

(** The file of a small board has no line twice: finds have their first queen
    in the left half, their mirror images in the right half, and the
    middle-column finds, which only an odd board has, in the middle. *)
Lemma twin_file_nodup (n h : Z) (found mids : list (list Z)) :
  0 <= 2 * h <= n ->
  NoDup found -> Forall (fun s => s <> [] /\ 1 <= hd 0 s <= h) found ->
  NoDup mids -> Forall (fun s => hd 0 s = h + 1) mids ->
  (mids <> [] -> n = 2 * h + 1) ->
  NoDup (flat_map (twin n) found ++ mids).
Proof.
  intros Hh Nf Ff Nm Fm Hodd.
  rewrite Forall_forall in Ff, Fm.
  assert (Hin : forall s, In s (flat_map (twin n) found) ->
            In s found \/ exists a, In a found /\ s = mirror n a).
  { intros s Hs. apply in_flat_map in Hs. destruct Hs as (a & Ha & Hs).
    destruct Hs as [<-|[<-|[]]]; [left; exact Ha|right; exists a; auto]. }
  assert (Hm : forall a, In a found -> h < hd 0 (mirror n a)).
  { intros a Ha. destruct (Ff a Ha) as [Hne Hhd].
    rewrite hd_mirror by exact Hne. lia. }
  assert (Hm' : forall a, a <> [] /\ 1 <= hd 0 a <= h ->
            h < hd 0 (mirror n a)).
  { intros a [Hne Hhd]. rewrite hd_mirror by exact Hne. lia. }
  assert (Hflat : forall l, NoDup l ->
            (forall s, In s l -> s <> [] /\ 1 <= hd 0 s <= h) ->
            NoDup (flat_map (twin n) l)).
  { clear - Hm'. intros l Nl. induction Nl as [|a l Ha Nl IH]; intros F.
    { constructor. }
    cbn [flat_map twin app].
    pose proof (F a (or_introl eq_refl)) as Fa.
    constructor; [|constructor; [|apply IH; intros s Hs; apply F; right; exact Hs]].
    - intros [E|Hs].
      + pose proof (Hm' a Fa) as H1. rewrite E in H1. lia.
      + apply in_flat_map in Hs. destruct Hs as (b & Hb & Hs).
        destruct Hs as [<-|[E|[]]]; [contradiction|].
        pose proof (Hm' b (F b (or_intror Hb))) as H1. rewrite E in H1. lia.
    - intros Hs. apply in_flat_map in Hs. destruct Hs as (b & Hb & Hs).
      destruct Hs as [E|[E|[]]].
      + pose proof (Hm' a Fa) as H1.
        destruct (F b (or_intror Hb)) as [_ H2]. rewrite <- E in H1. lia.
      + apply (f_equal (mirror n)) in E. rewrite !mirror_mirror in E.
        subst b. contradiction. }
  apply NoDup_app; [apply Hflat; assumption|exact Nm|].
  - intros s Hs Hmid. pose proof (Fm s Hmid) as Hhd.
    assert (Hn2 : n = 2 * h + 1)
      by (apply Hodd; intros ->; destruct Hmid).
    destruct (Hin s Hs) as [Hf|(a & Ha & ->)].
    + destruct (Ff s Hf) as [_ H2]. lia.
    + destruct (Ff a Ha) as [Hne H2]. rewrite hd_mirror in Hhd by exact Hne.
      lia.
Qed.

Lemma solver_symmetry_nodup n LIMIT fuel st st' :
  0 <= n < 64 -> LIMIT = Z.ones n -> n < 21 -> stopSearch st = false ->
  Solver.solveWithSymmetry n LIMIT fuel st = Ok st' ->
  exists found mids,
    tempFile st' = tempFile st ++ flat_map (twin n) found ++ mids /\
    NoDup (flat_map (twin n) found ++ mids) /\
    StronglySorted lex_lt (found ++ mids) /\
    Forall (fun s => s <> [] /\ 1 <= hd 0 s <= Z.quot n 2) found.
Proof.
  intros Hn HL Hsmall Hf H.
  destruct (SolverFacts.half_facts n Hn) as (Hh0 & Hh1 & Hh2).
  unfold Solver.solveWithSymmetry, Solver.FIND_ALL_LIMIT in H.
  destruct (Z.geb_spec n 21); [lia|]. cbv zeta in H.
  destruct (Solver.firstHalf n LIMIT fuel _ _ _) as [st1| |] eqn:E1;
    try discriminate.
  cbn [bind] in H.
  destruct (firstHalf_nodup n LIMIT fuel (Z.to_nat (Z.quot n 2)) Hn HL
              0 (set_path [] st) st1) as (found & Ht1 & N1 & F1 & S1);
    [lia|lia|reflexivity|exact E1|].
  cbn [set_path tempFile] in Ht1.
  destruct (SolverFacts.firstHalf_sound n LIMIT Hn HL fuel
              (Z.to_nat (Z.quot n 2)) 0 (set_path [] st) st1) as [Hp1 _];
    [lia|lia|reflexivity|exact E1|].
  assert (Hf1 : stopSearch st1 = false)
    by (apply firstHalf_flag in E1; rewrite E1; exact Hf).
  assert (F1' : Forall (fun s => s <> [] /\ 1 <= hd 0 s <= Z.quot n 2) found).
  { revert F1. apply Forall_impl. intros s [Hne Hhd]. split; [exact Hne|lia]. }
  destruct (Z.eqb_spec (Z.rem n 2) 1) as [Hodd|Heven].
  - rewrite shl_one_ok in H by lia. cbn [bind] in H.
    destruct (Solver.solve n LIMIT fuel _ _ _ _) as [st2| |] eqn:E2;
      try discriminate.
    cbn [bind] in H. injection H as <-.
    rewrite solver_solve_unflagged in E2 by (auto; lia).
    assert (HI : Inv n (2 ^ Z.quot n 2) (shl1 (2 ^ Z.quot n 2))
                   (shr1 (2 ^ Z.quot n 2))
                   (path (push_back (Z.quot n 2 + 1) st1))).
    { cbn [push_back set_path path]. rewrite Hp1.
      apply SolverFacts.Inv_first; [exact Hn|lia]. }
    destruct (proj1 (part001_solve_nodup n LIMIT fuel Hn HL)
                _ _ _ _ st2 HI E2) as (mids & Ht2 & N2 & F2 & S2).
    cbn [push_back set_path path tempFile] in Ht2, F2. rewrite Hp1 in F2.
    exists found, mids.
    cbn [log pop_back set_path tempFile].
    rewrite Ht2, Ht1, <- app_assoc. split; [reflexivity|].
    split; [|split; [|exact F1']].
    + apply (twin_file_nodup n (Z.quot n 2)); auto; try lia.
      * revert F2. apply Forall_impl. intros s [_ [t ->]]. reflexivity.
      * intros _. pose proof (Z.quot_rem' n 2). lia.
    + apply sorted_app; auto. intros a b Ha Hb.
      rewrite Forall_forall in F1', F2.
      apply F1' in Ha. apply F2 in Hb. destruct Hb as [_ [t ->]].
      apply lex_lt_hd; [apply Ha|discriminate|cbn [app hd]; lia].
  - injection H as <-. exists found, [].
    rewrite !app_nil_r. split; [exact Ht1|].
    split; [|split; [exact S1|exact F1']].
    rewrite <- (app_nil_r (flat_map (twin n) found)).
    apply (twin_file_nodup n (Z.quot n 2)); auto; try lia.
    + constructor.
    + intros Hne. contradiction.
Qed.

Lemma run_main_nodup v fuel tmp n o st :
  run_main v fuel tmp (Parsed n) = Ok (o, st) -> NoDup (tempFile st).
Proof.
  intros H.
  assert (Hinit : NoDup (tempFile init_state)) by constructor.
  assert (Hplain1 : forall k LIMIT st',
    0 <= k < 64 -> LIMIT = Z.ones k ->
    Part001.solve k LIMIT fuel 0 0 0 (set_path [] init_state) = Ok st' ->
    NoDup (tempFile st')).
  { intros k LIMIT st' Hk HL E.
    destruct (proj1 (part001_solve_nodup k LIMIT fuel Hk HL)
                0 0 0 (set_path [] init_state) st' (Inv_empty k) E)
      as (found & Ht & Nd & _).
    rewrite Ht. exact Nd. }
  assert (Hsym : forall k LIMIT st',
    0 <= k < 64 -> LIMIT = Z.ones k -> k < 21 ->
    Solver.solveWithSymmetry k LIMIT fuel init_state = Ok st' ->
    NoDup (tempFile st')).
  { intros k LIMIT st' Hk HL Hs E.
    destruct (solver_symmetry_nodup k LIMIT fuel init_state st' Hk HL Hs
                eq_refl E) as (found & mids & Ht & Nd & _).
    rewrite Ht. exact Nd. }
  destruct v; cbn [run_main] in H.
  - unfold Solver.main in H.
    destruct (_ && _); [injection H as <- <-; exact Hinit|].
    destruct (shl_one n) as [one| |] eqn:E1; try discriminate.
    apply limit_ones in E1. destruct E1 as [Hk HL]. cbn [bind] in H.
    destruct tmp; cbn [negb] in H; [|injection H as <- <-; exact Hinit].
    destruct (Solver.solveWithSymmetry n _ fuel init_state)
      as [st'| |] eqn:E; try discriminate.
    cbn [bind] in H. injection H as <- <-.
    destruct (Z.lt_ge_cases n 21) as [Hs|Hb].
    + apply (Hsym n _ st' Hk HL Hs E).
    + unfold Solver.solveWithSymmetry, Solver.FIND_ALL_LIMIT in E.
      destruct (Z.geb_spec n 21); [|lia].
      destruct (proj1 (solver_solve_nodup n _ fuel Hk HL)
                  0 0 0 (set_path [] init_state) st' (Inv_empty n) E)
        as (found & Ht & Nd & _).
      rewrite Ht. exact Nd.
  - unfold Part000.main in H.
    destruct (_ || _); [injection H as <- <-; exact Hinit|].
    destruct (shl_one n) as [one| |] eqn:E1; try discriminate.
    apply limit_ones in E1. destruct E1 as [Hk HL]. cbn [bind] in H.
    destruct tmp; cbn [negb] in H; [|injection H as <- <-; exact Hinit].
    destruct (Part000.solveWithSymmetry n _ fuel init_state)
      as [st'| |] eqn:E; try discriminate.
    cbn [bind] in H. injection H as <- <-.
    destruct (Z.lt_ge_cases n 21) as [Hs|Hb].
    + rewrite Part000Facts.p0_solveWithSymmetry_small in E by exact Hs.
      apply (Hsym n _ st' Hk HL Hs E).
    + rewrite Part000Facts.p0_solveWithSymmetry_large in E
        by (unfold Part000.ENUMERATION_LIMIT; try reflexivity; lia).
      unfold Part001.solveWithSymmetry in E.
      destruct (Z.geb_spec n 21); [|lia]. rewrite orb_true_r in E.
      apply (Hplain1 n _ st' Hk HL E).
  - unfold Part001.main in H.
    destruct (_ && _); [injection H as <- <-; exact Hinit|].
    destruct (shl_one n) as [one| |] eqn:E1; try discriminate.
    apply limit_ones in E1. destruct E1 as [Hk HL]. cbn [bind] in H.
    destruct tmp; cbn [negb] in H; [|injection H as <- <-; exact Hinit].
    destruct (Part001.solveWithSymmetry n _ fuel init_state)
      as [st'| |] eqn:E; try discriminate.
    cbn [bind] in H. injection H as <- <-.
    assert (Hcase : 1 < n < 21 \/ (n <= 1 \/ n >= 21)) by lia.
    destruct Hcase as [Hs|Hb].
    + rewrite solveWithSymmetry_agree in E by (try reflexivity; lia).
      apply (Hsym n _ st' Hk HL); [lia|exact E].
    + unfold Part001.solveWithSymmetry in E.
      destruct (Z.leb_spec n 1); destruct (Z.geb_spec n 21);
        cbn [orb] in E; try lia.
      all: apply (Hplain1 n _ st' Hk HL E).
Qed.

(** X14.  Each placement is written once: the temporary file a run leaves has
    no line twice, in any of the three programs and on any board, capped or
    not; the reported count is therefore a count of different placements. *)
Theorem records_distinct v fuel tmp n o st :
  run_main v fuel tmp (Parsed n) = Ok (o, st) ->
  NoDup (tempFile st) /\
  solutionCount st = Z.of_nat (length (tempFile st)).
Proof.
  intros H. split; [apply (run_main_nodup v fuel tmp n o st H)|].
  destruct (run_main_sound v fuel tmp n o st H) as (Hok & _).
  apply (run_count Hok).
Qed.

Lemma records_distinct_witness :
  NoDup (tempFile (final (run_main part_001 500 true (Parsed 6)))) /\
  solutionCount (final (run_main part_001 500 true (Parsed 6))) =
  Z.of_nat (length (tempFile (final (run_main part_001 500 true (Parsed 6))))).
Proof.
  apply (records_distinct part_001 500 true 6
           (outcome_of (run_main part_001 500 true (Parsed 6)))).
  vm_compute. reflexivity.
Defined.

(** X15.  The order of the output.  The temporary file of a run is a list of
    finds, each followed at once by its mirror image, and then the remaining
    finds with no mirror written; the finds, in the order they were written,
    are strictly increasing in the lexicographic order of the placements,
    first row first, because every loop takes the lowest free column next.
    A find with a mirror has its first queen in the left half of the board,
    and from the threshold 21 on no mirror is written at all, so that the
    whole file is in lexicographic order there. *)
Theorem records_in_order v fuel tmp n o st :
  run_main v fuel tmp (Parsed n) = Ok (o, st) ->
  exists found mids,
    tempFile st = flat_map (twin n) found ++ mids /\
    StronglySorted lex_lt (found ++ mids) /\
    Forall (fun s => s <> [] /\ 1 <= hd 0 s <= Z.quot n 2) found /\
    (21 <= n -> found = []).
Proof.
  intros H.
  set (P := fun (k : Z) (st' : state) =>
    exists found mids,
      tempFile st' = flat_map (twin k) found ++ mids /\
      StronglySorted lex_lt (found ++ mids) /\
      Forall (fun s => s <> [] /\ 1 <= hd 0 s <= Z.quot k 2) found /\
      (21 <= k -> found = [])).
  change (P n st).
  assert (Hinit : forall k, P k init_state).
  { intros k. exists [], []. repeat split; constructor. }
  assert (Hplain1 : forall k LIMIT st',
    0 <= k < 64 -> LIMIT = Z.ones k ->
    Part001.solve k LIMIT fuel 0 0 0 (set_path [] init_state) = Ok st' ->
    P k st').
  { intros k LIMIT st' Hk HL E.
    destruct (proj1 (part001_solve_nodup k LIMIT fuel Hk HL)
                0 0 0 (set_path [] init_state) st' (Inv_empty k) E)
      as (found & Ht & _ & _ & Sd).
    exists [], found. cbn [flat_map app].
    split; [exact Ht|]. split; [exact Sd|]. split; [constructor|].
    reflexivity. }
  assert (Hsym : forall k LIMIT st',
    0 <= k < 64 -> LIMIT = Z.ones k -> k < 21 ->
    Solver.solveWithSymmetry k LIMIT fuel init_state = Ok st' ->
    P k st').
  { intros k LIMIT st' Hk HL Hs E.
    destruct (solver_symmetry_nodup k LIMIT fuel init_state st' Hk HL Hs
                eq_refl E) as (found & mids & Ht & _ & Sd & Fd).
    exists found, mids. cbn [init_state tempFile app] in Ht.
    split; [exact Ht|]. split; [exact Sd|]. split; [exact Fd|]. lia. }
  destruct v; cbn [run_main] in H.
  - unfold Solver.main in H.
    destruct (_ && _); [injection H as <- <-; apply Hinit|].
    destruct (shl_one n) as [one| |] eqn:E1; try discriminate.
    apply limit_ones in E1. destruct E1 as [Hk HL]. cbn [bind] in H.
    destruct tmp; cbn [negb] in H; [|injection H as <- <-; apply Hinit].
    destruct (Solver.solveWithSymmetry n _ fuel init_state)
      as [st'| |] eqn:E; try discriminate.
    cbn [bind] in H. injection H as <- <-.
    destruct (Z.lt_ge_cases n 21) as [Hs|Hb].
    + apply (Hsym n _ st' Hk HL Hs E).
    + unfold Solver.solveWithSymmetry, Solver.FIND_ALL_LIMIT in E.
      destruct (Z.geb_spec n 21); [|lia].
      destruct (proj1 (solver_solve_nodup n _ fuel Hk HL)
                  0 0 0 (set_path [] init_state) st' (Inv_empty n) E)
        as (found & Ht & _ & _ & Sd).
      exists [], found. cbn [flat_map app].
      split; [exact Ht|]. split; [exact Sd|]. split; [constructor|].
      reflexivity.
  - unfold Part000.main in H.
    destruct (_ || _); [injection H as <- <-; apply Hinit|].
    destruct (shl_one n) as [one| |] eqn:E1; try discriminate.
    apply limit_ones in E1. destruct E1 as [Hk HL]. cbn [bind] in H.
    destruct tmp; cbn [negb] in H; [|injection H as <- <-; apply Hinit].
    destruct (Part000.solveWithSymmetry n _ fuel init_state)
      as [st'| |] eqn:E; try discriminate.
    cbn [bind] in H. injection H as <- <-.
    destruct (Z.lt_ge_cases n 21) as [Hs|Hb].
    + rewrite Part000Facts.p0_solveWithSymmetry_small in E by exact Hs.
      apply (Hsym n _ st' Hk HL Hs E).
    + rewrite Part000Facts.p0_solveWithSymmetry_large in E
        by (unfold Part000.ENUMERATION_LIMIT; try reflexivity; lia).
      unfold Part001.solveWithSymmetry in E.
      destruct (Z.geb_spec n 21); [|lia]. rewrite orb_true_r in E.
      apply (Hplain1 n _ st' Hk HL E).
  - unfold Part001.main in H.
    destruct (_ && _); [injection H as <- <-; apply Hinit|].
    destruct (shl_one n) as [one| |] eqn:E1; try discriminate.
    apply limit_ones in E1. destruct E1 as [Hk HL]. cbn [bind] in H.
    destruct tmp; cbn [negb] in H; [|injection H as <- <-; apply Hinit].
    destruct (Part001.solveWithSymmetry n _ fuel init_state)
      as [st'| |] eqn:E; try discriminate.
    cbn [bind] in H. injection H as <- <-.
    assert (Hcase : 1 < n < 21 \/ (n <= 1 \/ n >= 21)) by lia.
    destruct Hcase as [Hs|Hb].
    + rewrite solveWithSymmetry_agree in E by (try reflexivity; lia).
      apply (Hsym n _ st' Hk HL); [lia|exact E].
    + unfold Part001.solveWithSymmetry in E.
      destruct (Z.leb_spec n 1); destruct (Z.geb_spec n 21);
        cbn [orb] in E; try lia.
      all: apply (Hplain1 n _ st' Hk HL E).
Qed.

Lemma records_in_order_witness :
  exists found mids,
    tempFile (final (run_main solver_cpp 500 true (Parsed 7))) =
      flat_map (twin 7) found ++ mids /\
    StronglySorted lex_lt (found ++ mids) /\
    Forall (fun s => s <> [] /\ 1 <= hd 0 s <= Z.quot 7 2) found /\
    (21 <= 7 -> found = []).
Proof.
  apply (records_in_order solver_cpp 500 true 7
           (outcome_of (run_main solver_cpp 500 true (Parsed 7)))).
  vm_compute. reflexivity.
Defined.

(** ** The order in which the search tries the columns *)

Lemma entered_Enter (c : Z) (p : list Z) (t : list event) :
  entered (Enter c p :: t) = entered t ++ [p].
Proof. reflexivity. Qed.

Lemma entered_Undone (c : Z) (p : list Z) (t : list event) :
  entered (Undone c p :: t) = entered t.
Proof. unfold entered. cbn [flat_map app]. reflexivity. Qed.

Lemma land_limit_bounds (x LIMIT : Z) :
  0 <= LIMIT < 2 ^ 64 -> 0 <= Z.land x LIMIT < 2 ^ 64.
Proof.
  intros HL.
  assert (H0 : 0 <= Z.land x LIMIT) by (apply Z.land_nonneg; right; lia).
  split; [exact H0|].
  apply bits_below; [exact H0|lia|].
  intros j Hj Hb. rewrite Z.land_spec in Hb.
  apply andb_true_iff in Hb. destruct Hb as [_ Hb].
  destruct (Z.lt_ge_cases j 64) as [Hlt|Hge]; [exact Hlt|].
  rewrite (testbit_small LIMIT 64 j) in Hb by lia. discriminate.
Qed.

Lemma lex_lt_prefix_inv (p a b : list Z) : lex_lt (p ++ a) (p ++ b) -> lex_lt a b.
Proof.
  induction p as [|x p IH]; [exact (fun H => H)|].
  cbn [app lex_lt]. intros [H|[_ H]]; [lia|exact (IH H)].
Qed.

Lemma sorted_nth {A} (R : A -> A -> Prop) (l : list A) :
  StronglySorted R l ->
  forall i j a b, (i < j)%nat ->
    nth_error l i = Some a -> nth_error l j = Some b -> R a b.
Proof.
  induction 1 as [|x l S IH F]; intros i j a b Hij Hi Hj.
  { destruct i; discriminate. }
  destruct j as [|j]; [lia|]. cbn [nth_error] in Hj.
  destruct i as [|i].
  - cbn [nth_error] in Hi. injection Hi as <-.
    rewrite Forall_forall in F. apply F. apply nth_error_In with (1 := Hj).
  - cbn [nth_error] in Hi. apply (IH i j); [lia|exact Hi|exact Hj].
Qed.

(** The calls one activation makes, put after its own entry. *)
Lemma entered_head (q : Z) (p : list Z) (es : list (list Z)) :
  StronglySorted lex_lt es -> Forall (below q p) es ->
  StronglySorted lex_lt (p :: es) /\
  Forall (fun s => exists t, s = p ++ t) (p :: es).
Proof.
  intros Sd Fd. split.
  - constructor; [exact Sd|]. revert Fd. apply Forall_impl.
    intros s (y & t & -> & _).
    rewrite <- (app_nil_r p) at 1. apply lex_lt_prefix. exact I.
  - constructor; [exists []; rewrite app_nil_r; reflexivity|].
    revert Fd. apply Forall_impl. intros s (y & t & -> & _).
    exists (y :: t). reflexivity.
Qed.

(** The calls under the candidate one turn of the loop takes, followed by the
    calls of the later turns: the turn takes the lowest candidate, so that
    everything it enters comes first in the order of the placements. *)
Lemma entered_join (q k : Z) (p : list Z) (e1 e2 : list (list Z)) :
  0 <= k -> Z.testbit q k = true ->
  (forall j, 0 <= j < k -> Z.testbit q j = false) ->
  StronglySorted lex_lt e1 ->
  Forall (fun s => exists t, s = (p ++ [k + 1]) ++ t) e1 ->
  StronglySorted lex_lt e2 ->
  Forall (below (q - 2 ^ k) p) e2 ->
  StronglySorted lex_lt (e1 ++ e2) /\ Forall (below q p) (e1 ++ e2).
Proof.
  intros Hk Hqk Hlow S1 F1 S2 F2. rewrite Forall_forall in F1, F2. split.
  - apply sorted_app; auto. intros a b Ha Hb.
    apply F1 in Ha. destruct Ha as [t1 ->].
    apply F2 in Hb. destruct Hb as (y & t2 & -> & Hb).
    rewrite sub_pow2_spec in Hb by auto.
    apply andb_true_iff in Hb. destruct Hb as [Hq Hne].
    apply negb_true_iff, Z.eqb_neq in Hne.
    assert (Hy : 0 <= y - 1).
    { destruct (Z.lt_ge_cases (y - 1) 0) as [Hneg|Hpos]; [|exact Hpos].
      rewrite Z.testbit_neg_r in Hq by exact Hneg. discriminate. }
    assert (Hgt : k < y - 1).
    { destruct (Z.lt_trichotomy (y - 1) k) as [Hlt|[Heq|Hgt]]; [|lia|lia].
      rewrite Hlow in Hq by lia. discriminate. }
    rewrite <- app_assoc. apply lex_lt_prefix. cbn [app lex_lt]. left. lia.
  - apply Forall_app. split; apply Forall_forall; intros s Hs.
    + apply F1 in Hs. destruct Hs as [t ->].
      exists (k + 1), t. rewrite <- app_assoc. split; [reflexivity|].
      replace (k + 1 - 1) with k by lia. exact Hqk.
    + apply F2 in Hs. destruct Hs as (y & t & -> & Hb).
      exists y, t. split; [reflexivity|].
      rewrite sub_pow2_spec in Hb by auto.
      apply andb_true_iff in Hb. apply Hb.
Qed.

Lemma part001_solve_entered n LIMIT fuel :
  0 <= LIMIT < 2 ^ 64 ->
  (forall c l r st st',
      Part001.solve n LIMIT fuel c l r st = Ok st' ->
      exists es,
        entered (trace st') = entered (trace st) ++ es /\
        StronglySorted lex_lt es /\
        Forall (fun s => exists t, s = path st ++ t) es) /\
  (forall q c l r st st',
      0 <= q < 2 ^ 64 ->
      Part001.solve_while n LIMIT fuel q c l r st = Ok st' ->
      exists es,
        entered (trace st') = entered (trace st) ++ es /\
        StronglySorted lex_lt es /\
        Forall (below q (path st)) es).
Proof.
  intros HL.
  induction fuel as [|fuel [IHs IHw]]; split; try discriminate.
  - intros c l r st st' H.
    rewrite Part001Facts.p1_solve_S in H. cbv zeta in H.
    destruct (c =? LIMIT).
    + unfold Part001.printSolution in H.
      destruct (read_row n _) as [row| |]; try discriminate.
      cbn [bind] in H. injection H as <-.
      exists [path st]. cbn [emit set_count log trace].
      rewrite entered_Enter. split; [reflexivity|].
      split; [repeat constructor|].
      constructor; [exists []; rewrite app_nil_r; reflexivity|constructor].
    + destruct (IHw _ c l r (log (Enter c (path st)) st) st'
                  (land_limit_bounds _ LIMIT HL) H) as (es & Ht & Sd & Fd).
      cbn [log trace path] in Ht, Fd. rewrite entered_Enter in Ht.
      exists (path st :: es). rewrite Ht, <- app_assoc.
      split; [reflexivity|]. apply (entered_head _ _ _ Sd Fd).
  - intros q c l r st st' Hq H.
    rewrite Part001Facts.p1_solve_while_S in H. cbv zeta in H.
    destruct (Z.eqb_spec q 0) as [->|Hq0].
    { injection H as <-. exists []. rewrite app_nil_r.
      repeat split; constructor. }
    assert (Hq64 : 0 < q < 2 ^ 64) by lia.
    destruct (lowbit q Hq64) as (k & Hk & Hbit & Hctz & Hqk & Hlow).
    destruct (Part001.solve n LIMIT fuel _ _ _ _) as [st1| |] eqn:E1;
      try discriminate.
    cbn [bind] in H.
    destruct (IHs _ _ _ (push_back _ st) st1 E1) as (e1 & Ht1 & S1 & F1).
    pose proof (proj1 (part001_solve_path n LIMIT fuel) _ _ _ _ _ E1) as Hp1.
    assert (Hp2 : path (pop_back st1) = path st)
      by (apply pop_after_push with (1 := Hp1)).
    assert (Hq' : 0 <= q - Z.land q (neg64 q) < 2 ^ 64)
      by (rewrite Hbit; pose proof (sub_pow2_nonneg q k (proj1 Hq) Hk Hqk); lia).
    destruct (IHw _ c l r _ st' Hq' H) as (e2 & Ht2 & S2 & F2).
    cbn [log pop_back push_back set_path path trace] in Ht1, Ht2, F1, F2.
    rewrite entered_Undone in Ht2.
    rewrite Hp1 in F2. cbn [push_back set_path path] in F2.
    rewrite removelast_last in F2.
    rewrite Hctz in F1. rewrite Hbit in F2.
    exists (e1 ++ e2). rewrite Ht2, Ht1, <- app_assoc.
    split; [reflexivity|].
    apply (entered_join q k (path st) e1 e2 Hk Hqk Hlow S1 F1 S2 F2).
Qed.

Lemma symmetricSolve_entered n LIMIT fuel :
  0 <= LIMIT < 2 ^ 64 ->
  (forall c l r st st',
      Solver.symmetricSolve n LIMIT fuel c l r st = Ok st' ->
      exists es,
        entered (trace st') = entered (trace st) ++ es /\
        StronglySorted lex_lt es /\
        Forall (fun s => exists t, s = path st ++ t) es) /\
  (forall q c l r st st',
      0 <= q < 2 ^ 64 ->
      Solver.symmetricSolve_while n LIMIT fuel q c l r st = Ok st' ->
      exists es,
        entered (trace st') = entered (trace st) ++ es /\
        StronglySorted lex_lt es /\
        Forall (below q (path st)) es).
Proof.
  intros HL.
  induction fuel as [|fuel [IHs IHw]]; split; try discriminate.
  - intros c l r st st' H.
    rewrite SolverFacts.symmetricSolve_S in H. cbv zeta in H.
    destruct (c =? LIMIT).
    + unfold Solver.printSolution, Solver.printMirrorSolution in H.
      destruct (read_row n _) as [row| |]; try discriminate.
      cbn [bind] in H.
      destruct (read_row n _) as [row'| |]; try discriminate.
      cbn [bind] in H. injection H as <-.
      exists [path st]. cbn [emit set_count log trace].
      rewrite entered_Enter. split; [reflexivity|].
      split; [repeat constructor|].
      constructor; [exists []; rewrite app_nil_r; reflexivity|constructor].
    + destruct (IHw _ c l r (log (Enter c (path st)) st) st'
                  (land_limit_bounds _ LIMIT HL) H) as (es & Ht & Sd & Fd).
      cbn [log trace path] in Ht, Fd. rewrite entered_Enter in Ht.
      exists (path st :: es). rewrite Ht, <- app_assoc.
      split; [reflexivity|]. apply (entered_head _ _ _ Sd Fd).
  - intros q c l r st st' Hq H.
    rewrite SolverFacts.symmetricSolve_while_S in H. cbv zeta in H.
    destruct (Z.eqb_spec q 0) as [->|Hq0].
    { injection H as <-. exists []. rewrite app_nil_r.
      repeat split; constructor. }
    assert (Hq64 : 0 < q < 2 ^ 64) by lia.
    destruct (lowbit q Hq64) as (k & Hk & Hbit & Hctz & Hqk & Hlow).
    destruct (Solver.symmetricSolve n LIMIT fuel _ _ _ _) as [st1| |] eqn:E1;
      try discriminate.
    cbn [bind] in H.
    destruct (IHs _ _ _ (push_back _ st) st1 E1) as (e1 & Ht1 & S1 & F1).
    pose proof (proj1 (solver_symmetricSolve_path n LIMIT fuel) _ _ _ _ _ E1)
      as Hp1.
    assert (Hp2 : path (pop_back st1) = path st)
      by (apply pop_after_push with (1 := Hp1)).
    assert (Hq' : 0 <= q - Z.land q (neg64 q) < 2 ^ 64)
      by (rewrite Hbit; pose proof (sub_pow2_nonneg q k (proj1 Hq) Hk Hqk); lia).
    destruct (IHw _ c l r _ st' Hq' H) as (e2 & Ht2 & S2 & F2).
    cbn [log pop_back push_back set_path path trace] in Ht1, Ht2, F1, F2.
    rewrite entered_Undone in Ht2.
    rewrite Hp1 in F2. cbn [push_back set_path path] in F2.
    rewrite removelast_last in F2.
    rewrite Hctz in F1. rewrite Hbit in F2.
    exists (e1 ++ e2). rewrite Ht2, Ht1, <- app_assoc.
    split; [reflexivity|].
    apply (entered_join q k (path st) e1 e2 Hk Hqk Hlow S1 F1 S2 F2).
Qed.

Lemma solver_solve_entered n LIMIT fuel :
  0 <= LIMIT < 2 ^ 64 ->
  (forall c l r st st',
      Solver.solve n LIMIT fuel c l r st = Ok st' ->
      exists es,
        entered (trace st') = entered (trace st) ++ es /\
        StronglySorted lex_lt es /\
        Forall (fun s => exists t, s = path st ++ t) es) /\
  (forall q c l r st st',
      0 <= q < 2 ^ 64 ->
      Solver.solve_while n LIMIT fuel q c l r st = Ok st' ->
      exists es,
        entered (trace st') = entered (trace st) ++ es /\
        StronglySorted lex_lt es /\
        Forall (below q (path st)) es).
Proof.
  intros HL.
  assert (Hone : forall c st,
    exists es,
      entered (Enter c (path st) :: trace st) = entered (trace st) ++ es /\
      StronglySorted lex_lt es /\
      Forall (fun s => exists t, s = path st ++ t) es).
  { intros c st. exists [path st]. rewrite entered_Enter.
    split; [reflexivity|]. split; [repeat constructor|].
    constructor; [exists []; rewrite app_nil_r; reflexivity|constructor]. }
  induction fuel as [|fuel [IHs IHw]]; split; try discriminate.
  - intros c l r st st' H.
    rewrite SolverFacts.solve_S in H. cbv zeta in H.
    destruct (stopSearch (log (Enter c (path st)) st)).
    { injection H as <-. cbn [log trace]. apply Hone. }
    destruct (c =? LIMIT).
    + unfold Solver.printSolution in H.
      destruct (read_row n _) as [row| |]; try discriminate.
      cbn [bind] in H.
      destruct (_ && _); injection H as <-;
        cbn [set_stop emit set_count log trace]; apply Hone.
    + destruct (IHw _ c l r (log (Enter c (path st)) st) st'
                  (land_limit_bounds _ LIMIT HL) H) as (es & Ht & Sd & Fd).
      cbn [log trace path] in Ht, Fd. rewrite entered_Enter in Ht.
      exists (path st :: es). rewrite Ht, <- app_assoc.
      split; [reflexivity|]. apply (entered_head _ _ _ Sd Fd).
  - intros q c l r st st' Hq H.
    rewrite SolverFacts.solve_while_S in H. cbv zeta in H.
    destruct (Z.eqb_spec q 0) as [->|Hq0].
    { injection H as <-. exists []. rewrite app_nil_r.
      repeat split; constructor. }
    destruct (stopSearch st).
    { injection H as <-. exists []. rewrite app_nil_r.
      repeat split; constructor. }
    assert (Hq64 : 0 < q < 2 ^ 64) by lia.
    destruct (lowbit q Hq64) as (k & Hk & Hbit & Hctz & Hqk & Hlow).
    destruct (Solver.solve n LIMIT fuel _ _ _ _) as [st1| |] eqn:E1;
      try discriminate.
    cbn [bind] in H.
    destruct (IHs _ _ _ (push_back _ st) st1 E1) as (e1 & Ht1 & S1 & F1).
    pose proof (proj1 (solver_solve_path n LIMIT fuel) _ _ _ _ _ E1) as Hp1.
    assert (Hp2 : path (pop_back st1) = path st)
      by (apply pop_after_push with (1 := Hp1)).
    assert (Hq' : 0 <= q - Z.land q (neg64 q) < 2 ^ 64)
      by (rewrite Hbit; pose proof (sub_pow2_nonneg q k (proj1 Hq) Hk Hqk); lia).
    destruct (IHw _ c l r _ st' Hq' H) as (e2 & Ht2 & S2 & F2).
    cbn [log pop_back push_back set_path path trace] in Ht1, Ht2, F1, F2.
    rewrite entered_Undone in Ht2.
    rewrite Hp1 in F2. cbn [push_back set_path path] in F2.
    rewrite removelast_last in F2.
    rewrite Hctz in F1. rewrite Hbit in F2.
    exists (e1 ++ e2). rewrite Ht2, Ht1, <- app_assoc.
    split; [reflexivity|].
    apply (entered_join q k (path st) e1 e2 Hk Hqk Hlow S1 F1 S2 F2).
Qed.

Lemma firstHalf_entered n LIMIT fuel todo :
  0 <= LIMIT < 2 ^ 64 ->
  forall col st st',
    path st = [] ->
    Solver.firstHalf n LIMIT fuel todo col st = Ok st' ->
    path st' = [] /\
    exists es,
      entered (trace st') = entered (trace st) ++ es /\
      StronglySorted lex_lt es /\
      Forall (fun s => s <> [] /\ col + 1 <= hd 0 s <= col + Z.of_nat todo) es.
Proof.
  intros HL.
  induction todo as [|todo IH]; intros col st st' Hp H.
  { injection H as <-. split; [exact Hp|]. exists []. rewrite app_nil_r.
    repeat split; constructor. }
  cbn [Solver.firstHalf] in H.
  destruct (shl_one col) as [bit| |]; try discriminate. cbn [bind] in H.
  destruct (Solver.symmetricSolve n LIMIT fuel _ _ _ _) as [st1| |] eqn:E1;
    try discriminate.
  cbn [bind] in H.
  destruct (proj1 (symmetricSolve_entered n LIMIT fuel HL) _ _ _ _ st1 E1)
    as (e1 & Ht1 & S1 & F1).
  pose proof (proj1 (solver_symmetricSolve_path n LIMIT fuel) _ _ _ _ _ E1)
    as Hp1.
  assert (Hp2 : path (pop_back st1) = path st)
    by (apply pop_after_push with (1 := Hp1)).
  rewrite Hp in Hp2.
  destruct (IH (col + 1)
              (log (Undone 0 (path (pop_back st1))) (pop_back st1)) st')
    as (Hp' & e2 & Ht2 & S2 & F2); [exact Hp2|exact H|].
  split; [exact Hp'|].
  cbn [log pop_back push_back set_path path trace] in Ht1, Ht2, F1.
  rewrite entered_Undone in Ht2.
  rewrite Hp in F1. cbn [app] in F1.
  assert (F1' : Forall (fun s => s <> [] /\ hd 0 s = col + 1) e1).
  { revert F1. apply Forall_impl. intros s [t ->].
    split; [discriminate|reflexivity]. }
  rewrite Forall_forall in F1', F2.
  exists (e1 ++ e2). rewrite Ht2, Ht1, <- app_assoc.
  split; [reflexivity|]. split.
  - apply sorted_app; auto. intros a b Ha Hb.
    apply F1' in Ha. apply F2 in Hb.
    apply lex_lt_hd; [apply Ha|apply Hb|lia].
  - apply Forall_app. split; apply Forall_forall; intros s Hs.
    + apply F1' in Hs. split; [apply Hs|lia].
    + apply F2 in Hs. split; [apply Hs|lia].
Qed.

Lemma solveWithSymmetry_entered n LIMIT fuel st st' :
  0 <= LIMIT < 2 ^ 64 ->
  Solver.solveWithSymmetry n LIMIT fuel st = Ok st' ->
  exists es,
    entered (trace st') = entered (trace st) ++ es /\
    StronglySorted lex_lt es.
Proof.
  intros HL H. unfold Solver.solveWithSymmetry in H.
  destruct (n >=? Solver.FIND_ALL_LIMIT).
  { destruct (proj1 (solver_solve_entered n LIMIT fuel HL) _ _ _ _ _ H)
      as (es & Ht & Sd & _).
    exists es. split; [exact Ht|exact Sd]. }
  cbv zeta in H.
  destruct (Solver.firstHalf n LIMIT fuel _ _ _) as [st1| |] eqn:E1;
    try discriminate.
  cbn [bind] in H.
  destruct (firstHalf_entered n LIMIT fuel (Z.to_nat (Z.quot n 2)) HL
              0 (set_path [] st) st1 eq_refl E1)
    as (Hp1 & e1 & Ht1 & S1 & F1).
  cbn [set_path trace] in Ht1.
  destruct (Z.rem n 2 =? 1).
  - destruct (shl_one (Z.quot n 2)) as [bit| |] eqn:Eb; try discriminate.
    apply limit_ones in Eb. destruct Eb as [Hmid _]. cbn [bind] in H.
    destruct (Solver.solve n LIMIT fuel _ _ _ _) as [st2| |] eqn:E2;
      try discriminate.
    cbn [bind] in H. injection H as <-.
    destruct (proj1 (solver_solve_entered n LIMIT fuel HL) _ _ _ _ st2 E2)
      as (e2 & Ht2 & S2 & F2).
    cbn [log pop_back push_back set_path path trace] in Ht2, F2 |- *.
    rewrite entered_Undone. rewrite Hp1 in F2. cbn [app] in F2.
    exists (e1 ++ e2). rewrite Ht2, Ht1, <- app_assoc.
    split; [reflexivity|].
    apply sorted_app; auto. intros a b Ha Hb.
    rewrite Forall_forall in F1, F2.
    apply F1 in Ha. apply F2 in Hb. destruct Hb as [t ->].
    apply lex_lt_hd; [apply Ha|discriminate|cbn [app hd]; lia].
  - injection H as <-. exists e1. split; [exact Ht1|exact S1].
Qed.

Lemma run_main_entered v fuel tmp i o st :
  run_main v fuel tmp i = Ok (o, st) ->
  StronglySorted lex_lt (entered (trace st)).
Proof.
  intros H.
  assert (Hinit : StronglySorted lex_lt (entered (trace init_state)))
    by constructor.
  assert (HL : forall one, 0 <= (one - 1) mod modulus < 2 ^ 64)
    by (intros one; rewrite <- modulus_eq; apply Z.mod_pos_bound; reflexivity).
  assert (Hplain1 : forall k LIMIT st', 0 <= LIMIT < 2 ^ 64 ->
    Part001.solve k LIMIT fuel 0 0 0 (set_path [] init_state) = Ok st' ->
    StronglySorted lex_lt (entered (trace st'))).
  { intros k LIMIT st' Hb E.
    destruct (proj1 (part001_solve_entered k LIMIT fuel Hb) _ _ _ _ _ E)
      as (es & Ht & Sd & _).
    rewrite Ht. exact Sd. }
  assert (Hsym : forall k LIMIT st', 0 <= LIMIT < 2 ^ 64 ->
    Solver.solveWithSymmetry k LIMIT fuel init_state = Ok st' ->
    StronglySorted lex_lt (entered (trace st'))).
  { intros k LIMIT st' Hb E.
    destruct (solveWithSymmetry_entered k LIMIT fuel init_state st' Hb E)
      as (es & Ht & Sd).
    rewrite Ht. exact Sd. }
  destruct i as [| |n];
    [destruct v; injection H as <- <-; exact Hinit
    |destruct v; injection H as <- <-; exact Hinit|].
  destruct v; cbn [run_main] in H.
  - unfold Solver.main in H.
    destruct (_ && _); [injection H as <- <-; exact Hinit|].
    destruct (shl_one n) as [one| |]; try discriminate. cbn [bind] in H.
    destruct tmp; cbn [negb] in H; [|injection H as <- <-; exact Hinit].
    destruct (Solver.solveWithSymmetry n _ fuel init_state)
      as [st'| |] eqn:E; try discriminate.
    cbn [bind] in H. injection H as <- <-.
    apply (Hsym n _ st' (HL one) E).
  - unfold Part000.main in H.
    destruct (_ || _); [injection H as <- <-; exact Hinit|].
    destruct (shl_one n) as [one| |]; try discriminate. cbn [bind] in H.
    destruct tmp; cbn [negb] in H; [|injection H as <- <-; exact Hinit].
    destruct (Part000.solveWithSymmetry n _ fuel init_state)
      as [st'| |] eqn:E; try discriminate.
    cbn [bind] in H. injection H as <- <-.
    destruct (Z.lt_ge_cases n 21) as [Hs|Hb].
    + rewrite Part000Facts.p0_solveWithSymmetry_small in E by exact Hs.
      apply (Hsym n _ st' (HL one) E).
    + rewrite Part000Facts.p0_solveWithSymmetry_large in E
        by (unfold Part000.ENUMERATION_LIMIT; try reflexivity; lia).
      unfold Part001.solveWithSymmetry in E.
      destruct (Z.geb_spec n 21); [|lia]. rewrite orb_true_r in E.
      apply (Hplain1 n _ st' (HL one) E).
  - unfold Part001.main in H.
    destruct (_ && _); [injection H as <- <-; exact Hinit|].
    destruct (shl_one n) as [one| |]; try discriminate. cbn [bind] in H.
    destruct tmp; cbn [negb] in H; [|injection H as <- <-; exact Hinit].
    destruct (Part001.solveWithSymmetry n _ fuel init_state)
      as [st'| |] eqn:E; try discriminate.
    cbn [bind] in H. injection H as <- <-.
    assert (Hcase : 1 < n < 21 \/ (n <= 1 \/ n >= 21)) by lia.
    destruct Hcase as [Hs|Hb].
    + rewrite solveWithSymmetry_agree in E by (try reflexivity; lia).
      apply (Hsym n _ st' (HL one) E).
    + unfold Part001.solveWithSymmetry in E.
      destruct (Z.leb_spec n 1); destruct (Z.geb_spec n 21);
        cbn [orb] in E; try lia.
      all: apply (Hplain1 n _ st' (HL one) E).
Qed.

(** C8.  Two runs of one program on one input that both return, return the
    same count, the same records in the same order and the same final state.
    The search tries the columns in increasing index order: the placement
    vectors with which the recursive calls of a run are entered, in the order
    of the calls, are strictly increasing in the lexicographic order of the
    placements, so that of two calls that extend one placement [p] by the
    columns [a] and [b], the one with the lower column is made first.  This
    is because each turn of the loop takes the lowest candidate column:
    [q & -q] is the single bit at the least index set in [q],
    [__builtin_ctzll] gives that index, and the candidates left for later
    turns all have a higher index. *)
Theorem search_deterministic v fuel1 fuel2 tmp i r1 r2 :
  run_main v fuel1 tmp i = Ok r1 ->
  run_main v fuel2 tmp i = Ok r2 ->
  r1 = r2 /\
  StronglySorted lex_lt (entered (trace (snd r1))) /\
  (forall p a b x y,
      nth_error (entered (trace (snd r1))) x = Some (p ++ [a]) ->
      nth_error (entered (trace (snd r1))) y = Some (p ++ [b]) ->
      ((x < y)%nat <-> a < b)) /\
  forall q, 0 < q < 2 ^ 64 ->
    exists k, 0 <= k /\
      Z.land q (neg64 q) = 2 ^ k /\
      ctzll (Z.land q (neg64 q)) = k /\
      Z.testbit q k = true /\
      (forall j, 0 <= j < k -> Z.testbit q j = false) /\
      (forall j, 0 <= j ->
         Z.testbit (q - Z.land q (neg64 q)) j = true -> k < j).
Proof.
  intros H1 H2. split; [exact (run_main_agree v _ _ _ _ _ _ H1 H2)|].
  assert (Sd : StronglySorted lex_lt (entered (trace (snd r1))))
    by (destruct r1 as [o st]; apply (run_main_entered _ _ _ _ _ _ H1)).
  split; [exact Sd|]. split.
  - intros p a b x y Hx Hy.
    assert (Hlt : forall i j c d, (i < j)%nat ->
              nth_error (entered (trace (snd r1))) i = Some (p ++ [c]) ->
              nth_error (entered (trace (snd r1))) j = Some (p ++ [d]) ->
              c < d).
    { intros i' j' c d Hij Hi Hj.
      pose proof (sorted_nth lex_lt _ Sd i' j' _ _ Hij Hi Hj) as Hl.
      apply lex_lt_prefix_inv in Hl. cbn [lex_lt] in Hl.
      destruct Hl as [Hl|[_ []]]. exact Hl. }
    split; [intros Hxy; apply (Hlt x y a b Hxy Hx Hy)|].
    intros Hab.
    destruct (Nat.lt_trichotomy x y) as [Hxy|[Hxy|Hxy]]; [exact Hxy| |].
    + subst y. rewrite Hx in Hy. injection Hy as Hy.
      apply app_inv_head in Hy. injection Hy as Hy. lia.
    + pose proof (Hlt y x b a Hxy Hy Hx). lia.
  - intros q Hq.
    destruct (lowbit q Hq) as (k & Hk & Hbit & Hctz & Hqk & Hlow).
    exists k. repeat split; auto.
    intros j Hj Hb. rewrite Hbit, sub_pow2_spec in Hb by auto.
    apply andb_true_iff in Hb. destruct Hb as [Hb Hne].
    apply negb_true_iff, Z.eqb_neq in Hne.
    destruct (Z.lt_trichotomy j k) as [Hlt|[Heq|Hgt]]; [|lia|lia].
    rewrite Hlow in Hb by lia. discriminate.
Qed.

Lemma search_deterministic_witness :
  (outcome_of (run_main solver_cpp 400 true (Parsed 5)),
   final (run_main solver_cpp 400 true (Parsed 5))) =
  (outcome_of (run_main solver_cpp 500 true (Parsed 5)),
   final (run_main solver_cpp 500 true (Parsed 5))) /\
  StronglySorted lex_lt
    (entered (trace (snd (outcome_of (run_main solver_cpp 400 true (Parsed 5)),
                          final (run_main solver_cpp 400 true (Parsed 5)))))) /\
  (forall p a b x y,
      nth_error
        (entered (trace (snd (outcome_of (run_main solver_cpp 400 true (Parsed 5)),
                              final (run_main solver_cpp 400 true (Parsed 5))))))
        x = Some (p ++ [a]) ->
      nth_error
        (entered (trace (snd (outcome_of (run_main solver_cpp 400 true (Parsed 5)),
                              final (run_main solver_cpp 400 true (Parsed 5))))))
        y = Some (p ++ [b]) ->
      ((x < y)%nat <-> a < b)) /\
  forall q, 0 < q < 2 ^ 64 ->
    exists k, 0 <= k /\
      Z.land q (neg64 q) = 2 ^ k /\
      ctzll (Z.land q (neg64 q)) = k /\
      Z.testbit q k = true /\
      (forall j, 0 <= j < k -> Z.testbit q j = false) /\
      (forall j, 0 <= j ->
         Z.testbit (q - Z.land q (neg64 q)) j = true -> k < j).
Proof.
  apply (search_deterministic solver_cpp 400 500 true (Parsed 5)).
  - vm_compute. reflexivity.
  - vm_compute. reflexivity.
Defined.
